(** * offkey: threshold classification, tabulation and event synthesis

    A shallow embedding of [offkey/cli.py], [offkey/metrics.py] and
    [offkey/util.py].  Python exceptions are values of [result]; Python
    numbers are any type with the [Number] interface (Python's [<] and
    [str]); dictionaries are insertion-ordered association lists. *)

From Stdlib Require Import QArith Qround.
From Stdlib Require Import ZArith List String Ascii Bool Lia.
From Stdlib Require Import Permutation Sorted OrderedTypeEx.
Import ListNotations.

Local Open Scope string_scope.
Local Open Scope list_scope.
Local Open Scope Z_scope.

(** String concatenation, Python's [+] on [str]. *)
Infix "+++" := String.append (right associativity, at level 60).

(* ================================================================= *)
(** * Exceptions *)

Inductive exn : Type :=
| AssertionError
| KeyError
| IndexError
| TypeError
| AttributeError.

Inductive result (A : Type) : Type :=
| Ok (a : A)
| Raise (e : exn).

Arguments Ok {A} a.
Arguments Raise {A} e.

Definition bind {A B : Type} (r : result A) (k : A -> result B) : result B :=
  match r with
  | Ok a => k a
  | Raise e => Raise e
  end.

Notation "x <- r ;; k" := (bind r (fun x => k))
  (at level 61, r at next level, right associativity).
Notation "' pat <- r ;; k" :=
  (bind r (fun x => match x with pat => k end))
  (at level 61, pat pattern, r at next level, right associativity).

(** A loop whose body may raise: the results of the iterations that ran,
    or the first exception. *)
Fixpoint for_each {A B : Type} (body : A -> result B) (xs : list A)
  : result (list B) :=
  match xs with
  | [] => Ok []
  | x :: xs => y <- body x ;; ys <- for_each body xs ;; Ok (y :: ys)
  end.

(** [assert cond] *)
Definition assert (cond : bool) : result unit :=
  if cond then Ok tt else Raise AssertionError.

(* ================================================================= *)
(** * Numbers

    The threshold code only compares numbers and formats them.  [num_lt]
    is Python's [x < y] and [num_str] is [format(x, '')]; [x > y] on
    numbers is [y < x].  The three laws say that [<] is a strict weak
    order, which holds of [int] and of every [float] but NaN. *)

Class Number (N : Type) : Type := {
  num_lt : N -> N -> bool;
  num_str : N -> string;
  num_lt_irrefl : forall x, num_lt x x = false;
  num_lt_trans : forall x y z,
      num_lt x y = true -> num_lt y z = true -> num_lt x z = true;
  num_lt_cotrans : forall x y z,
      num_lt x z = true -> num_lt x y = true \/ num_lt y z = true
}.

Definition num_gt {N : Type} `{Number N} (x y : N) : bool := num_lt y x.

(** The code of a character, and the character of a code: Python's [ord]
    and [chr]. *)
Definition ord (c : ascii) : Z := Z.of_N (N_of_ascii c).

Definition chr (n : Z) : ascii := ascii_of_N (Z.to_N n).

(** The decimal digits of [n >= 0] in front of [acc], least significant
    digit first; [fuel] bounds the number of digits. *)
Fixpoint decimal (fuel : nat) (n : Z) (acc : string) : string :=
  match fuel with
  | O => acc
  | S fuel =>
      let acc := String (chr (48 + n mod 10)) acc in
      if n <? 10 then acc else decimal fuel (n / 10) acc
  end.

(** Python's [str] on an [int]. *)
Definition str_int (z : Z) : string :=
  if z <? 0 then String "-" (decimal (S (Z.to_nat (Z.log2 (- z)))) (- z) EmptyString)
  else decimal (S (Z.to_nat (Z.log2 z))) z EmptyString.

#[export] Program Instance Number_int : Number Z := {
  num_lt := Z.ltb;
  num_str := str_int
}.
Next Obligation. apply Z.ltb_irrefl. Qed.
Next Obligation. apply Z.ltb_lt; apply Z.ltb_lt in H, H0; lia. Qed.
Next Obligation.
  apply Z.ltb_lt in H.
  destruct (Z.ltb_spec x y); [now left | right; apply Z.ltb_lt; lia].
Qed.

(* ================================================================= *)
(** * cli.py: the threshold ladder *)

Inductive level : Type := Info | Warning | Error | Critical.

Definition level_name (l : level) : string :=
  match l with
  | Info => "info"
  | Warning => "warning"
  | Error => "error"
  | Critical => "critical"
  end.

(** The order none < info < warning < error < critical. *)
Definition level_rank (l : level) : nat :=
  match l with
  | Info => 1
  | Warning => 2
  | Error => 3
  | Critical => 4
  end.

Definition severity_rank (s : option level) : nat :=
  match s with
  | None => 0
  | Some l => level_rank l
  end.

Section Thresholds.

Context {N : Type} `{Number N}.

(** A metric's threshold dict: [dict(info=.., warning=.., error=..,
    critical=.., message=..)].  A field is [None] when the key is
    absent or bound to [None]; [.get] does not tell them apart. *)
Record thresh_config : Type := {
  cfg_info : option N;
  cfg_warning : option N;
  cfg_error : option N;
  cfg_critical : option N;
  cfg_message : option string
}.

(** [thresh_config.get(level)] *)
Definition get (c : thresh_config) (l : level) : option N :=
  match l with
  | Info => cfg_info c
  | Warning => cfg_warning c
  | Error => cfg_error c
  | Critical => cfg_critical c
  end.

(** [all(x < y for x, y in zip(L, L[1:]))] *)
Definition strictly_increasing (L : list N) : bool :=
  forallb (fun xy => num_lt (fst xy) (snd xy)) (combine L (tl L)).

(** [all(x > y for x, y in zip(L, L[1:]))] *)
Definition strictly_decreasing (L : list N) : bool :=
  forallb (fun xy => num_gt (fst xy) (snd xy)) (combine L (tl L)).

(** The first loop: the levels that have a threshold, in the order
    info, warning, error, critical. *)
Definition ladder (c : thresh_config) : list (level * N) :=
  flat_map
    (fun l => match get c l with
              | Some thresh => [(l, thresh)]
              | None => []
              end)
    [Info; Warning; Error; Critical].

(** The second loop.  [acc] is the pair [(severity, ref)], [None]
    while both variables are still [None]; the first branch is the
    [break]. *)
Fixpoint walk (si : bool) (val : N) (tl : list (level * N))
         (acc : option (level * N)) : option (level * N) :=
  match tl with
  | [] => acc
  | (l, thresh) :: rest =>
      if (si && num_lt val thresh) || (negb si && num_gt val thresh)
      then acc
      else walk si val rest (Some (l, thresh))
  end.

Definition _check_val_against_thresh (val : N) (c : thresh_config)
  : result (option level * option string) :=
  let tl := ladder c in
  match tl with
  | [] => Ok (None, None)
  | _ :: _ =>
      let tvs := map snd tl in
      let si := strictly_increasing tvs in
      let sd := strictly_decreasing tvs in
      _ <- assert (si || sd) ;;
      match walk si val tl None with
      | None => Ok (None, None)
      | Some (severity, ref) =>
          let diag :=
            if si then num_str val +++ " >= " +++ num_str ref
            else num_str val +++ " <= " +++ num_str ref in
          Ok (Some severity, Some diag)
      end
  end.

End Thresholds.

Arguments thresh_config N : clear implicits.

(* ================================================================= *)
(** * Sample configuration (from CONFIGS in cli.py) *)

(** The thresholds of ['.used.pct:avg'] in the system/memory group. *)
Definition memory_used_pct : thresh_config Z :=
  {| cfg_info := Some 80; cfg_warning := Some 90; cfg_error := Some 95;
     cfg_critical := Some 98; cfg_message := Some "High memory use" |}.

(** A "low is bad" ladder, as a free-space metric would have. *)
Definition low_is_bad : thresh_config Z :=
  {| cfg_info := Some 40; cfg_warning := Some 30; cfg_error := Some 20;
     cfg_critical := Some 10; cfg_message := None |}.

(** A ladder that is not monotonic. *)
Definition zigzag : thresh_config Z :=
  {| cfg_info := Some 10; cfg_warning := Some 30; cfg_error := Some 20;
     cfg_critical := None; cfg_message := None |}.

(* ================================================================= *)
(** * util.py: flatten *)

(** What a dictionary is keyed by and what a path is made of: a [str] (a
    metric spec, a bucket key) or an [int] (a bucket key, a sequence
    index). *)
Inductive key : Type :=
| KStr (s : string)
| KInt (z : Z).

Definition path : Type := list key.

(** The objects [_flatten] tells apart with [isinstance]: a [Mapping],
    with its items in iteration order, a [Sequence], or anything else.
    (A Python [str] is a [Sequence] of one-character [str]s and so is not
    a leaf: [_flatten_limited] below has the objects with [str]s in
    them.  The tabulated results that [main] flattens have numbers, or
    [None], at the leaves.) *)
#[warnings="-register-all"]
Inductive obj (L : Type) : Type :=
| Mapping (items : list (key * obj L))
| Sequence (elems : list (obj L))
| Leaf (o : L).

Arguments Mapping {L} items.
Arguments Sequence {L} elems.
Arguments Leaf {L} o.

Section Flatten.

Context {L : Type}.

(** A generator is modelled by the list of what it yields, in order;
    [yield from] is concatenation. *)
Fixpoint _flatten (pfx : path) (o : obj L) : list (path * L) :=
  match o with
  | Mapping items =>
      (fix for_items (items : list (key * obj L)) : list (path * L) :=
         match items with
         | [] => []
         | (k, v) :: items => _flatten (pfx ++ [k]) v ++ for_items items
         end) items
  | Sequence elems =>
      (fix for_enumerate (i : Z) (elems : list (obj L)) : list (path * L) :=
         match elems with
         | [] => []
         | v :: elems =>
             _flatten (pfx ++ [KInt i]) v ++ for_enumerate (i + 1) elems
         end) 0 elems
  | Leaf o => [(pfx, o)]
  end.

Definition flatten (o : obj L) : list (path * L) := _flatten [] o.

(** [enumerate(elems, start)] *)
Fixpoint enumerate_from {A : Type} (start : Z) (elems : list A) : list (Z * A) :=
  match elems with
  | [] => []
  | v :: elems => (start, v) :: enumerate_from (start + 1) elems
  end.

(** The number of leaves of an object. *)
Fixpoint leaves (o : obj L) : nat :=
  match o with
  | Mapping items =>
      (fix sum (items : list (key * obj L)) : nat :=
         match items with
         | [] => O
         | (_, v) :: items => (leaves v + sum items)%nat
         end) items
  | Sequence elems =>
      (fix sum (elems : list (obj L)) : nat :=
         match elems with
         | [] => O
         | v :: elems => (leaves v + sum elems)%nat
         end) elems
  | Leaf _ => 1%nat
  end.

(** ** The generator, step by step

    [flatten] is a generator function, and [yield from] delegates to a
    sub-generator.  A running generator is the chain of suspended
    [_flatten] frames, innermost first; a frame is a [for] loop with the
    items it has yet to visit, or a leaf about to be yielded. *)

Inductive frame : Type :=
| InMapping (pfx : path) (items : list (key * obj L))
| InSequence (pfx : path) (i : Z) (elems : list (obj L))
| AtLeaf (pfx : path) (o : L).

Definition generator : Type := list frame.

(** Entering [_flatten(pfx, o)]. *)
Definition enter (pfx : path) (o : obj L) : frame :=
  match o with
  | Mapping items => InMapping pfx items
  | Sequence elems => InSequence pfx 0 elems
  | Leaf o => AtLeaf pfx o
  end.

(** [flatten(o)] creates a generator; nothing runs until it is iterated. *)
Definition flatten_generator (o : obj L) : generator := [enter [] o].

(** One step of the innermost frame [f] over the outer frames [g]: it
    yields, or enters a sub-generator, or returns to its caller. *)
Definition step (f : frame) (g : generator) : option (path * L) * generator :=
  match f with
  | AtLeaf pfx o => (Some (pfx, o), g)
  | InMapping pfx [] => (None, g)
  | InMapping pfx ((k, v) :: items) =>
      (None, enter (pfx ++ [k]) v :: InMapping pfx items :: g)
  | InSequence pfx i [] => (None, g)
  | InSequence pfx i (v :: elems) =>
      (None, enter (pfx ++ [KInt i]) v :: InSequence pfx (i + 1) elems :: g)
  end.

(** Iterating the generator to exhaustion, [list(g)], with a bound on the
    number of steps: [None] when the bound is reached first. *)
Fixpoint drain (fuel : nat) (g : generator) : option (list (path * L)) :=
  match g with
  | [] => Some []
  | f :: g =>
      match fuel with
      | O => None
      | S fuel =>
          match step f g with
          | (Some y, g) => option_map (cons y) (drain fuel g)
          | (None, g) => drain fuel g
          end
      end
  end.

(** The number of steps that [_flatten(pfx, o)] takes. *)
Fixpoint steps (o : obj L) : nat :=
  match o with
  | Mapping items =>
      (fix sum (items : list (key * obj L)) : nat :=
         match items with
         | [] => 1%nat
         | (_, v) :: items => S (steps v + sum items)
         end) items
  | Sequence elems =>
      (fix sum (elems : list (obj L)) : nat :=
         match elems with
         | [] => 1%nat
         | v :: elems => S (steps v + sum elems)
         end) elems
  | Leaf _ => 1%nat
  end.

(** What a suspended frame has yet to yield, and in how many steps. *)
Definition frame_yields (f : frame) : list (path * L) :=
  match f with
  | InMapping pfx items => _flatten pfx (Mapping items)
  | InSequence pfx i elems =>
      flat_map (fun iv => _flatten (pfx ++ [KInt (fst iv)]) (snd iv))
               (enumerate_from i elems)
  | AtLeaf pfx o => [(pfx, o)]
  end.

Definition frame_steps (f : frame) : nat :=
  match f with
  | InMapping pfx items => steps (Mapping items)
  | InSequence pfx i elems => steps (Sequence elems)
  | AtLeaf pfx o => 1%nat
  end.

End Flatten.

(** The example of the spec: [{"h1": {"m1:avg": 3}}]. *)
Definition one_host_one_metric : obj Z :=
  Mapping [(KStr "h1", Mapping [(KStr "m1:avg", Leaf 3)])].

(** A mixed nesting: [{"a": [10, {"b": 20}, []], 7: 30}]. *)
Definition mixed_nesting : obj Z :=
  Mapping [(KStr "a", Sequence [Leaf 10; Mapping [(KStr "b", Leaf 20)];
                                Sequence []]);
           (KInt 7, Leaf 30)].

(* ================================================================= *)
(** * Python built-ins used by the code *)

(** ** Dictionaries

    A [dict] keeps its items in insertion order; assigning to a key that
    is present replaces the value in place. *)
Section Dict.

Context {K V : Type} (eqb : K -> K -> bool).

(** [d.get(k)] *)
Fixpoint dict_get (d : list (K * V)) (k : K) : option V :=
  match d with
  | [] => None
  | (k', v) :: d => if eqb k' k then Some v else dict_get d k
  end.

(** [d[k]] *)
Definition getitem (d : list (K * V)) (k : K) : result V :=
  match dict_get d k with
  | Some v => Ok v
  | None => Raise KeyError
  end.

(** [d[k] = v] *)
Fixpoint dict_set (d : list (K * V)) (k : K) (v : V) : list (K * V) :=
  match d with
  | [] => [(k, v)]
  | (k', v') :: d =>
      if eqb k' k then (k', v) :: d else (k', v') :: dict_set d k v
  end.

(** [d.update(items)], and [{k: v for k, v in items}] from the empty
    dict. *)
Definition dict_update (d : list (K * V)) (items : list (K * V)) : list (K * V) :=
  fold_left (fun d kv => dict_set d (fst kv) (snd kv)) items d.

End Dict.

Definition key_eqb (a b : key) : bool :=
  match a, b with
  | KStr s, KStr t => String.eqb s t
  | KInt x, KInt y => Z.eqb x y
  | _, _ => false
  end.

(** [str(k)] *)
Definition str_key (k : key) : string :=
  match k with
  | KStr s => s
  | KInt z => str_int z
  end.

(** ** Strings *)

(** [sep.join(parts)] *)
Fixpoint join (sep : string) (parts : list string) : string :=
  match parts with
  | [] => EmptyString
  | [p] => p
  | p :: parts => p +++ sep +++ join sep parts
  end.

(** [s.split(sep)] for a one-character separator. *)
Fixpoint split (sep : ascii) (s : string) : list string :=
  match s with
  | EmptyString => [EmptyString]
  | String c s =>
      if Ascii.eqb c sep then EmptyString :: split sep s
      else match split sep s with
           | [] => [String c EmptyString]
           | p :: parts => String c p :: parts
           end
  end.

(** [s.rsplit(sep, 1)] for a one-character separator: [None] when [sep]
    does not occur, which is when the result has one element. *)
Fixpoint rsplit1 (sep : ascii) (s : string) : option (string * string) :=
  match s with
  | EmptyString => None
  | String c s =>
      match rsplit1 sep s with
      | Some (before, after) => Some (String c before, after)
      | None => if Ascii.eqb c sep then Some (EmptyString, s) else None
      end
  end.

(** [s.zfill(width)] on the decimal form of a natural number. *)
Definition zfill (width : nat) (s : string) : string :=
  string_of_list_ascii (repeat "0"%char (width - String.length s)) +++ s.

(* ================================================================= *)
(** * The standard library's [time] module

    [gmtime] is the proleptic Gregorian calendar in UTC; [strftime]
    knows the six directives that the code uses. *)

Record struct_time : Type := {
  tm_year : Z;
  tm_mon : Z;
  tm_mday : Z;
  tm_hour : Z;
  tm_min : Z;
  tm_sec : Z
}.

(** The civil date of a day number, day 0 being 1970-01-01. *)
Definition civil_from_days (days : Z) : Z * Z * Z :=
  let z := days + 719468 in
  let era := z / 146097 in
  let doe := z - era * 146097 in
  let yoe := (doe - doe / 1460 + doe / 36524 - doe / 146096) / 365 in
  let doy := doe - (365 * yoe + yoe / 4 - yoe / 100) in
  let mp := (5 * doy + 2) / 153 in
  let d := doy - (153 * mp + 2) / 5 + 1 in
  let m := if mp <? 10 then mp + 3 else mp - 9 in
  let y := yoe + era * 400 + (if m <=? 2 then 1 else 0) in
  (y, m, d).

(** [time.gmtime(secs)], [secs] in whole seconds since the epoch. *)
Definition gmtime (secs : Z) : struct_time :=
  let '(y, m, d) := civil_from_days (secs / 86400) in
  let rem := secs mod 86400 in
  {| tm_year := y; tm_mon := m; tm_mday := d;
     tm_hour := rem / 3600; tm_min := rem mod 3600 / 60; tm_sec := rem mod 60 |}.

Definition directive (c : ascii) (t : struct_time) : string :=
  match c with
  | "Y"%char => str_int (tm_year t)
  | "m"%char => zfill 2 (str_int (tm_mon t))
  | "d"%char => zfill 2 (str_int (tm_mday t))
  | "H"%char => zfill 2 (str_int (tm_hour t))
  | "M"%char => zfill 2 (str_int (tm_min t))
  | "S"%char => zfill 2 (str_int (tm_sec t))
  | _ => String "%" (String c EmptyString)
  end.

(** [time.strftime(format, t)] *)
Fixpoint strftime (format : string) (t : struct_time) : string :=
  match format with
  | String "%" (String c format) => directive c t +++ strftime format t
  | String c format => String c (strftime format t)
  | EmptyString => EmptyString
  end.

(* ================================================================= *)
(** * metrics.py *)

(** [int(x)]: truncation towards zero. *)
Definition int_of_Q (x : Q) : Z := Z.quot (Qnum x) (Zpos (Qden x)).

(** UNIX timestamps ([float] or [int]) are rationals here, and the
    arithmetic of [unix2es] is exact, as it is in the code for an [int]
    and for a [float] with a whole number of seconds; on other [float]s
    the code rounds in binary64, which can change the last digit of the
    milliseconds.  [time.gmtime] is taken within the range of the
    platform, outside of which it raises. *)
Definition unix2es (ts : Q) : string :=
  let ymdhms := strftime "%Y-%m-%dT%H:%M:%S" (gmtime (Qfloor ts)) in
  let ms := int_of_Q (Qmult (Qminus ts (inject_Z (Qfloor ts))) (inject_Z 1000)) in
  ymdhms +++ "." +++ zfill 3 (str_int ms) +++ "Z".

Definition DEFAULT_AXES : list string := ["host.name"].

Definition DEFAULT_AGG : string := "avg".

Definition DEFAULT_WINDOW : Q := inject_Z 300.

(** The closure [full] of [build_bucket_search], and of [main]. *)
Definition full (module metricset name : string) : string :=
  if prefix "." name then module +++ "." +++ metricset +++ name else name.

(** ** The query: what [elasticsearch_dsl.Search] holds *)

Inductive Query : Type :=
| Term (field value : string)
| Range (field gte lt : string).

(** An aggregation [A(agg_type, field=field)] with its named
    sub-aggregations. *)
#[warnings="-register-all"]
Inductive Agg : Type :=
| MkAgg (agg_type field : string) (aggs : list (string * Agg)).

Record Search : Type := {
  search_index : string;
  search_filter : list Query;
  search_aggs : list (string * Agg);
  search_with_docs : bool
}.

(** [a = s.aggs; for axis in axes: a = a.bucket(axis, 'terms', ...)]
    builds a chain of buckets; the second loop then adds every metric to
    the last bucket of the chain, [innermost]. *)
Fixpoint bucket_chain (module metricset : string) (axes : list string)
         (innermost : list (string * Agg)) : list (string * Agg) :=
  match axes with
  | [] => innermost
  | axis :: axes =>
      [(axis, MkAgg "terms" (full module metricset axis)
                    (bucket_chain module metricset axes innermost))]
  end.

(** The body of the loop over [metrics]. *)
Definition metric_bucket (module metricset : string)
           (a : list (string * Agg)) (metric_agg : string) : list (string * Agg) :=
  let '(metric, agg) :=
    match rsplit1 ":" metric_agg with
    | Some (metric, agg) => (metric, agg)
    | None => (metric_agg, DEFAULT_AGG)
    end in
  dict_set String.eqb a metric_agg (MkAgg agg (full module metricset metric) []).

(** [now] is the reading of [time.time()].  The aggregation names of the
    metric specs are taken to be names that the query library knows,
    and the times to be within the range of [time.gmtime]; the library
    and [time.gmtime] raise otherwise. *)
Definition build_bucket_search (now : Q) (metrics : list string)
           (metricset module : option string) (axes : list string)
           (with_docs : bool) (window end_time : option Q) : result Search :=
  metrics_0 <- match metrics with
               | [] => Raise IndexError
               | m :: _ => Ok m
               end ;;
  let metric_path := split "." (hd EmptyString (split ":" metrics_0)) in
  module <- match module with
            | Some module => Ok module
            | None => match metric_path with
                      | p0 :: _ => Ok p0
                      | [] => Raise IndexError
                      end
            end ;;
  metricset <- match metricset with
               | Some metricset => Ok metricset
               | None => match metric_path with
                         | _ :: p1 :: _ => Ok p1
                         | _ => Raise IndexError
                         end
               end ;;
  let window := match window with Some w => w | None => DEFAULT_WINDOW end in
  let end_time := match end_time with Some t => t | None => now end in
  let start_time := Qminus end_time window in
  Ok {| search_index := "metricbeat-*";
        search_filter :=
          [Term "metricset.module" module;
           Term "metricset.name" metricset;
           Range "@timestamp" (unix2es start_time) (unix2es end_time)];
        search_aggs :=
          bucket_chain module metricset axes
            (fold_left (metric_bucket module metricset) metrics []);
        search_with_docs := with_docs |}.

(** The aggregations found by following the bucket names [names] down. *)
Fixpoint sub_aggs (names : list string) (aggs : list (string * Agg))
  : option (list (string * Agg)) :=
  match names with
  | [] => Some aggs
  | name :: names =>
      match dict_get String.eqb aggs name with
      | Some (MkAgg _ _ aggs) => sub_aggs names aggs
      | None => None
      end
  end.

(** ** The response: what [Search.execute()] returns

    [result.aggs] maps the name of an aggregation to its result: the list
    of buckets of a [terms] aggregation, each with its [key] and the
    results of the sub-aggregations, or the [value] of a metric
    aggregation. *)

Section Tabulate.

Context {N : Type}.

#[warnings="-register-all"]
Inductive AggResult : Type :=
| Buckets (buckets : list (key * list (string * AggResult)))
| Value (value : N).

Definition Aggs : Type := list (string * AggResult).

Definition Bucket : Type := (key * Aggs)%type.

(** The inner function [_brb] of [build_result_buckets].  The two kinds
    of [AggResult] are the results of the two kinds of aggregation: a
    bucket aggregation's result is iterated for its buckets and has no
    [value]; a metric aggregation's result has a [value] and is not
    iterable. *)
Fixpoint _brb (metrics : list string) (aggs : Aggs)
         (remaining_axes : list string) : result (obj N) :=
  match remaining_axes with
  | [] =>
      items <- for_each
                 (fun metric =>
                    r <- getitem String.eqb aggs metric ;;
                    match r with
                    | Value value => Ok (KStr metric, Leaf value)
                    | Buckets _ => Raise AttributeError
                    end)
                 metrics ;;
      Ok (Mapping (dict_update key_eqb [] items))
  | axis :: remaining_axes =>
      r <- getitem String.eqb aggs axis ;;
      match r with
      | Buckets buckets =>
          items <- for_each
                     (fun bucket : Bucket =>
                        t <- _brb metrics (snd bucket) remaining_axes ;;
                        Ok (fst bucket, t))
                     buckets ;;
          Ok (Mapping (dict_update key_eqb [] items))
      | Value _ => Raise TypeError
      end
  end.

Definition build_result_buckets (result_aggs : Aggs) (metrics axes : list string)
  : result (obj N) :=
  _brb metrics result_aggs axes.

(** *** What it is for a response to answer a query

    The contract of the metrics store: every aggregation of the query has
    a result under its name; a [terms] aggregation has buckets with
    distinct keys, each answering the sub-aggregations; any other
    aggregation has a value. *)
Fixpoint answers (a : Agg) (r : AggResult) {struct a} : Prop :=
  match a with
  | MkAgg agg_type _ aggs =>
      if String.eqb agg_type "terms" then
        exists buckets,
          r = Buckets buckets /\
          NoDup (map fst buckets) /\
          Forall (fun bucket : Bucket =>
                    (fix all (aggs : list (string * Agg)) : Prop :=
                       match aggs with
                       | [] => True
                       | (name, a) :: aggs =>
                           (exists r, dict_get String.eqb (snd bucket) name = Some r
                                      /\ answers a r)
                           /\ all aggs
                       end) aggs)
                 buckets
      else exists value, r = Value value
  end.

Definition answers_all (aggs : list (string * Agg)) (results : Aggs) : Prop :=
  Forall (fun na => exists r, dict_get String.eqb results (fst na) = Some r
                              /\ answers (snd na) r) aggs.

(** The scalar that the response holds for [metric] in the bucket reached
    by the keys [ks], one per axis. *)
Fixpoint raw_value (aggs : Aggs) (axes : list string) (ks : list key)
         (metric : string) : option N :=
  match axes, ks with
  | [], [] =>
      match dict_get String.eqb aggs metric with
      | Some (Value value) => Some value
      | _ => None
      end
  | axis :: axes, k :: ks =>
      match dict_get String.eqb aggs axis with
      | Some (Buckets buckets) =>
          match dict_get key_eqb buckets k with
          | Some bucket => raw_value bucket axes ks metric
          | None => None
          end
      | _ => None
      end
  | _, _ => None
  end.

End Tabulate.

Arguments AggResult N : clear implicits.
Arguments Aggs N : clear implicits.
Arguments Bucket N : clear implicits.

(** A response to the memory query over the axis [cloud.instance.id]. *)
Definition memory_response : Aggs Z :=
  [("cloud.instance.id",
    Buckets [(KStr "i-001", [(".used.pct:avg", Value 96)]);
             (KStr "i-002", [(".used.pct:avg", Value 50)])])].

(* ================================================================= *)
(** * The standard library's [hashlib], [base64] and [json]

    Bytes are integers in the range 0..255. *)

Definition bytes : Type := list Z.

Module SHA256.

(** FIPS 180-4, on 32-bit words held in [Z]. *)

Definition mask32 : Z := 0xffffffff.

Definition add32 (x y : Z) : Z := Z.land (x + y) mask32.

Definition rotr (n x : Z) : Z :=
  Z.lor (Z.shiftr x n) (Z.land (Z.shiftl x (32 - n)) mask32).

Definition Ch (x y z : Z) : Z :=
  Z.lxor (Z.land x y) (Z.land (Z.lxor x mask32) z).

Definition Maj (x y z : Z) : Z :=
  Z.lxor (Z.lxor (Z.land x y) (Z.land x z)) (Z.land y z).

Definition Sigma0 (x : Z) : Z := Z.lxor (Z.lxor (rotr 2 x) (rotr 13 x)) (rotr 22 x).

Definition Sigma1 (x : Z) : Z := Z.lxor (Z.lxor (rotr 6 x) (rotr 11 x)) (rotr 25 x).

Definition sigma0 (x : Z) : Z := Z.lxor (Z.lxor (rotr 7 x) (rotr 18 x)) (Z.shiftr x 3).

Definition sigma1 (x : Z) : Z := Z.lxor (Z.lxor (rotr 17 x) (rotr 19 x)) (Z.shiftr x 10).

(** The first 64 primes. *)
Definition primes : list Z :=
  [2; 3; 5; 7; 11; 13; 17; 19; 23; 29; 31; 37; 41; 43; 47; 53; 59; 61; 67; 71;
   73; 79; 83; 89; 97; 101; 103; 107; 109; 113; 127; 131; 137; 139; 149; 151;
   157; 163; 167; 173; 179; 181; 191; 193; 197; 199; 211; 223; 227; 229; 233;
   239; 241; 251; 257; 263; 269; 271; 277; 281; 283; 293; 307; 311].

(** The integer cube root of [n], found bit by bit from bit [bits - 1]
    down. *)
Fixpoint cube_root (bits : nat) (n r : Z) : Z :=
  match bits with
  | O => r
  | S bits =>
      let r' := Z.lor r (Z.shiftl 1 (Z.of_nat bits)) in
      cube_root bits n (if r' * r' * r' <=? n then r' else r)
  end.

(** The round constants: the first 32 bits of the fractional parts of the
    cube roots of the primes. *)
Definition K : list Z :=
  Eval vm_compute in
    map (fun p => Z.land (cube_root 40 (Z.shiftl p 96) 0) mask32) primes.

Record state : Type := {
  h0 : Z; h1 : Z; h2 : Z; h3 : Z; h4 : Z; h5 : Z; h6 : Z; h7 : Z
}.

(** The initial hash value: the first 32 bits of the fractional parts of
    the square roots of the first 8 primes. *)
Definition fractional_sqrt (p : Z) : Z := Z.land (Z.sqrt (Z.shiftl p 64)) mask32.

Definition initial : state :=
  Eval vm_compute in
    {| h0 := fractional_sqrt 2; h1 := fractional_sqrt 3;
       h2 := fractional_sqrt 5; h3 := fractional_sqrt 7;
       h4 := fractional_sqrt 11; h5 := fractional_sqrt 13;
       h6 := fractional_sqrt 17; h7 := fractional_sqrt 19 |}.

(** The message with its padding: a 1 bit, zeros, and the length in bits
    as a 64-bit big-endian number. *)
Definition big_endian (width : nat) (x : Z) : bytes :=
  map (fun i => Z.land (Z.shiftr x (8 * Z.of_nat i)) 0xff) (rev (seq 0 width)).

Definition pad (message : bytes) : bytes :=
  let len := Z.of_nat (List.length message) in
  message ++ [0x80] ++ repeat 0 (Z.to_nat ((55 - len) mod 64))
          ++ big_endian 8 (8 * len).

(** Big-endian 32-bit words of a byte string. *)
Fixpoint words (bs : bytes) : list Z :=
  match bs with
  | a :: b :: c :: d :: bs =>
      Z.lor (Z.shiftl a 24) (Z.lor (Z.shiftl b 16) (Z.lor (Z.shiftl c 8) d))
      :: words bs
  | _ => []
  end.

(** The message schedule: [w] holds the last 16 words, oldest first. *)
Fixpoint schedule (n : nat) (w : list Z) : list Z :=
  match n with
  | O => []
  | S n =>
      let next := add32 (add32 (sigma1 (nth 14 w 0)) (nth 9 w 0))
                        (add32 (sigma0 (nth 1 w 0)) (nth 0 w 0)) in
      next :: schedule n (tl w ++ [next])
  end.

Definition round (s : state) (kw : Z * Z) : state :=
  let t1 := add32 (add32 (add32 (h7 s) (Sigma1 (h4 s)))
                         (add32 (Ch (h4 s) (h5 s) (h6 s)) (fst kw))) (snd kw) in
  let t2 := add32 (Sigma0 (h0 s)) (Maj (h0 s) (h1 s) (h2 s)) in
  {| h0 := add32 t1 t2; h1 := h0 s; h2 := h1 s; h3 := h2 s;
     h4 := add32 (h3 s) t1; h5 := h4 s; h6 := h5 s; h7 := h6 s |}.

Definition compress (s : state) (block : list Z) : state :=
  let w := block ++ schedule 48 block in
  let r := fold_left round (combine K w) s in
  {| h0 := add32 (h0 s) (h0 r); h1 := add32 (h1 s) (h1 r);
     h2 := add32 (h2 s) (h2 r); h3 := add32 (h3 s) (h3 r);
     h4 := add32 (h4 s) (h4 r); h5 := add32 (h5 s) (h5 r);
     h6 := add32 (h6 s) (h6 r); h7 := add32 (h7 s) (h7 r) |}.

Fixpoint blocks (n : nat) (s : state) (ws : list Z) : state :=
  match n with
  | O => s
  | S n => blocks n (compress s (firstn 16 ws)) (skipn 16 ws)
  end.

(** [hashlib.sha256(message).digest()] *)
Definition digest (message : bytes) : bytes :=
  let ws := words (pad message) in
  let s := blocks (List.length ws / 16) initial ws in
  big_endian 4 (h0 s) ++ big_endian 4 (h1 s) ++ big_endian 4 (h2 s)
  ++ big_endian 4 (h3 s) ++ big_endian 4 (h4 s) ++ big_endian 4 (h5 s)
  ++ big_endian 4 (h6 s) ++ big_endian 4 (h7 s).

End SHA256.

Definition sha256 (message : bytes) : bytes := SHA256.digest message.

(** [s.encode()]: UTF-8, of code points below 256. *)
Fixpoint encode (s : string) : bytes :=
  match s with
  | EmptyString => []
  | String c s =>
      let n := ord c in
      (if n <? 128 then [n]
       else [Z.lor 0xc0 (Z.shiftr n 6); Z.lor 0x80 (Z.land n 0x3f)])
      ++ encode s
  end.

(** [b.decode()], of ASCII bytes. *)
Definition decode (b : bytes) : string := string_of_list_ascii (map chr b).

Definition b64_alphabet : string :=
  "ABCDEFGHIJKLMNOPQRSTUVWXYZabcdefghijklmnopqrstuvwxyz0123456789+/".

Definition b64_digit (i : Z) : Z :=
  match String.get (Z.to_nat (Z.land i 0x3f)) b64_alphabet with
  | Some c => ord c
  | None => ord "="
  end.

(** [base64.b64encode(b)] *)
Fixpoint b64encode (b : bytes) : bytes :=
  match b with
  | [] => []
  | [x] =>
      [b64_digit (Z.shiftr x 2); b64_digit (Z.shiftl x 4); ord "="; ord "="]
  | [x; y] =>
      [b64_digit (Z.shiftr x 2);
       b64_digit (Z.lor (Z.shiftl x 4) (Z.shiftr y 4));
       b64_digit (Z.shiftl y 2); ord "="]
  | x :: y :: z :: b =>
      b64_digit (Z.shiftr x 2)
      :: b64_digit (Z.lor (Z.shiftl x 4) (Z.shiftr y 4))
      :: b64_digit (Z.lor (Z.shiftl y 2) (Z.shiftr z 6))
      :: b64_digit z
      :: b64encode b
  end.

(** ** [json.dumps] *)

Definition quote : ascii := chr 34.

Definition hex_digit (n : Z) : ascii :=
  match String.get (Z.to_nat n) "0123456789abcdef" with
  | Some c => c
  | None => "?"%char
  end.

(** One character of a JSON string with [ensure_ascii=True]. *)
Definition json_escape (c : ascii) : string :=
  let n := ord c in
  if n =? 34 then String "\" (String quote EmptyString)
  else if n =? 92 then "\\"
  else if n =? 10 then "\n"
  else if n =? 13 then "\r"
  else if n =? 9 then "\t"
  else if n =? 8 then "\b"
  else if n =? 12 then "\f"
  else if (n <? 32) || (126 <? n) then
    "\u00" +++ String (hex_digit (n / 16)) (String (hex_digit (n mod 16)) EmptyString)
  else String c EmptyString.

Definition json_string (s : string) : string :=
  String quote (concat EmptyString (map json_escape (list_ascii_of_string s)))
  +++ String quote EmptyString.

(** The values that end up in the pairs of [all_items]: an axis value or
    the [None] that goes with the metric name. *)
Definition json_value (v : option key) : string :=
  match v with
  | None => "null"
  | Some (KStr s) => json_string s
  | Some (KInt z) => str_int z
  end.

(** [json.dumps] of a list of (name, value) tuples. *)
Definition json_dumps (items : list (string * option key)) : string :=
  "[" +++ join ", " (map (fun nv => "[" +++ json_string (fst nv) +++ ", "
                                        +++ json_value (snd nv) +++ "]") items)
      +++ "]".

(* ================================================================= *)
(** * [sorted] on (name, value) tuples

    Python compares tuples by their first differing components, strings
    by code points, and raises [TypeError] on [None < 'a'], [1 < 'a'] and
    the like. *)

Definition value_eqb (v w : option key) : bool :=
  match v, w with
  | None, None => true
  | Some a, Some b => key_eqb a b
  | _, _ => false
  end.

Definition value_lt (v w : option key) : result bool :=
  match v, w with
  | Some (KStr s), Some (KStr t) => Ok (String.ltb s t)
  | Some (KInt x), Some (KInt y) => Ok (x <? y)
  | _, _ => Raise TypeError
  end.

(** [a < b] on tuples. *)
Definition item_lt (a b : string * option key) : result bool :=
  if negb (String.eqb (fst a) (fst b)) then Ok (String.ltb (fst a) (fst b))
  else if negb (value_eqb (snd a) (snd b)) then value_lt (snd a) (snd b)
  else Ok false.

(** CPython's list sort is stable and calls only [<].  It is modelled by
    a stable insertion sort: on items that are pairwise comparable every
    such sort returns the same list. *)
Fixpoint insert (x : string * option key) (sorted : list (string * option key))
  : result (list (string * option key)) :=
  match sorted with
  | [] => Ok [x]
  | y :: sorted' =>
      lt <- item_lt x y ;;
      if lt then Ok (x :: sorted)
      else (rest <- insert x sorted' ;; Ok (y :: rest))
  end.

Definition sorted (items : list (string * option key))
  : result (list (string * option key)) :=
  fold_left (fun acc x => acc <- acc ;; insert x acc) items (Ok []).

(* ================================================================= *)
(** * cli.py: main *)

Definition HOST_AXES : list string := ["cloud.region"; "cloud.instance.id"].

(** A Python iterator ([zip], [map]): the items it has yet to yield.
    Iterating it to the end hands out those items and leaves it empty;
    the name bound to it still refers to the same, now exhausted,
    iterator. *)
Definition iterator (A : Type) : Type := list A.

Definition iterate {A : Type} (it : iterator A) : list A * iterator A := (it, []).

(** Lines 208-213, from the items drawn from the chain to the key. *)
Definition dedup_key_of (chained : list (string * option key)) : result string :=
  all_items <- sorted chained ;;
  Ok (decode (b64encode (sha256 (encode (json_dumps all_items))))).

Section Main.

Context {N : Type} `{Number N}.

(** One entry of [CONFIGS]. *)
Record config : Type := {
  config_module : string;
  config_metricset : string;
  config_axes : option (list string);
  config_metrics : list (string * thresh_config N);
  config_window : Q;
  config_period : Q
}.

(** A value of [custom_details]: an axis value or a metric value. *)
Inductive detail : Type :=
| AxisValue (value : key)
| MetricValue (value : N).

Record payload : Type := {
  payload_summary : string;
  payload_source : string;
  payload_severity : level;
  payload_timestamp : string;
  payload_component : string;
  payload_class : string;
  payload_custom_details : list (string * detail)
}.

(** The [body] that is posted to the alerting backend. *)
Record body : Type := {
  body_dedup_key : string;
  body_event_action : string;
  body_payload : option payload
}.

(** The body of the loop [for k, v in flatten(t)] up to the [pprint]:
    the event for one leaf.  [clock] is the reading of the system clock,
    in whole seconds, that [time.gmtime()] converts. *)
Definition leaf_event (clock : Z) (c : config) (k : path) (v : N) : result body :=
  let module := config_module c in
  let metricset := config_metricset c in
  let full := full module metricset in
  let axes := match config_axes c with Some axes => axes | None => [] end in
  let metric_configs := config_metrics c in
  _ <- assert (List.length HOST_AXES + 1 <=? List.length k)%nat ;;
  let host_axes := firstn (List.length HOST_AXES) k in
  let metricset_axes := removelast (skipn (List.length HOST_AXES) k) in
  metric_spec <- match last k (KInt 0) with
                 | KStr s => Ok s
                 | KInt _ => Raise AttributeError
                 end ;;
  let full_metric_spec := full metric_spec in
  _ <- assert (List.length axes =? List.length metricset_axes)%nat ;;
  metric_config <- getitem String.eqb metric_configs metric_spec ;;
  '(severity, diag) <- _check_val_against_thresh v metric_config ;;
  let host_axes_items : iterator (string * key) :=
    combine (map full HOST_AXES) host_axes in
  let metricset_axes_items : iterator (string * key) :=
    combine (map full axes) metricset_axes in
  (* sorted(chain(...)) iterates both to the end *)
  let '(drawn_host, host_axes_items) := iterate host_axes_items in
  let '(drawn_metricset, metricset_axes_items) := iterate metricset_axes_items in
  key <- dedup_key_of (map (fun nv => (fst nv, Some (snd nv))) drawn_host
                       ++ map (fun nv => (fst nv, Some (snd nv))) drawn_metricset
                       ++ [(full_metric_spec, None)]) ;;
  match severity with
  | Some severity =>
      let diag := match diag with Some diag => diag | None => "None" end in
      let now := strftime "%Y-%m-%dT%H:%M:%SZ" (gmtime clock) in
      let custom_details : list (string * detail) := [] in
      let '(drawn, host_axes_items) := iterate host_axes_items in
      let custom_details :=
        dict_update String.eqb custom_details
                    (map (fun nv => (fst nv, AxisValue (snd nv))) drawn) in
      let '(drawn, metricset_axes_items) := iterate metricset_axes_items in
      let custom_details :=
        dict_update String.eqb custom_details
                    (map (fun nv => (fst nv, AxisValue (snd nv))) drawn) in
      let custom_details :=
        dict_set String.eqb custom_details full_metric_spec (MetricValue v) in
      let source := join "/" (map str_key host_axes) in
      let component := join "/" (map str_key metricset_axes) in
      let message := match cfg_message metric_config with
                     | Some message => message
                     | None => "Metric out of range"
                     end in
      Ok {| body_dedup_key := key;
            body_event_action := "trigger";
            body_payload :=
              Some {| payload_summary :=
                        message +++ ": " +++ full_metric_spec +++ " " +++ diag;
                      payload_source := source;
                      payload_severity := severity;
                      payload_timestamp := now;
                      payload_component := component;
                      payload_class := message;
                      payload_custom_details := custom_details |} |}
  | None =>
      Ok {| body_dedup_key := key;
            body_event_action := "resolve";
            body_payload := None |}
  end.

(** The loop over the leaves: the events posted, in order, and the
    exception that ended the loop, if any.  [clock i] is the reading of
    the clock at the [i]-th leaf. *)
Fixpoint post_events (clock : nat -> Z) (c : config) (i : nat)
         (leaves : list (path * N)) : list body * option exn :=
  match leaves with
  | [] => ([], None)
  | (k, v) :: leaves =>
      match leaf_event (clock i) c k v with
      | Ok b =>
          let '(posted, e) := post_events clock c (S i) leaves in
          (b :: posted, e)
      | Raise e => ([], Some e)
      end
  end.

(** One turn of the loop [for config in CONFIGS].  [execute] stands for
    [q.using(es).execute()], the metrics store; [time] is the reading of
    [time.time()] when the query is built. *)
Definition run_config (time : Q) (clock : nat -> Z)
           (execute : Search -> Aggs N) (c : config) : list body * option exn :=
  let module := config_module c in
  let metricset := config_metricset c in
  let axes := match config_axes c with Some axes => axes | None => [] end in
  let full_axes := HOST_AXES ++ axes in
  let metrics := map fst (config_metrics c) in
  match build_bucket_search time metrics (Some metricset) (Some module)
                            full_axes false (Some (config_window c)) None with
  | Raise e => ([], Some e)
  | Ok q =>
      let r := execute q in
      match build_result_buckets r metrics full_axes with
      | Raise e => ([], Some e)
      | Ok t => post_events clock c O (flatten t)
      end
  end.

End Main.

Arguments config N : clear implicits.
Arguments detail N : clear implicits.
Arguments payload N : clear implicits.
Arguments body N : clear implicits.

(** The system/memory group of [CONFIGS]. *)
Definition memory_config : config Z :=
  {| config_module := "system"; config_metricset := "memory";
     config_axes := None;
     config_metrics := [(".used.pct:avg", memory_used_pct)];
     config_window := inject_Z 60; config_period := inject_Z 30 |}.

(** A leaf of the tabulated result for that group: region, instance,
    metric spec. *)
Definition memory_leaf : path :=
  [KStr "us-east-1"; KStr "i-001"; KStr ".used.pct:avg"].

(** The trigger event for that leaf with the value 96, made at
    2019-03-02 02:00:03 UTC. *)
Definition memory_trigger_payload : payload Z :=
  {| payload_summary := "High memory use: system.memory.used.pct:avg 96 >= 95";
     payload_source := "us-east-1/i-001";
     payload_severity := Error;
     payload_timestamp := "2019-03-02T02:00:03Z";
     payload_component := EmptyString;
     payload_class := "High memory use";
     payload_custom_details := [("system.memory.used.pct:avg", MetricValue 96)] |}.

Definition memory_trigger_event : body Z :=
  {| body_dedup_key := "Tu7cUvCkvtHm3xxN2rO7pum39B2Kd0hNPc0C+Fo9xJ8=";
     body_event_action := "trigger";
     body_payload := Some memory_trigger_payload |}.

(** What the metrics store answers for that group: one region, two
    instances. *)
Definition memory_store_response : Aggs Z :=
  [("cloud.region",
    Buckets [(KStr "us-east-1",
              [("cloud.instance.id",
                Buckets [(KStr "i-001", [(".used.pct:avg", Value 96)]);
                         (KStr "i-002", [(".used.pct:avg", Value 50)])])])])].

(** The resolve event for the instance i-002, whose value 50 is below
    every threshold. *)
Definition memory_resolve_event : body Z :=
  {| body_dedup_key := "wEtn2sUGT05pzUumlFIPLQa8MUuz/mGnFi335z6m+Io=";
     body_event_action := "resolve";
     body_payload := None |}.

(* ================================================================= *)
(** * Vocabulary of the properties *)

(** [x <= y] on numbers. *)
Definition num_le {N : Type} `{Number N} (x y : N) : bool := negb (num_lt y x).

(** Shapes of text: a pattern is a list of character classes. *)
Inductive char_class : Type :=
| Digit
| Lit (c : ascii).

Definition is_digit (c : ascii) : bool := (48 <=? ord c) && (ord c <=? 57).

Definition is_alnum (c : ascii) : bool :=
  is_digit c || ((65 <=? ord c) && (ord c <=? 90))
  || ((97 <=? ord c) && (ord c <=? 122)).

Fixpoint matches (pattern : list char_class) (s : string) : bool :=
  match pattern, s with
  | [], EmptyString => true
  | Digit :: pattern, String c s => is_digit c && matches pattern s
  | Lit l :: pattern, String c s => Ascii.eqb l c && matches pattern s
  | _, _ => false
  end.

(** YYYY-MM-DDThh:mm:ss *)
Definition DATE_TIME : list char_class :=
  [Digit; Digit; Digit; Digit; Lit "-"; Digit; Digit; Lit "-"; Digit; Digit;
   Lit "T"; Digit; Digit; Lit ":"; Digit; Digit; Lit ":"; Digit; Digit].

(** YYYY-MM-DDThh:mm:ssZ *)
Definition ISO_SECONDS : list char_class := DATE_TIME ++ [Lit "Z"].

(** YYYY-MM-DDThh:mm:ss.mmmZ *)
Definition ISO_MILLIS : list char_class :=
  DATE_TIME ++ [Lit "."; Digit; Digit; Digit; Lit "Z"].

(** The alphabet of [base64.urlsafe_b64encode], padding included. *)
Definition url_safe (c : ascii) : bool :=
  is_alnum c || Ascii.eqb c "-" || Ascii.eqb c "_" || Ascii.eqb c "=".

(** The alphabet of [base64.b64encode], padding included. *)
Definition base64_char (c : ascii) : bool :=
  is_alnum c || Ascii.eqb c "+" || Ascii.eqb c "/" || Ascii.eqb c "=".

Section Details.

Context {N : Type} `{Number N}.

(** The pairs that [main] chains for a leaf [k]: host axes, metricset
    axes, each under its fully qualified name. *)
Definition axis_pairs (c : config N) (k : path) : list (string * key) :=
  let full := full (config_module c) (config_metricset c) in
  let axes := match config_axes c with Some axes => axes | None => [] end in
  combine (map full HOST_AXES) (firstn (List.length HOST_AXES) k)
  ++ combine (map full axes) (removelast (skipn (List.length HOST_AXES) k)).

(** The [custom_details] that the specification describes: the merged
    mapping of all axis name/value pairs plus the metric name mapped to
    the value. *)
Definition merged_custom_details (c : config N) (k : path) (metric_spec : string)
           (v : N) : list (string * detail N) :=
  dict_set String.eqb
           (dict_update String.eqb []
                        (map (fun nv => (fst nv, AxisValue (snd nv)))
                             (axis_pairs c k)))
           (full (config_module c) (config_metricset c) metric_spec)
           (MetricValue v).

End Details.


(** ** The order that [sorted] puts (name, value) tuples in

    Where Python's [<] is defined on two tuples it agrees with the
    following total order: names first, then values, a value being
    [None], a [str] or an [int]. *)

Definition kind (v : option key) : Z :=
  match v with
  | None => 0
  | Some (KStr _) => 1
  | Some (KInt _) => 2
  end.

Definition value_cmp (v w : option key) : comparison :=
  match v, w with
  | Some (KStr s), Some (KStr t) => String.compare s t
  | Some (KInt x), Some (KInt y) => Z.compare x y
  | _, _ => Z.compare (kind v) (kind w)
  end.

Definition item_cmp (a b : string * option key) : comparison :=
  match String.compare (fst a) (fst b) with
  | Eq => value_cmp (snd a) (snd b)
  | c => c
  end.

Definition item_before (a b : string * option key) : bool :=
  match item_cmp a b with
  | Lt => true
  | _ => false
  end.

Definition item_le (a b : string * option key) : Prop := item_cmp a b <> Gt.

(** Two tuples that [<] accepts: different names, or values of one
    kind. *)
Definition comparable (a b : string * option key) : Prop :=
  fst a <> fst b \/ kind (snd a) = kind (snd b).

Definition pairwise_comparable (items : list (string * option key)) : Prop :=
  forall a b, In a items -> In b items -> comparable a b.

(** [insert] and [sorted] where no comparison raises. *)
Fixpoint insert_total (x : string * option key)
         (sorted : list (string * option key)) : list (string * option key) :=
  match sorted with
  | [] => [x]
  | y :: sorted' =>
      if item_before x y then x :: sorted else y :: insert_total x sorted'
  end.

Definition sort_total (items : list (string * option key))
  : list (string * option key) :=
  fold_left (fun acc x => insert_total x acc) items [].

(* ================================================================= *)
(** * util.py: Ticker

    Times are rationals here; the code computes them in binary64, and
    the properties of the ticker rest on no law of arithmetic: they
    relate a tick to the expression that the code computes it with.
    The event loop is what a call of [__anext__] sees of it: the reading
    of the clock when the call starts and, for every time the call wakes
    up from [asyncio.sleep], whether [cancel()] ran while it slept and
    the reading of the clock after it.  No other call of [__anext__] of
    the same ticker runs meanwhile. *)

Record Ticker : Type := {
  start_time : Q;
  period : Q;
  ticks : Z;
  canceled : bool
}.

(** [Ticker(start_time=..., period=...)]; [loop_time] is the reading of
    [asyncio.get_running_loop().time()]. *)
Definition Ticker_init (loop_time : Q) (start_time : option Q) (period : Q)
  : Ticker :=
  {| start_time := match start_time with
                   | Some start_time => start_time
                   | None => loop_time
                   end;
     period := period;
     ticks := 0;
     canceled := false |}.

(** The property [last_tick]. *)
Definition last_tick (self : Ticker) : option Q :=
  if ticks self =? 0 then None
  else Some (start_time self + inject_Z (ticks self - 1) * period self)%Q.

(** The property [next_tick]. *)
Definition next_tick (self : Ticker) : option Q :=
  if canceled self then None
  else Some (start_time self + inject_Z (ticks self) * period self)%Q.

Definition cancel (self : Ticker) : Ticker :=
  {| start_time := start_time self; period := period self;
     ticks := ticks self; canceled := true |}.

(** [x < y] on times. *)
Definition time_lt (x y : Q) : bool := negb (Qle_bool y x).

(** How a call of [__anext__] ends: with a tick and the ticker as the
    call leaves it, with an exception, or not within the wake-ups
    given. *)
Inductive anext_outcome : Type :=
| Served (tick : option Q) (self : Ticker)
| StopAsyncIteration
| RaisedTypeError
| StillWaiting.

(** The [while] loop of [__anext__]; [now < self.next_tick] raises
    [TypeError] when [next_tick] is [None]. *)
Fixpoint wait_for_tick (self : Ticker) (now : Q) (wakeups : list (bool * Q))
  : anext_outcome :=
  match next_tick self with
  | None => RaisedTypeError
  | Some due =>
      if time_lt now due then
        match wakeups with
        | [] => StillWaiting
        | (canceled_meanwhile, now) :: wakeups =>
            wait_for_tick (if canceled_meanwhile then cancel self else self)
                          now wakeups
        end
      else
        let self := {| start_time := start_time self; period := period self;
                       ticks := ticks self + 1; canceled := canceled self |} in
        Served (last_tick self) self
  end.

Definition __anext__ (self : Ticker) (now : Q) (wakeups : list (bool * Q))
  : anext_outcome :=
  if canceled self then StopAsyncIteration
  else wait_for_tick self now wakeups.

(** A ticker of period 10 started at time 100. *)
Definition ten_second_ticker : Ticker :=
  Ticker_init (inject_Z 7) (Some (inject_Z 100)) (inject_Z 10).

(* ================================================================= *)
(** * More vocabulary of the properties *)

(** The test that ends the walk of the ladder at a threshold. *)
Definition stops {N : Type} `{Number N} (si : bool) (v t : N) : bool :=
  (si && num_lt v t) || (negb si && num_gt v t).

Section Paths.

Context {L : Type}.

(** Every mapping of the object has distinct keys, as a [dict] has. *)
Fixpoint well_keyed (o : obj L) : Prop :=
  match o with
  | Mapping items =>
      NoDup (map fst items) /\
      (fix all (items : list (key * obj L)) : Prop :=
         match items with
         | [] => True
         | (_, v) :: items => well_keyed v /\ all items
         end) items
  | Sequence elems =>
      (fix all (elems : list (obj L)) : Prop :=
         match elems with
         | [] => True
         | v :: elems => well_keyed v /\ all elems
         end) elems
  | Leaf _ => True
  end.

End Paths.

(** [sub] is the content of a bucket of the response reached from [aggs]
    by one bucket per axis, with the keys [ks]. *)
Fixpoint bucket_at {N : Type} (aggs : Aggs N) (axes : list string) (ks : list key)
         (sub : Aggs N) : Prop :=
  match axes, ks with
  | [], [] => sub = aggs
  | axis :: axes, k :: ks =>
      exists buckets bucket,
        dict_get String.eqb aggs axis = Some (Buckets buckets) /\
        In (k, bucket) buckets /\
        bucket_at bucket axes ks sub
  | _, _ => False
  end.

(** [sep] does not occur in [s]. *)
Definition free_of (sep : ascii) (s : string) : Prop :=
  ~ In sep (list_ascii_of_string s).


(* ================================================================= *)
(** * util.py: [_flatten] on every value

    To [isinstance(o, Sequence)] a [str] is a sequence, and its items
    are [str]s of one character, which are sequences again.  The values
    that [_flatten] can be given are therefore the objects over the
    scalars below: a [str], or a value of any other kind that is neither
    a [Mapping] nor a [Sequence] (a number, [None], a [bool]). *)

Inductive scalar (L : Type) : Type :=
| Str (s : string)
| Other (x : L).

Arguments Str {L} s.
Arguments Other {L} x.

(** How the iteration of a generator ends: it is exhausted, or the
    interpreter refuses one more nested frame. *)
Inductive ending : Type :=
| Exhausted
| RecursionError.

Section FlattenAny.

Context {L : Type}.

(** An object without [str]s, as a value. *)
Fixpoint plain (o : obj L) : obj (scalar L) :=
  match o with
  | Mapping items => Mapping (map (fun kv => (fst kv, plain (snd kv))) items)
  | Sequence elems => Sequence (map plain elems)
  | Leaf x => Leaf (Other x)
  end.

(** The number of [_flatten] frames that are active at the deepest leaf
    of an object. *)
Fixpoint depth (o : obj L) : nat :=
  match o with
  | Mapping items => S (list_max (map (fun kv => depth (snd kv)) items))
  | Sequence elems => S (list_max (map depth elems))
  | Leaf _ => 1%nat
  end.

(** [for x in xs: yield from body(x)]: what is yielded up to the end of
    the loop, or up to the exception that leaves it. *)
Fixpoint yield_from_each {A Y : Type} (body : A -> list Y * ending) (xs : list A)
  : list Y * ending :=
  match xs with
  | [] => ([], Exhausted)
  | x :: xs =>
      match body x with
      | (ys, Exhausted) =>
          let '(ys', e) := yield_from_each body xs in (ys ++ ys', e)
      | (ys, RecursionError) => (ys, RecursionError)
      end
  end.

(** [_flatten(pfx, o)], iterated to its end where at most [limit] more
    frames may be nested: the pairs yielded and how the iteration
    ends. *)
Fixpoint _flatten_limited (limit : nat) (pfx : path) (o : obj (scalar L))
  : list (path * L) * ending :=
  match limit with
  | O => ([], RecursionError)
  | S limit =>
      match o with
      | Mapping items =>
          yield_from_each
            (fun kv => _flatten_limited limit (pfx ++ [fst kv]) (snd kv)) items
      | Sequence elems =>
          yield_from_each
            (fun iv => _flatten_limited limit (pfx ++ [KInt (fst iv)]) (snd iv))
            (enumerate_from 0 elems)
      | Leaf (Str s) =>
          yield_from_each
            (fun ic => _flatten_limited limit (pfx ++ [KInt (fst ic)])
                                        (Leaf (Str (String (snd ic) EmptyString))))
            (enumerate_from 0 (list_ascii_of_string s))
      | Leaf (Other x) => ([(pfx, x)], Exhausted)
      end
  end.

Definition flatten_limited (limit : nat) (o : obj (scalar L))
  : list (path * L) * ending :=
  _flatten_limited limit [] o.

(** [xs[i]] on a sequence: a negative index counts from the end, and
    [None] stands for [IndexError]. *)
Definition seq_index {A : Type} (xs : list A) (i : Z) : option A :=
  let n := Z.of_nat (List.length xs) in
  let i := if i <? 0 then i + n else i in
  if (i <? 0) || (n <=? i) then None else nth_error xs (Z.to_nat i).

(** [o[k]]; [None] stands for the exception that a missing key, an index
    out of range or a value that cannot be subscripted raises. *)
Definition subscript1 (o : obj (scalar L)) (k : key) : option (obj (scalar L)) :=
  match o with
  | Mapping items => dict_get key_eqb items k
  | Sequence elems =>
      match k with
      | KInt i => seq_index elems i
      | KStr _ => None
      end
  | Leaf (Str s) =>
      match k with
      | KInt i =>
          option_map (fun c => Leaf (Str (String c EmptyString)))
                     (seq_index (list_ascii_of_string s) i)
      | KStr _ => None
      end
  | Leaf (Other _) => None
  end.

(** Subscripting along a path: [o[k1][k2]...]. *)
Fixpoint subscript (o : obj (scalar L)) (p : path) : option (obj (scalar L)) :=
  match p with
  | [] => Some o
  | k :: p =>
      match subscript1 o k with
      | Some v => subscript v p
      | None => None
      end
  end.

(** The path counts the items of sequences from the front: no index into
    a sequence is negative. *)
Fixpoint from_front (o : obj (scalar L)) (p : path) : Prop :=
  match p with
  | [] => True
  | k :: p =>
      match o, k with
      | Mapping _, _ => True
      | _, KInt i => 0 <= i
      | _, KStr _ => True
      end /\
      match subscript1 o k with
      | Some v => from_front v p
      | None => True
      end
  end.

End FlattenAny.

(** A nesting with a [str] at a leaf: [{'b': 1, 'a': 'xy', 'c': 2}]. *)
Definition with_str_leaf : obj (scalar Z) :=
  Mapping [(KStr "b", Leaf (Other 1)); (KStr "a", Leaf (Str "xy"));
           (KStr "c", Leaf (Other 2))].

(** [o] wrapped in [n] lists: [[[...o...]]]. *)
Fixpoint nest {L : Type} (n : nat) (o : obj L) : obj L :=
  match n with
  | O => o
  | S n => Sequence [nest n o]
  end.

(* ================================================================= *)
(** * cli.py: a cycle over a response with null values

    The metrics store answers [null] for a metric aggregation over no
    value, which the tabulator passes on as [None].  The values of such
    a response are [option N], and what the loop of [main] does with a
    value [Some v] is what it does with the number [v]. *)

Section NullValues.

Context {N : Type} `{Number N}.

(** [_check_val_against_thresh(None, thresh_config)]: without thresholds
    nothing is compared; with thresholds, after the assertion, the first
    turn of the second loop evaluates [None < thresh] if [si] and
    [None > thresh] if not, and either raises [TypeError]. *)
Definition check_null (c : thresh_config N) : result (option level * option string) :=
  let tl := ladder c in
  match tl with
  | [] => Ok (None, None)
  | _ :: _ =>
      let tvs := map snd tl in
      let si := strictly_increasing tvs in
      let sd := strictly_decreasing tvs in
      _ <- assert (si || sd) ;;
      Raise TypeError
  end.

(** The body of the loop [for k, v in flatten(t)] where [v] is [None].
    The evaluation returns with no severity or not at all, so that the
    event, if there is one, is a [resolve] event. *)
Definition null_leaf_event (c : config N) (k : path) : result (body N) :=
  let module := config_module c in
  let metricset := config_metricset c in
  let full := full module metricset in
  let axes := match config_axes c with Some axes => axes | None => [] end in
  let metric_configs := config_metrics c in
  _ <- assert (List.length HOST_AXES + 1 <=? List.length k)%nat ;;
  let host_axes := firstn (List.length HOST_AXES) k in
  let metricset_axes := removelast (skipn (List.length HOST_AXES) k) in
  metric_spec <- match last k (KInt 0) with
                 | KStr s => Ok s
                 | KInt _ => Raise AttributeError
                 end ;;
  let full_metric_spec := full metric_spec in
  _ <- assert (List.length axes =? List.length metricset_axes)%nat ;;
  metric_config <- getitem String.eqb metric_configs metric_spec ;;
  _ <- check_null metric_config ;;
  let host_axes_items : iterator (string * key) :=
    combine (map full HOST_AXES) host_axes in
  let metricset_axes_items : iterator (string * key) :=
    combine (map full axes) metricset_axes in
  let '(drawn_host, host_axes_items) := iterate host_axes_items in
  let '(drawn_metricset, metricset_axes_items) := iterate metricset_axes_items in
  key <- dedup_key_of (map (fun nv => (fst nv, Some (snd nv))) drawn_host
                       ++ map (fun nv => (fst nv, Some (snd nv))) drawn_metricset
                       ++ [(full_metric_spec, None)]) ;;
  Ok {| body_dedup_key := key;
        body_event_action := "resolve";
        body_payload := None |}.

Definition nullable_leaf_event (clock : Z) (c : config N) (k : path) (v : option N)
  : result (body N) :=
  match v with
  | Some v => leaf_event clock c k v
  | None => null_leaf_event c k
  end.

(** The loop over the leaves, as [post_events] has it: the events
    posted, every post returning a response, and the exception that
    ended the loop, if any. *)
Fixpoint post_nullable_events (clock : nat -> Z) (c : config N) (i : nat)
         (leaves : list (path * option N)) : list (body N) * option exn :=
  match leaves with
  | [] => ([], None)
  | (k, v) :: leaves =>
      match nullable_leaf_event (clock i) c k v with
      | Ok b =>
          let '(posted, e) := post_nullable_events clock c (S i) leaves in
          (b :: posted, e)
      | Raise e => ([], Some e)
      end
  end.

(** One turn of the loop [for config in CONFIGS], as [run_config] has
    it, over a store whose values may be null. *)
Definition run_nullable_config (time : Q) (clock : nat -> Z)
           (execute : Search -> Aggs (option N)) (c : config N)
  : list (body N) * option exn :=
  let module := config_module c in
  let metricset := config_metricset c in
  let axes := match config_axes c with Some axes => axes | None => [] end in
  let full_axes := HOST_AXES ++ axes in
  let metrics := map fst (config_metrics c) in
  match build_bucket_search time metrics (Some metricset) (Some module)
                            full_axes false (Some (config_window c)) None with
  | Raise e => ([], Some e)
  | Ok q =>
      let r := execute q in
      match build_result_buckets r metrics full_axes with
      | Raise e => ([], Some e)
      | Ok t => post_nullable_events clock c O (flatten t)
      end
  end.

End NullValues.

(** The response of the store for the memory group where the second
    instance has no value. *)
Definition memory_null_response : Aggs (option Z) :=
  [("cloud.region",
    Buckets [(KStr "us-east-1",
              [("cloud.instance.id",
                Buckets [(KStr "i-001", [(".used.pct:avg", Value (Some 96))]);
                         (KStr "i-002", [(".used.pct:avg", Value None)]);
                         (KStr "i-003", [(".used.pct:avg", Value (Some 50))])])])])].
(* ################################################################# *)
(** * Properties of the threshold evaluation *)

Example check_memory_96 :
  _check_val_against_thresh 96 memory_used_pct = Ok (Some Error, Some "96 >= 95").
Proof. reflexivity. Qed.

Example check_memory_50 :
  _check_val_against_thresh 50 memory_used_pct = Ok (None, None).
Proof. reflexivity. Qed.

Example check_low_25 :
  _check_val_against_thresh 25 low_is_bad = Ok (Some Warning, Some "25 <= 30").
Proof. reflexivity. Qed.

Example check_zigzag :
  _check_val_against_thresh 25 zigzag = Raise AssertionError.
Proof. reflexivity. Qed.

Section ThresholdFacts.

Context {N : Type} `{Number N}.

Implicit Types (c : thresh_config N) (v val : N) (rungs : list (level * N)).

Lemma num_lt_asym (x y : N) : num_lt x y = true -> num_lt y x = false.
Proof.
  intros Hxy. destruct (num_lt y x) eqn:Hyx; [|reflexivity].
  rewrite <- (num_lt_irrefl x). symmetry. now apply num_lt_trans with y.
Qed.

(** [y <= x] and [y' < y] give [y' <= x]. *)
Lemma num_le_lt_trans (x y y' : N) :
  num_lt x y = false -> num_lt y' y = true -> num_lt x y' = false.
Proof.
  intros Hxy Hy. destruct (num_lt x y') eqn:E; [|reflexivity].
  rewrite <- Hxy. symmetry. now apply num_lt_trans with y'.
Qed.

(** [x <= y] and [y <= z] give [x <= z]. *)
Lemma num_le_trans (x y z : N) :
  num_lt y x = false -> num_lt z y = false -> num_lt z x = false.
Proof.
  intros Hxy Hyz. destruct (num_lt z x) eqn:E; [|reflexivity].
  destruct (num_lt_cotrans z y x E); congruence.
Qed.

Lemma short_strictly_increasing (L : list N) :
  (List.length L <= 1)%nat -> strictly_increasing L = true.
Proof.
  destruct L as [|x [|y L]]; simpl; intros; try reflexivity; lia.
Qed.

Lemma short_strictly_decreasing (L : list N) :
  (List.length L <= 1)%nat -> strictly_decreasing L = true.
Proof.
  destruct L as [|x [|y L]]; simpl; intros; try reflexivity; lia.
Qed.

Lemma strictly_increasing_cons (x y : N) (L : list N) :
  strictly_increasing (x :: y :: L) = num_lt x y && strictly_increasing (y :: L).
Proof. reflexivity. Qed.

Lemma strictly_decreasing_cons (x y : N) (L : list N) :
  strictly_decreasing (x :: y :: L) = num_lt y x && strictly_decreasing (y :: L).
Proof. reflexivity. Qed.

(** A ladder of two or more thresholds cannot go both ways. *)
Lemma decreasing_not_increasing (L : list N) :
  (2 <= List.length L)%nat ->
  strictly_decreasing L = true -> strictly_increasing L = false.
Proof.
  destruct L as [|x [|y L]]; simpl; try lia. intros _.
  fold (strictly_decreasing (y :: L)). rewrite strictly_decreasing_cons.
  intros [Hyx _]%andb_prop. rewrite strictly_increasing_cons.
  now rewrite (num_lt_asym _ _ Hyx).
Qed.

(** The levels of a ladder come in increasing rank. *)
Lemma ladder_ranked c :
  StronglySorted (fun a b => (level_rank (fst a) < level_rank (fst b))%nat)
                 (ladder c).
Proof.
  unfold ladder; simpl.
  destruct (cfg_info c), (cfg_warning c), (cfg_error c), (cfg_critical c);
    simpl; repeat constructor; simpl; lia.
Qed.

Lemma ladder_length c : (List.length (ladder c) <= 4)%nat.
Proof.
  unfold ladder; simpl.
  destruct (cfg_info c), (cfg_warning c), (cfg_error c), (cfg_critical c);
    simpl; lia.
Qed.

(** What [_check_val_against_thresh] does once the ladder is known. *)
Lemma check_unfold val c :
  _check_val_against_thresh val c =
  match ladder c with
  | [] => Ok (None, None)
  | _ :: _ =>
      let si := strictly_increasing (map snd (ladder c)) in
      if si || strictly_decreasing (map snd (ladder c)) then
        match walk si val (ladder c) None with
        | None => Ok (None, None)
        | Some (severity, ref) =>
            Ok (Some severity,
                Some (num_str val +++ (if si then " >= " else " <= ")
                                  +++ num_str ref))
        end
      else Raise AssertionError
  end.
Proof.
  unfold _check_val_against_thresh.
  destruct (ladder c) as [|p tl]; [reflexivity|].
  cbv zeta.
  destruct (strictly_increasing (map snd (p :: tl)));
    destruct (strictly_decreasing (map snd (p :: tl))); simpl; try reflexivity;
    destruct (walk _ val (p :: tl) None) as [[? ?]|]; reflexivity.
Qed.

(** The walk returns its accumulator or a rung of the ladder. *)
Lemma walk_result si val tl acc :
  walk si val tl acc = acc \/
  exists r, walk si val tl acc = Some r /\ In r tl.
Proof.
  revert acc. induction tl as [|[l t] tl IH]; intros acc; simpl.
  - now left.
  - destruct ((si && num_lt val t) || (negb si && num_gt val t)).
    + now left.
    + right. destruct (IH (Some (l, t))) as [E | (r & E & Hin)].
      * exists (l, t). split; [exact E | now left].
      * exists r. split; [exact E | now right].
Qed.

(** The walk as a split of the ladder: every rung before the stop is
    passed, the rung at the stop (if any) fails the test. *)
Lemma walk_split si val tl acc :
  exists pre post,
    tl = pre ++ post /\
    Forall (fun r => (si && num_lt val (snd r))
                     || (negb si && num_gt val (snd r)) = false) pre /\
    match post with
    | [] => True
    | r :: _ => (si && num_lt val (snd r))
                || (negb si && num_gt val (snd r)) = true
    end /\
    walk si val tl acc = match rev pre with [] => acc | r :: _ => Some r end.
Proof.
  revert acc. induction tl as [|[l t] tl IH]; intros acc.
  - exists [], []. simpl. repeat split; constructor.
  - simpl. destruct ((si && num_lt val t) || (negb si && num_gt val t)) eqn:E.
    + exists [], ((l, t) :: tl). simpl. repeat split; [constructor | exact E].
    + destruct (IH (Some (l, t))) as (pre & post & -> & Hpre & Hpost & Hw).
      exists ((l, t) :: pre), post. repeat split.
      * constructor; [exact E | exact Hpre].
      * exact Hpost.
      * rewrite Hw. simpl. destruct (rev pre) as [|r rs] eqn:Er; reflexivity.
Qed.

(** C2.  For every ladder with thresholds i < w < e < c at the levels info,
    warning, error, critical and every value v with e <= v < c, the
    evaluation returns the severity "error" and the diagnostic
    "v >= e". *)
Theorem ascending_error_band c (i w e cr v : N) :
  cfg_info c = Some i -> cfg_warning c = Some w ->
  cfg_error c = Some e -> cfg_critical c = Some cr ->
  num_lt i w = true -> num_lt w e = true -> num_lt e cr = true ->
  num_le e v = true -> num_lt v cr = true ->
  _check_val_against_thresh v c
  = Ok (Some Error, Some (num_str v +++ " >= " +++ num_str e))
  /\ level_name Error = "error".
Proof.
  intros Hi Hw He Hc Hiw Hwe Hec Hev Hvc. split; [|reflexivity].
  assert (Hve : num_lt v e = false) by (now apply negb_true_iff in Hev).
  assert (Hvw : num_lt v w = false) by (eapply num_le_lt_trans; eauto).
  assert (Hvi : num_lt v i = false) by (eapply num_le_lt_trans; eauto).
  unfold _check_val_against_thresh, ladder. simpl. rewrite Hi, Hw, He, Hc. simpl.
  unfold strictly_increasing. simpl. rewrite Hiw, Hwe, Hec. simpl.
  rewrite Hvi, Hvw, Hve, Hvc. reflexivity.
Qed.

(** C3.  For every ladder of two or more thresholds that is strictly
    decreasing in the level order, the comparison is reversed: the walk
    passes every level whose threshold the value does not exceed and
    stops at the first level whose threshold it exceeds, the diagnostic
    is "<value> <= <matched threshold>", and a value at or below the
    threshold of a level is given that level or a more severe one. *)
Theorem descending_ladder_reversed c v :
  (2 <= List.length (ladder c))%nat ->
  strictly_decreasing (map snd (ladder c)) = true ->
  exists pre post,
    ladder c = pre ++ post /\
    Forall (fun r => num_gt v (snd r) = false) pre /\
    match post with [] => True | r :: _ => num_gt v (snd r) = true end /\
    _check_val_against_thresh v c
    = Ok (match rev pre with
          | [] => (None, None)
          | (l, ref) :: _ => (Some l, Some (num_str v +++ " <= " +++ num_str ref))
          end) /\
    (forall l t, In (l, t) (ladder c) -> num_le v t = true ->
                 exists l' ref,
                   In (l', ref) (ladder c) /\
                   _check_val_against_thresh v c
                   = Ok (Some l', Some (num_str v +++ " <= " +++ num_str ref)) /\
                   (level_rank l <= level_rank l')%nat).
Proof.
  intros Hlen Hsd.
  assert (Hsi : strictly_increasing (map snd (ladder c)) = false)
    by (apply decreasing_not_increasing; [now rewrite length_map | exact Hsd]).
  destruct (walk_split false v (ladder c) None)
    as (pre & post & Hsplit & Hpre & Hpost & Hwalk).
  simpl in Hpre, Hpost.
  exists pre, post. split; [exact Hsplit|]. split; [exact Hpre|].
  split; [exact Hpost|].
  assert (Hcheck : _check_val_against_thresh v c
                   = Ok (match rev pre with
                         | [] => (None, None)
                         | (l, ref) :: _ =>
                             (Some l, Some (num_str v +++ " <= " +++ num_str ref))
                         end)).
  { rewrite check_unfold. destruct (ladder c) as [|p rest] eqn:El; [simpl in Hlen; lia|].
    cbv zeta. rewrite Hsi, Hsd, Hwalk. simpl.
    destruct (rev pre) as [|[l ref] ?]; reflexivity. }
  split; [exact Hcheck|].
  - intros l t Hin Hle. apply negb_true_iff in Hle. fold (num_gt v t) in Hle.
    enough (Hlast : exists l' ref rest,
               rev pre = (l', ref) :: rest /\ (level_rank l <= level_rank l')%nat).
    { destruct Hlast as (l' & ref & rest & Erev & Hr). exists l', ref.
      split; [|split; [|exact Hr]].
      - rewrite Hsplit. apply in_or_app. left. apply in_rev. rewrite Erev. now left.
      - rewrite Hcheck, Erev. reflexivity. }
    (* Every rung up to (l, t) is passed, so (l, t) lies in [pre]. *)
    assert (Hinpre : In (l, t) pre).
    { rewrite Hsplit in Hin. apply in_app_or in Hin. destruct Hin as [Hp | Hp];
        [exact Hp | exfalso].
      destruct post as [|[l0 t0] post']; [contradiction|]. simpl in Hpost.
      assert (Hdec : strictly_decreasing (map snd ((l0, t0) :: post')) = true).
      { clear - Hsd Hsplit. rewrite Hsplit in Hsd. clear Hsplit.
        induction pre as [|a pre IH]; [exact Hsd|]. apply IH.
        destruct pre as [|b pre]; simpl in Hsd |- *.
        - unfold strictly_decreasing in Hsd. simpl in Hsd.
          apply andb_prop in Hsd. apply Hsd.
        - unfold strictly_decreasing in Hsd. simpl in Hsd.
          apply andb_prop in Hsd. apply Hsd. }
      destruct Hp as [Hp | Hp].
      - inversion Hp; subst. unfold num_gt in *. congruence.
      - (* t lies strictly below t0, so v > t0 gives v > t *)
        assert (Hlt : num_lt t t0 = true).
        { clear - Hdec Hp. revert l0 t0 Hdec.
          induction post' as [|[l1 t1] post' IH]; intros l0 t0 Hdec; [contradiction|].
          simpl in Hdec. rewrite strictly_decreasing_cons in Hdec.
          apply andb_prop in Hdec. destruct Hdec as [H10 Hrest].
          destruct Hp as [Hp | Hp].
          - inversion Hp; subst. exact H10.
          - apply num_lt_trans with t1; [|exact H10].
            apply (IH Hp l1 t1 Hrest). }
        unfold num_gt in *.
        rewrite (num_lt_trans _ _ _ Hlt Hpost) in Hle. discriminate. }
    pose proof (ladder_ranked c) as Hrank. rewrite Hsplit in Hrank.
    clear - Hinpre Hrank.
    induction pre as [|a pre IH] using rev_ind; [contradiction|].
    rewrite rev_app_distr. simpl. destruct a as [l' ref]. exists l', ref, (rev pre).
    split; [reflexivity|].
    apply in_app_or in Hinpre. destruct Hinpre as [Hp | [Hp | []]].
    + rewrite <- app_assoc in Hrank. simpl in Hrank.
      clear IH. induction pre as [|b pre IHp]; [contradiction|].
      simpl in Hrank. apply StronglySorted_inv in Hrank. destruct Hrank as [Hs Hall].
      destruct Hp as [-> | Hp].
      * rewrite Forall_forall in Hall.
        specialize (Hall (l', ref)). simpl in Hall.
        assert (Hmem : In (l', ref) (pre ++ (l', ref) :: post))
          by (apply in_or_app; right; now left).
        specialize (Hall Hmem). lia.
      * now apply IHp.
    + inversion Hp; subst. lia.
Qed.

(** C6.  The evaluation fails, with an assertion failure, if and only if
    the defined thresholds, read in the order info, warning, error,
    critical, are two or more and neither strictly increasing nor strictly
    decreasing; on every monotonic ladder, the empty and the
    single-threshold ladders included, it returns normally. *)
Theorem assertion_iff_not_monotonic c v :
  let tvs := map snd (ladder c) in
  (_check_val_against_thresh v c = Raise AssertionError <->
   (2 <= List.length tvs)%nat /\
   strictly_increasing tvs = false /\ strictly_decreasing tvs = false) /\
  (strictly_increasing tvs = true \/ strictly_decreasing tvs = true ->
   exists r, _check_val_against_thresh v c = Ok r) /\
  ((List.length tvs <= 1)%nat ->
   exists r, _check_val_against_thresh v c = Ok r) /\
  (forall e, _check_val_against_thresh v c = Raise e -> e = AssertionError).
Proof.
  cbv zeta. rewrite check_unfold.
  destruct (ladder c) as [|p rest] eqn:El.
  - simpl. split; [split|split; [|split]].
    + discriminate.
    + intros (Hlen & _). lia.
    + intros _. eexists; reflexivity.
    + intros _. eexists; reflexivity.
    + discriminate.
  - cbv zeta.
    set (tvs := map snd (p :: rest)).
    set (si := strictly_increasing tvs).
    set (sd := strictly_decreasing tvs).
    assert (Hlen : (si || sd = false -> 2 <= List.length tvs)%nat).
    { subst si sd tvs. destruct rest as [|q rest]; simpl; [discriminate | lia]. }
    assert (Hmono : si || sd = true ->
                    exists r,
                      match walk si v (p :: rest) None with
                      | None => Ok (None, None)
                      | Some (severity, ref) =>
                          Ok (Some severity,
                              Some (num_str v
                                    +++ (if si then " >= " else " <= ")
                                    +++ num_str ref))
                      end = Ok r).
    { intros _. destruct (walk si v (p :: rest) None) as [[? ?]|];
        eexists; reflexivity. }
    destruct (si || sd) eqn:E.
    + destruct (Hmono eq_refl) as [r Hr]. rewrite Hr.
      split; [split|split; [|split]].
      * discriminate.
      * intros (_ & Hsi & Hsd). rewrite Hsi, Hsd in E. discriminate.
      * intros _. now exists r.
      * intros _. now exists r.
      * discriminate.
    + apply orb_false_elim in E as E'. destruct E' as [Hsi Hsd].
      split; [split|split; [|split]].
      * intros _. split; [now apply Hlen | now split].
      * reflexivity.
      * intros [Hm | Hm]; congruence.
      * intros Hshort. specialize (Hlen eq_refl). lia.
      * congruence.
Qed.

(** On the ascending branch a larger value walks at least as far. *)
Lemma walk_ascending_monotone v1 v2 rungs acc :
  num_lt v2 v1 = false ->
  StronglySorted (fun a b => (level_rank (fst a) < level_rank (fst b))%nat) rungs ->
  Forall (fun r => (severity_rank (option_map fst acc) < level_rank (fst r))%nat)
         rungs ->
  (severity_rank (option_map fst (walk true v1 rungs acc))
   <= severity_rank (option_map fst (walk true v2 rungs acc)))%nat.
Proof.
  intros Hle. revert acc.
  induction rungs as [|[l t] rungs IH]; intros acc Hsorted Hacc; simpl; [lia|].
  rewrite !orb_false_r.
  apply StronglySorted_inv in Hsorted. destruct Hsorted as [Hs Hall].
  destruct (num_lt v1 t) eqn:E1.
  - (* v1 stops here; v2 stops here or goes on to a higher rung *)
    destruct (num_lt v2 t) eqn:E2; [lia|].
    destruct (walk_result true v2 rungs (Some (l, t))) as [-> | (r & -> & Hin)].
    + simpl. apply Forall_inv in Hacc. simpl in Hacc. lia.
    + simpl. apply Forall_inv_tail in Hacc. rewrite Forall_forall in Hacc.
      specialize (Hacc r Hin). lia.
  - (* v1 passes, and so does every v2 >= v1 *)
    assert (E2 : num_lt v2 t = false) by (apply num_le_trans with v1; assumption).
    rewrite E2. apply IH; [exact Hs | exact Hall].
Qed.

(** C10.  For every ladder whose defined thresholds are strictly
    increasing, the severity is monotone in the value: v1 <= v2 makes the
    severity of v1 no more severe than that of v2, in the order
    none < info < warning < error < critical. *)
Theorem severity_monotone c v1 v2 :
  strictly_increasing (map snd (ladder c)) = true ->
  num_le v1 v2 = true ->
  exists s1 d1 s2 d2,
    _check_val_against_thresh v1 c = Ok (s1, d1) /\
    _check_val_against_thresh v2 c = Ok (s2, d2) /\
    (severity_rank s1 <= severity_rank s2)%nat.
Proof.
  intros Hsi Hle. apply negb_true_iff in Hle. rewrite !check_unfold.
  pose proof (ladder_ranked c) as Hrank.
  destruct (ladder c) as [|p rest] eqn:El.
  - exists None, None, None, None. repeat split. simpl. lia.
  - cbv zeta. rewrite Hsi. simpl orb. cbv iota.
    assert (Hmon := walk_ascending_monotone v1 v2 (p :: rest) None Hle Hrank).
    assert (Hpos : Forall (fun r : level * N =>
                             (severity_rank (option_map fst (@None (level * N)))
                              < level_rank (fst r))%nat) (p :: rest)).
    { apply Forall_forall. intros [[] ?] _; simpl; lia. }
    specialize (Hmon Hpos).
    destruct (walk true v1 (p :: rest) None) as [[l1 r1]|];
      destruct (walk true v2 (p :: rest) None) as [[l2 r2]|];
      do 4 eexists; (split; [reflexivity|split; [reflexivity|exact Hmon]]).
Qed.

End ThresholdFacts.

(** ** The sample ladders *)

Lemma ascending_error_band_witness :
  _check_val_against_thresh 96 memory_used_pct = Ok (Some Error, Some "96 >= 95")
  /\ level_name Error = "error".
Proof.
  exact (ascending_error_band memory_used_pct 80 90 95 98 96
           eq_refl eq_refl eq_refl eq_refl eq_refl eq_refl eq_refl eq_refl eq_refl).
Defined.

Lemma descending_ladder_reversed_witness :
  exists pre post,
    ladder low_is_bad = pre ++ post /\
    Forall (fun r => num_gt 25 (snd r) = false) pre /\
    match post with [] => True | r :: _ => num_gt 25 (snd r) = true end /\
    _check_val_against_thresh 25 low_is_bad
    = Ok (match rev pre with
          | [] => (None, None)
          | (l, ref) :: _ => (Some l, Some (num_str 25 +++ " <= " +++ num_str ref))
          end) /\
    (forall l t, In (l, t) (ladder low_is_bad) -> num_le 25 t = true ->
                 exists l' ref,
                   In (l', ref) (ladder low_is_bad) /\
                   _check_val_against_thresh 25 low_is_bad
                   = Ok (Some l', Some (num_str 25 +++ " <= " +++ num_str ref)) /\
                   (level_rank l <= level_rank l')%nat).
Proof.
  apply (descending_ladder_reversed low_is_bad 25); [simpl; lia | reflexivity].
Defined.

Lemma assertion_iff_not_monotonic_witness :
  _check_val_against_thresh 25 zigzag = Raise AssertionError
  /\ exists r, _check_val_against_thresh 25 memory_used_pct = Ok r.
Proof.
  split.
  - apply (proj1 (assertion_iff_not_monotonic zigzag 25)).
    split; [simpl; lia | split; reflexivity].
  - apply (proj1 (proj2 (assertion_iff_not_monotonic memory_used_pct 25))).
    left. reflexivity.
Defined.

Lemma severity_monotone_witness :
  exists s1 d1 s2 d2,
    _check_val_against_thresh 91 memory_used_pct = Ok (s1, d1) /\
    _check_val_against_thresh 96 memory_used_pct = Ok (s2, d2) /\
    (severity_rank s1 <= severity_rank s2)%nat.
Proof.
  apply (severity_monotone memory_used_pct 91 96); reflexivity.
Defined.

(* ################################################################# *)
(** * Properties of flatten *)

Example flatten_one_host_one_metric :
  flatten one_host_one_metric = [([KStr "h1"; KStr "m1:avg"], 3)].
Proof. reflexivity. Qed.

Example flatten_mixed_nesting :
  flatten mixed_nesting
  = [([KStr "a"; KInt 0], 10); ([KStr "a"; KInt 1; KStr "b"], 20);
     ([KInt 7], 30)].
Proof. reflexivity. Qed.

Section FlattenFacts.

Context {L : Type}.

(** Induction over nested objects. *)
Lemma obj_nested_ind (P : obj L -> Prop) :
  (forall items, Forall (fun kv => P (snd kv)) items -> P (Mapping items)) ->
  (forall elems, Forall P elems -> P (Sequence elems)) ->
  (forall o, P (Leaf o)) ->
  forall o, P o.
Proof.
  intros HM HS HL. fix IH 1. intros [items | elems | o].
  - apply HM. induction items as [|[k v] items IHitems]; constructor.
    + apply IH.
    + exact IHitems.
  - apply HS. induction elems as [|v elems IHelems]; constructor.
    + apply IH.
    + exact IHelems.
  - apply HL.
Qed.

(** The loop over [o.items()]. *)
Lemma _flatten_Mapping (pfx : path) (items : list (key * obj L)) :
  _flatten pfx (Mapping items)
  = flat_map (fun kv => _flatten (pfx ++ [fst kv]) (snd kv)) items.
Proof.
  simpl. induction items as [|[k v] items IH]; [reflexivity|].
  simpl. now rewrite IH.
Qed.

(** The loop over [enumerate(o)]. *)
Lemma _flatten_Sequence (pfx : path) (elems : list (obj L)) :
  _flatten pfx (Sequence elems)
  = flat_map (fun iv => _flatten (pfx ++ [KInt (fst iv)]) (snd iv))
             (enumerate_from 0 elems).
Proof.
  simpl. generalize 0 as i.
  induction elems as [|v elems IH]; intros i; [reflexivity|].
  simpl. now rewrite IH.
Qed.

(** The prefix is carried unchanged in front of every path. *)
Lemma _flatten_prefix (o : obj L) (pfx : path) :
  _flatten pfx o = map (fun px => (pfx ++ fst px, snd px)) (flatten o).
Proof.
  unfold flatten. revert pfx.
  induction o as [items IH | elems IH | o] using obj_nested_ind; intros pfx.
  - rewrite !_flatten_Mapping.
    induction IH as [|[k v] items Hv _ IHitems]; [reflexivity|].
    simpl in *. rewrite map_app, IHitems. f_equal.
    rewrite (Hv (pfx ++ [k])), (Hv [k]), map_map. apply map_ext.
    intros [p x]. simpl. now rewrite <- app_assoc.
  - rewrite !_flatten_Sequence. generalize 0 as i.
    induction IH as [|v elems Hv _ IHelems]; intros i; [reflexivity|].
    simpl in *. rewrite map_app, IHelems. f_equal.
    rewrite (Hv (pfx ++ [KInt i])), (Hv [KInt i]), map_map. apply map_ext.
    intros [p x]. simpl. now rewrite <- app_assoc.
  - simpl. now rewrite app_nil_r.
Qed.

Lemma flatten_length (o : obj L) (pfx : path) :
  List.length (_flatten pfx o) = leaves o.
Proof.
  revert pfx.
  induction o as [items IH | elems IH | o] using obj_nested_ind; intros pfx.
  - simpl. induction IH as [|[k v] items Hv _ IHitems]; [reflexivity|].
    simpl in *. now rewrite length_app, Hv, IHitems.
  - simpl. generalize 0 as i.
    induction IH as [|v elems Hv _ IHelems]; intros i; [reflexivity|].
    simpl in *. now rewrite length_app, Hv, IHelems.
  - reflexivity.
Qed.

Lemma flatten_Mapping (items : list (key * obj L)) :
  flatten (Mapping items)
  = flat_map (fun kv => map (fun px => (fst kv :: fst px, snd px))
                            (flatten (snd kv))) items.
Proof.
  unfold flatten at 1. rewrite _flatten_Mapping.
  apply flat_map_ext. intros [k v]. simpl. apply _flatten_prefix.
Qed.

Lemma flatten_Sequence (elems : list (obj L)) :
  flatten (Sequence elems)
  = flat_map (fun iv => map (fun px => (KInt (fst iv) :: fst px, snd px))
                            (flatten (snd iv)))
             (enumerate_from 0 elems).
Proof.
  unfold flatten at 1. rewrite _flatten_Sequence.
  apply flat_map_ext. intros [i v]. simpl. apply _flatten_prefix.
Qed.

Lemma enter_yields (pfx : path) (o : obj L) :
  frame_yields (enter pfx o) = _flatten pfx o.
Proof.
  destruct o; simpl; try reflexivity.
  change (flat_map (fun iv => _flatten (pfx ++ [KInt (fst iv)]) (snd iv))
            (enumerate_from 0 elems) = _flatten pfx (Sequence elems)).
  now rewrite _flatten_Sequence.
Qed.

Lemma enter_steps (pfx : path) (o : obj L) :
  frame_steps (enter pfx o) = steps o.
Proof. destruct o; reflexivity. Qed.

(** Given as many steps as its frames need, a generator is exhausted and
    has yielded what its frames had left, innermost frame first. *)
Lemma drain_frames (fuel : nat) (g : @generator L) :
  (list_sum (map frame_steps g) <= fuel)%nat ->
  drain fuel g = Some (flat_map frame_yields g).
Proof.
  revert g. induction fuel as [|fuel IH]; intros g Hfuel.
  - destruct g as [|f g]; [reflexivity|].
    simpl in Hfuel. destruct f as [? [|[? ?] ?] | ? ? [|? ?] | ? ?]; simpl in Hfuel; lia.
  - destruct g as [|f g]; [reflexivity|].
    destruct f as [pfx [|[k v] items] | pfx i [|v elems] | pfx o].
    + simpl. apply IH. simpl in Hfuel. lia.
    + change (drain (S fuel) (InMapping pfx ((k, v) :: items) :: g))
        with (drain fuel (enter (pfx ++ [k]) v :: InMapping pfx items :: g)).
      rewrite IH.
      * simpl flat_map. rewrite enter_yields, app_assoc. reflexivity.
      * simpl map. simpl list_sum. rewrite enter_steps.
        simpl in Hfuel. simpl. lia.
    + simpl. apply IH. simpl in Hfuel. lia.
    + change (drain (S fuel) (InSequence pfx i (v :: elems) :: g))
        with (drain fuel (enter (pfx ++ [KInt i]) v
                          :: InSequence pfx (i + 1) elems :: g)).
      rewrite IH.
      * simpl flat_map. rewrite enter_yields, app_assoc. reflexivity.
      * simpl map. simpl list_sum. rewrite enter_steps.
        simpl in Hfuel. simpl. lia.
    + simpl. rewrite IH; [reflexivity|]. simpl in Hfuel. lia.
Qed.

(** A loop whose every turn is exhausted yields what the turns yield,
    one after the other. *)
Lemma yield_from_each_map {A B Y : Type} (g : A -> B) (body : B -> list Y * ending)
      (h : A -> list Y) (xs : list A) :
  Forall (fun x => body (g x) = (h x, Exhausted)) xs ->
  yield_from_each body (map g xs) = (flat_map h xs, Exhausted).
Proof.
  induction 1 as [|x xs Hx _ IH]; [reflexivity|].
  simpl. now rewrite Hx, IH.
Qed.

Lemma enumerate_from_map {A B : Type} (f : A -> B) (start : Z) (elems : list A) :
  enumerate_from start (map f elems)
  = map (fun iv => (fst iv, f (snd iv))) (enumerate_from start elems).
Proof.
  revert start. induction elems as [|v elems IH]; intros start; [reflexivity|].
  simpl. now rewrite IH.
Qed.

Lemma Forall_enumerate_from {A : Type} (P : A -> Prop) (Q : Z * A -> Prop)
      (start : Z) (elems : list A) :
  (forall i v, P v -> Q (i, v)) ->
  Forall P elems -> Forall Q (enumerate_from start elems).
Proof.
  intros HPQ Hall. revert start.
  induction Hall as [|v elems Hv _ IH]; intros start; constructor.
  - now apply HPQ.
  - apply IH.
Qed.

(** With room for its deepest leaf, an object without [str]s is
    flattened to the end. *)
Lemma plain_within (o : obj L) :
  forall limit pfx,
    (depth o <= limit)%nat ->
    _flatten_limited limit pfx (plain o) = (_flatten pfx o, Exhausted).
Proof.
  induction o as [items IH | elems IH | x] using obj_nested_ind;
    intros [|limit] pfx Hd; simpl in Hd; try lia.
  - apply le_S_n in Hd. apply list_max_le in Hd. rewrite Forall_map in Hd.
    rewrite _flatten_Mapping.
    change (_flatten_limited (S limit) pfx (plain (Mapping items)))
      with (yield_from_each
              (fun kv => _flatten_limited limit (pfx ++ [fst kv]) (snd kv))
              (map (fun kv => (fst kv, plain (snd kv))) items)).
    apply yield_from_each_map.
    rewrite Forall_forall in *. intros kv Hin. simpl.
    apply IH; [exact Hin | now apply Hd].
  - apply le_S_n in Hd. apply list_max_le in Hd.
    rewrite _flatten_Sequence.
    change (_flatten_limited (S limit) pfx (plain (Sequence elems)))
      with (yield_from_each
              (fun iv => _flatten_limited limit (pfx ++ [KInt (fst iv)]) (snd iv))
              (enumerate_from 0 (map plain elems))).
    rewrite enumerate_from_map. apply yield_from_each_map.
    apply Forall_enumerate_from with (P := fun v =>
      (depth v <= limit)%nat /\
      forall l p, (depth v <= l)%nat ->
                  _flatten_limited l p (plain v) = (_flatten p v, Exhausted)).
    + intros i v [Hv IHv]. simpl. now apply IHv.
    + rewrite Forall_forall in *. intros v Hin. split.
      * apply Hd. now apply in_map.
      * now apply IH.
  - reflexivity.
Qed.

(** A [str] that is not empty is never flattened to the end: its first
    character is a [str] with that same first character. *)
Lemma str_overflows (limit : nat) :
  forall (c : ascii) (s : string) (pfx : path),
    _flatten_limited (L := L) limit pfx (Leaf (Str (String c s)))
    = ([], RecursionError).
Proof.
  induction limit as [|limit IH]; intros c s pfx; [reflexivity|].
  simpl. now rewrite IH.
Qed.

(** Without room for its deepest leaf, flattening an object ends in a
    [RecursionError]. *)
Lemma too_deep (o : obj L) :
  forall limit pfx,
    (limit < depth o)%nat ->
    snd (_flatten_limited limit pfx (plain o)) = RecursionError.
Proof.
  induction o as [items IH | elems IH | x] using obj_nested_ind;
    intros [|limit] pfx Hd; try reflexivity; simpl in Hd; try lia.
  - apply Nat.succ_lt_mono in Hd.
    change (_flatten_limited (S limit) pfx (plain (Mapping items)))
      with (yield_from_each
              (fun kv => _flatten_limited limit (pfx ++ [fst kv]) (snd kv))
              (map (fun kv => (fst kv, plain (snd kv))) items)).
    induction IH as [|[k v] items Hv _ IHitems]; [simpl in Hd; lia|].
    simpl in *.
    destruct (_flatten_limited limit (pfx ++ [k]) (plain v)) as [ys [|]] eqn:Ev;
      [|reflexivity].
    destruct (Nat.le_gt_cases (depth v) limit) as [Hle | Hgt].
    + specialize (IHitems ltac:(lia)).
      destruct (yield_from_each _ _) as [ys' e]. exact IHitems.
    + specialize (Hv limit (pfx ++ [k]) Hgt). rewrite Ev in Hv. discriminate.
  - apply Nat.succ_lt_mono in Hd.
    change (_flatten_limited (S limit) pfx (plain (Sequence elems)))
      with (yield_from_each
              (fun iv => _flatten_limited limit (pfx ++ [KInt (fst iv)]) (snd iv))
              (enumerate_from 0 (map plain elems))).
    generalize 0 as i.
    induction IH as [|v elems Hv _ IHelems]; intros i; [simpl in Hd; lia|].
    simpl in *.
    destruct (_flatten_limited limit (pfx ++ [KInt i]) (plain v)) as [ys [|]] eqn:Ev;
      [|reflexivity].
    destruct (Nat.le_gt_cases (depth v) limit) as [Hle | Hgt].
    + specialize (IHelems ltac:(lia) (i + 1)).
      destruct (yield_from_each _ _) as [ys' e]. exact IHelems.
    + specialize (Hv limit (pfx ++ [KInt i]) Hgt). rewrite Ev in Hv. discriminate.
Qed.

(** C7, for leaves as the code takes them.  For every nesting of
    mappings and sequences over leaves that are themselves neither
    mappings nor sequences (so not over [str]s), iterated with room for
    the frames of its deepest leaf, the generator
    made by [flatten] is exhausted after finitely many steps, having
    yielded one (path, leaf) pair per leaf; the path of a pair is the
    key of the mapping, or the 0-based index in the sequence, followed by
    the path inside that item; and a second generator made from the same
    input yields the same pairs. *)
Theorem flatten_terminates (limit : nat) (o : obj L) :
  (depth o <= limit)%nat ->
  flatten_limited limit (plain o) = (flatten o, Exhausted) /\
  (forall fuel, (steps o <= fuel)%nat ->
                drain fuel (flatten_generator o) = Some (flatten o)) /\
  (forall fuel1 fuel2 ys1 ys2,
      drain fuel1 (flatten_generator o) = Some ys1 ->
      drain fuel2 (flatten_generator o) = Some ys2 -> ys1 = ys2) /\
  List.length (flatten o) = leaves o /\
  match o with
  | Mapping items =>
      flatten o
      = flat_map (fun kv => map (fun px => (fst kv :: fst px, snd px))
                                (flatten (snd kv))) items
  | Sequence elems =>
      flatten o
      = flat_map (fun iv => map (fun px => (KInt (fst iv) :: fst px, snd px))
                                (flatten (snd iv)))
                 (enumerate_from 0 elems)
  | Leaf x => flatten o = [([], x)]
  end.
Proof.
  intros Hroom. split; [now apply plain_within|].
  assert (Hdrain : forall fuel, (steps o <= fuel)%nat ->
                     drain fuel (flatten_generator o) = Some (flatten o)).
  { intros fuel Hfuel. unfold flatten_generator. rewrite drain_frames.
    - simpl. now rewrite enter_yields, app_nil_r.
    - simpl. rewrite enter_steps. lia. }
  split; [exact Hdrain|]. split; [|split].
  - (* any two complete runs agree with the run of [steps o] steps *)
    assert (Hmono : forall fuel (g : @generator L) ys,
               drain fuel g = Some ys -> drain (S fuel) g = Some ys).
    { induction fuel as [|fuel IH]; intros g ys.
      - destruct g; [intros E; exact E | discriminate].
      - destruct g as [|f g]; [intros E; exact E|].
        change (drain (S (S fuel)) (f :: g))
          with (match step f g with
                | (Some y, g') => option_map (cons y) (drain (S fuel) g')
                | (None, g') => drain (S fuel) g'
                end).
        change (drain (S fuel) (f :: g))
          with (match step f g with
                | (Some y, g') => option_map (cons y) (drain fuel g')
                | (None, g') => drain fuel g'
                end).
        destruct (step f g) as [[y|] g'].
        + destruct (drain fuel g') as [ys'|] eqn:E; [|discriminate].
          now rewrite (IH g' ys' E).
        + apply IH. }
    assert (Hle : forall n fuel (g : @generator L) ys,
               drain fuel g = Some ys -> drain (n + fuel) g = Some ys).
    { induction n as [|n IHn]; intros fuel g ys E; [exact E|].
      simpl. apply Hmono. now apply IHn. }
    intros fuel1 fuel2 ys1 ys2 E1 E2.
    apply (Hle (steps o)) in E1. apply (Hle (steps o)) in E2.
    rewrite Hdrain in E1, E2 by lia. congruence.
  - apply flatten_length.
  - destruct o as [items | elems | x].
    + apply flatten_Mapping.
    + apply flatten_Sequence.
    + reflexivity.
Qed.

End FlattenFacts.

Lemma flatten_terminates_witness :
  flatten_limited 4 (plain mixed_nesting)
  = ([([KStr "a"; KInt 0], 10); ([KStr "a"; KInt 1; KStr "b"], 20);
      ([KInt 7], 30)], Exhausted).
Proof.
  apply (proj1 (flatten_terminates 4 mixed_nesting ltac:(simpl; lia))).
Defined.

(** C7 for every input structure does not hold.  A [str] at a leaf is
    flattened as a sequence of its characters, each a [str] again:
    however many frames may be nested, the iteration of
    [flatten({'b': 1, 'a': 'xy', 'c': 2})] ends in a [RecursionError],
    and the pair of ['c'] is never yielded.  And whatever the number of
    frames that may be nested, there is a nesting of lists too deep for
    it. *)
Lemma flatten_str_leaf_overflows :
  (forall limit, snd (flatten_limited limit with_str_leaf) = RecursionError) /\
  flatten_limited 1000 with_str_leaf = ([([KStr "b"], 1)], RecursionError) /\
  (forall limit,
      snd (flatten_limited limit (plain (nest limit (Leaf 1)))) = RecursionError).
Proof.
  split; [|split].
  - intros [|[|limit]]; try reflexivity.
    unfold flatten_limited, with_str_leaf.
    change (_flatten_limited (S (S limit)) [] (Mapping ?items))
      with (yield_from_each
              (fun kv => _flatten_limited (L := Z) (S limit) ([] ++ [fst kv]) (snd kv))
              items).
    cbn -[_flatten_limited]. rewrite str_overflows. reflexivity.
  - vm_compute. reflexivity.
  - intros limit. apply too_deep. clear.
    induction limit as [|limit IH]; simpl; lia.
Qed.

(* ################################################################# *)
(** * Properties of dictionaries and loops *)

Lemma Ok_inj {A : Type} (x y : A) : Ok x = Ok y -> x = y.
Proof. congruence. Qed.

Section DictFacts.

Context {K V : Type} (eqb : K -> K -> bool).
Hypothesis eqb_eq : forall a b, eqb a b = true <-> a = b.

Lemma eqb_refl_true (k : K) : eqb k k = true.
Proof. now apply eqb_eq. Qed.

Lemma eqb_neq_false (a b : K) : a <> b -> eqb a b = false.
Proof.
  intros Hne. destruct (eqb a b) eqn:E; [|reflexivity].
  apply eqb_eq in E. contradiction.
Qed.

Lemma dict_set_fresh (d : list (K * V)) (k : K) (v : V) :
  ~ In k (map fst d) -> dict_set eqb d k v = d ++ [(k, v)].
Proof.
  induction d as [|[k' v'] d IH]; intros Hfresh; [reflexivity|].
  simpl in *. rewrite eqb_neq_false by tauto. now rewrite IH by tauto.
Qed.

Lemma dict_update_fresh (items d : list (K * V)) :
  NoDup (map fst (d ++ items)) -> dict_update eqb d items = d ++ items.
Proof.
  unfold dict_update. revert d.
  induction items as [|[k v] items IH]; intros d Hnd; simpl.
  - now rewrite app_nil_r.
  - assert (Hfresh : ~ In k (map fst d)).
    { rewrite map_app in Hnd. simpl in Hnd.
      apply NoDup_remove_2 in Hnd. intros Hin. apply Hnd.
      apply in_or_app. now left. }
    rewrite dict_set_fresh by exact Hfresh.
    rewrite IH; rewrite <- app_assoc; [reflexivity | exact Hnd].
Qed.

Lemma dict_get_In (d : list (K * V)) (k : K) (v : V) :
  dict_get eqb d k = Some v -> In (k, v) d.
Proof.
  induction d as [|[k' v'] d IH]; simpl; [discriminate|].
  destruct (eqb k' k) eqn:E.
  - apply eqb_eq in E. intros [= ->]. subst. now left.
  - intros Hget. right. now apply IH.
Qed.

Lemma In_dict_get (d : list (K * V)) (k : K) (v : V) :
  NoDup (map fst d) -> In (k, v) d -> dict_get eqb d k = Some v.
Proof.
  induction d as [|[k' v'] d IH]; simpl; [contradiction|].
  intros Hnd [Hhd | Htl].
  - inversion Hhd; subst. now rewrite eqb_refl_true.
  - apply NoDup_cons_iff in Hnd. destruct Hnd as [Hnotin Hnd].
    rewrite eqb_neq_false.
    + now apply IH.
    + intros ->. apply Hnotin. now apply (in_map fst) in Htl.
Qed.

End DictFacts.

Lemma key_eqb_eq (a b : key) : key_eqb a b = true <-> a = b.
Proof.
  destruct a as [s | x], b as [t | y]; simpl.
  - rewrite String.eqb_eq. split; congruence.
  - split; discriminate.
  - split; discriminate.
  - rewrite Z.eqb_eq. split; congruence.
Qed.

Lemma Forall2_In_l {A B : Type} (R : A -> B -> Prop) (xs : list A) (ys : list B)
      (x : A) :
  Forall2 R xs ys -> In x xs -> exists y, In y ys /\ R x y.
Proof.
  induction 1 as [|x' y' xs ys HR _ IH]; [contradiction|].
  intros [-> | Hin].
  - exists y'. split; [now left | exact HR].
  - destruct (IH Hin) as (y & Hy & HRy). exists y. split; [now right | exact HRy].
Qed.

Lemma Forall2_In_r {A B : Type} (R : A -> B -> Prop) (xs : list A) (ys : list B)
      (y : B) :
  Forall2 R xs ys -> In y ys -> exists x, In x xs /\ R x y.
Proof.
  induction 1 as [|x' y' xs ys HR _ IH]; [contradiction|].
  intros [-> | Hin].
  - exists x'. split; [now left | exact HR].
  - destruct (IH Hin) as (x & Hx & HRx). exists x. split; [now right | exact HRx].
Qed.

(** A loop whose every iteration returns, returns. *)
Lemma for_each_ok {A B : Type} (body : A -> result B) (P : A -> B -> Prop)
      (xs : list A) :
  Forall (fun x => exists y, body x = Ok y /\ P x y) xs ->
  exists ys, for_each body xs = Ok ys /\ Forall2 P xs ys.
Proof.
  induction 1 as [|x xs (y & Hy & HP) _ (ys & Hys & HF)].
  - exists []. split; [reflexivity | constructor].
  - exists (y :: ys). simpl. rewrite Hy, Hys. split; [reflexivity|].
    now constructor.
Qed.

(* ################################################################# *)
(** * Properties of the query builder and the tabulator *)

Section TabulateFacts.

Context {N : Type}.

Lemma answers_terms (field : string) (aggs : list (string * Agg))
      (r : AggResult N) :
  answers (MkAgg "terms" field aggs) r <->
  exists buckets,
    r = Buckets buckets /\
    NoDup (map fst buckets) /\
    Forall (fun bucket : Bucket N => answers_all aggs (snd bucket)) buckets.
Proof.
  assert (Hall : forall (results : Aggs N),
             (fix all (aggs : list (string * Agg)) : Prop :=
                match aggs with
                | [] => True
                | (name, a) :: aggs =>
                    (exists r, dict_get String.eqb results name = Some r
                               /\ answers a r)
                    /\ all aggs
                end) aggs <-> answers_all aggs results).
  { intros results. unfold answers_all.
    induction aggs as [|[name a] aggs IH].
    - split; [constructor | trivial].
    - rewrite Forall_cons_iff, IH. reflexivity. }
  simpl. split; intros (buckets & -> & Hnd & Hb); exists buckets;
    (split; [reflexivity | split; [exact Hnd|]]);
    eapply Forall_impl; try exact Hb; intros b; apply Hall.
Qed.

(** Tabulating a response to a chain of [terms] buckets around one metric
    aggregation: the leaves of the table are the scalars of the response,
    each under the bucket keys that lead to it followed by the spec. *)
Lemma brb_bucket_chain (module metricset spec agg field : string)
      (axes : list string) (r : Aggs N) :
  String.eqb agg "terms" = false ->
  answers_all (bucket_chain module metricset axes [(spec, MkAgg agg field [])]) r ->
  exists t,
    _brb [spec] r axes = Ok t /\
    forall p x, In (p, x) (flatten t) <->
                exists ks, p = ks ++ [KStr spec] /\
                           raw_value r axes ks spec = Some x.
Proof.
  intros Hagg. revert r. induction axes as [|axis axes IH]; intros r Hr.
  - apply Forall_inv in Hr. destruct Hr as (r0 & Hget & Hans).
    simpl in Hget, Hans. rewrite Hagg in Hans. destruct Hans as [value ->].
    exists (Mapping [(KStr spec, Leaf value)]). split.
    + simpl. unfold getitem. rewrite Hget. reflexivity.
    + intros p x. simpl. split.
      * intros [[= <- <-] | []]. exists []. simpl. now rewrite Hget.
      * intros ([|k ks] & -> & Hraw); simpl in Hraw; [|discriminate].
        rewrite Hget in Hraw. injection Hraw as ->. now left.
  - apply Forall_inv in Hr. destruct Hr as (r0 & Hget & Hans).
    simpl fst in Hget. simpl snd in Hans.
    apply answers_terms in Hans. destruct Hans as (buckets & -> & Hnd & Hb).
    assert (Hitems : exists items,
               for_each (fun bucket : Bucket N =>
                           t <- _brb [spec] (snd bucket) axes ;;
                           Ok (fst bucket, t)) buckets = Ok items /\
               Forall2 (fun (bucket : Bucket N) (kt : key * obj N) =>
                          fst kt = fst bucket /\
                          forall p x, In (p, x) (flatten (snd kt)) <->
                                      exists ks, p = ks ++ [KStr spec] /\
                                                 raw_value (snd bucket) axes ks spec
                                                 = Some x)
                       buckets items).
    { apply for_each_ok. eapply Forall_impl; [|exact Hb].
      intros [k sub] Hsub. simpl in Hsub. destruct (IH sub Hsub) as (t & Ht & Hleaf).
      exists (k, t). simpl. rewrite Ht. simpl. now split. }
    destruct Hitems as (items & Hfor & Hrel).
    assert (Hkeys : map fst items = map fst buckets).
    { clear - Hrel. induction Hrel as [|b kt bs kts [Hk _] _ IHrel]; [reflexivity|].
      simpl. now rewrite Hk, IHrel. }
    exists (Mapping items). split.
    + simpl. unfold getitem. rewrite Hget. simpl.
      change (for_each _ buckets) with
        (for_each (fun bucket : Bucket N =>
                     t <- _brb [spec] (snd bucket) axes ;; Ok (fst bucket, t))
                  buckets).
      rewrite Hfor. simpl.
      rewrite (dict_update_fresh key_eqb key_eqb_eq items []);
        [reflexivity | simpl; now rewrite Hkeys].
    + intros p x. rewrite flatten_Mapping, in_flat_map. split.
      * intros ([k t] & Hin & Hpx). simpl in Hpx.
        apply in_map_iff in Hpx. destruct Hpx as ([p' x'] & [= <- <-] & Hleaf).
        simpl. destruct (Forall2_In_r _ _ _ _ Hrel Hin)
          as ([kb sub] & Hinb & Hk & Hsub).
        simpl in Hk, Hsub. subst kb.
        apply Hsub in Hleaf. destruct Hleaf as (ks & -> & Hraw).
        exists (k :: ks). split; [reflexivity|]. simpl. rewrite Hget.
        now rewrite (In_dict_get key_eqb key_eqb_eq buckets k sub Hnd Hinb).
      * intros ([|k ks] & -> & Hraw); simpl in Hraw; [discriminate|].
        rewrite Hget in Hraw.
        destruct (dict_get key_eqb buckets k) as [sub|] eqn:Hsubget; [|discriminate].
        apply (dict_get_In key_eqb key_eqb_eq) in Hsubget.
        destruct (Forall2_In_l _ _ _ _ Hrel Hsubget) as ([k' t] & Hin & Hk & Hsub).
        simpl in Hk, Hsub. subst k'.
        exists (k, t). split; [exact Hin|]. simpl.
        apply in_map_iff. exists (ks ++ [KStr spec], x). split; [reflexivity|].
        apply Hsub. now exists ks.
Qed.

End TabulateFacts.

Lemma sub_aggs_bucket_chain (module metricset : string) (axes : list string)
      (innermost : list (string * Agg)) :
  sub_aggs axes (bucket_chain module metricset axes innermost) = Some innermost.
Proof.
  induction axes as [|axis axes IH]; [reflexivity|].
  simpl. now rewrite String.eqb_refl.
Qed.

Example full_used_pct : full "system" "memory" ".used.pct" = "system.memory.used.pct".
Proof. reflexivity. Qed.

Example full_qualified : full "system" "memory" "cloud.region" = "cloud.region".
Proof. reflexivity. Qed.

Example unix2es_docstring_1 :
  unix2es (314159 # 100000) = "1970-01-01T00:00:03.141Z".
Proof. reflexivity. Qed.

Example unix2es_docstring_2 : unix2es (inject_Z 3) = "1970-01-01T00:00:03.000Z".
Proof. reflexivity. Qed.

Example tabulate_memory_response :
  build_result_buckets memory_response [".used.pct:avg"] ["cloud.instance.id"]
  = Ok (Mapping [(KStr "i-001", Mapping [(KStr ".used.pct:avg", Leaf 96)]);
                 (KStr "i-002", Mapping [(KStr ".used.pct:avg", Leaf 50)])]).
Proof. reflexivity. Qed.

(** C5.  For the metric spec ".used.pct:avg" with module "system" and
    metricset "memory", the query aggregates the field
    "system.memory.used.pct" with the aggregation "avg" and names that
    innermost aggregation by the spec; tabulating a response to the query
    gives leaves keyed by exactly ".used.pct:avg", each holding the scalar
    that the response has for the bucket keys of its path. *)
Theorem metric_naming_round_trip (now : Q) (axes : list string)
        (with_docs : bool) (window end_time : option Q) :
  exists q,
    build_bucket_search now [".used.pct:avg"] (Some "memory") (Some "system")
                        axes with_docs window end_time = Ok q /\
    sub_aggs axes (search_aggs q)
    = Some [(".used.pct:avg", MkAgg "avg" "system.memory.used.pct" [])] /\
    forall (N : Type) (r : Aggs N),
      answers_all (search_aggs q) r ->
      exists t,
        build_result_buckets r [".used.pct:avg"] axes = Ok t /\
        forall p x,
          In (p, x) (flatten t) <->
          exists ks, p = ks ++ [KStr ".used.pct:avg"] /\
                     raw_value r axes ks ".used.pct:avg" = Some x.
Proof.
  eexists. split; [reflexivity|]. cbn [search_aggs]. split.
  - apply sub_aggs_bucket_chain.
  - intros N r Hr. unfold build_result_buckets.
    eapply brb_bucket_chain; [|exact Hr]. reflexivity.
Qed.

Lemma metric_naming_round_trip_witness :
  exists t,
    build_result_buckets memory_response [".used.pct:avg"] ["cloud.instance.id"]
    = Ok t /\
    forall p x,
      In (p, x) (flatten t) <->
      exists ks, p = ks ++ [KStr ".used.pct:avg"] /\
                 raw_value memory_response ["cloud.instance.id"] ks ".used.pct:avg"
                 = Some x.
Proof.
  destruct (metric_naming_round_trip 0 ["cloud.instance.id"] false None None)
    as (q & Hq & _ & Hround).
  injection Hq as <-. apply Hround. cbn [search_aggs].
  constructor; [|constructor].
  eexists. split; [reflexivity|].
  apply answers_terms. eexists. split; [reflexivity|]. split.
  - repeat constructor; simpl; intuition discriminate.
  - repeat constructor; eexists; (split; [reflexivity|]); simpl; eexists; reflexivity.
Defined.

(* ################################################################# *)
(** * Properties of the events *)

Section EventFacts.

Context {N : Type} `{Number N}.

(** What a leaf must be like for an event to come out, and what the
    event then is. *)
Lemma leaf_event_inv (clock : Z) (c : config N) (k : path) (v : N) (b : body N) :
  leaf_event clock c k v = Ok b ->
  exists metric_spec metric_config severity diag dedup_key,
    last k (KInt 0) = KStr metric_spec /\
    dict_get String.eqb (config_metrics c) metric_spec = Some metric_config /\
    _check_val_against_thresh v metric_config = Ok (severity, diag) /\
    dedup_key_of (map (fun nv => (fst nv, Some (snd nv))) (axis_pairs c k)
                  ++ [(full (config_module c) (config_metricset c) metric_spec,
                       None)]) = Ok dedup_key /\
    body_dedup_key b = dedup_key /\
    match severity with
    | None => body_event_action b = "resolve" /\ body_payload b = None
    | Some s =>
        body_event_action b = "trigger" /\
        exists p,
          body_payload b = Some p /\
          payload_severity p = s /\
          payload_timestamp p = strftime "%Y-%m-%dT%H:%M:%SZ" (gmtime clock) /\
          payload_custom_details p
          = [(full (config_module c) (config_metricset c) metric_spec,
              MetricValue v)]
    end.
Proof.
  unfold leaf_event. cbv zeta.
  destruct (assert _) as [[]|e]; cbn [bind]; [|discriminate].
  destruct (last k (KInt 0)) as [metric_spec|z] eqn:Elast; cbn [bind]; [|discriminate].
  destruct (assert _) as [[]|e]; cbn [bind]; [|discriminate].
  unfold getitem.
  destruct (dict_get String.eqb (config_metrics c) metric_spec)
    as [metric_config|] eqn:Eget; cbn [bind]; [|discriminate].
  destruct (_check_val_against_thresh v metric_config)
    as [[severity diag]|e] eqn:Echeck; cbn [bind]; [|discriminate].
  unfold iterate.
  destruct (dedup_key_of _) as [dedup_key|e] eqn:Ekey; cbn [bind]; [|discriminate].
  intros Hb. exists metric_spec, metric_config, severity, diag, dedup_key.
  split; [reflexivity|]. split; [exact Eget|]. split; [exact Echeck|].
  split; [unfold axis_pairs; cbv zeta; rewrite map_app, <- app_assoc; exact Ekey|].
  destruct severity as [s|]; apply Ok_inj in Hb; subst b;
    cbn [body_dedup_key body_event_action body_payload].
  - split; [reflexivity|]. split; [reflexivity|].
    eexists. split; [reflexivity|].
    cbn [payload_severity payload_timestamp payload_custom_details
         dict_update dict_set fold_left map fst snd].
    split; [reflexivity|]. split; reflexivity.
  - split; [reflexivity|]. split; reflexivity.
Qed.

End EventFacts.

Example memory_leaf_event :
  leaf_event 1551492003 memory_config memory_leaf 96 = Ok memory_trigger_event.
Proof. vm_compute. reflexivity. Qed.

Example memory_leaf_resolve :
  leaf_event 1551492003 memory_config memory_leaf 50
  = Ok {| body_dedup_key := "Tu7cUvCkvtHm3xxN2rO7pum39B2Kd0hNPc0C+Fo9xJ8=";
          body_event_action := "resolve";
          body_payload := None |}.
Proof. vm_compute. reflexivity. Qed.

(** One cycle of the system/memory group, at 2019-03-02 02:00:03 UTC. *)
Example run_memory_config :
  run_config (inject_Z 1551492003) (fun _ => 1551492003)
             (fun _ => memory_store_response) memory_config
  = ([memory_trigger_event; memory_resolve_event], None).
Proof. vm_compute. reflexivity. Qed.


(** C1.  The [custom_details] of a trigger event is meant to be the
    merged mapping of all axis name/value pairs plus the metric name
    mapped to the value.  At the leaf (us-east-1, i-001, .used.pct:avg)
    with value 96 the code puts the metric entry alone in
    [custom_details]: [sorted(chain(...))] has already drawn every pair
    from the two [zip] iterators when [custom_details.update] iterates
    them. *)
Theorem custom_details_misses_axes :
  leaf_event 1551492003 memory_config memory_leaf 96 = Ok memory_trigger_event /\
  body_event_action memory_trigger_event = "trigger" /\
  body_payload memory_trigger_event = Some memory_trigger_payload /\
  payload_custom_details memory_trigger_payload
  = [("system.memory.used.pct:avg", MetricValue 96)] /\
  merged_custom_details memory_config memory_leaf ".used.pct:avg" 96
  = [("cloud.region", AxisValue (KStr "us-east-1"));
     ("cloud.instance.id", AxisValue (KStr "i-001"));
     ("system.memory.used.pct:avg", MetricValue 96)] /\
  payload_custom_details memory_trigger_payload
  <> merged_custom_details memory_config memory_leaf ".used.pct:avg" 96.
Proof.
  split; [exact memory_leaf_event|].
  repeat (split; [reflexivity|]). discriminate.
Qed.

(* ################################################################# *)
(** * Properties of the timestamps *)

(** Checking a property of the integers below [n] by running through
    them. *)
Lemma below_forallb (f : Z -> bool) (n : Z) :
  forallb f (map Z.of_nat (seq 0 (Z.to_nat n))) = true ->
  forall z, 0 <= z < n -> f z = true.
Proof.
  intros Hall z Hz. rewrite forallb_forall in Hall. apply Hall.
  apply in_map_iff. exists (Z.to_nat z). split; [lia|].
  apply in_seq. lia.
Qed.

Lemma two_digits (z : Z) :
  0 <= z < 100 -> matches [Digit; Digit] (zfill 2 (str_int z)) = true.
Proof.
  apply (below_forallb (fun z => matches [Digit; Digit] (zfill 2 (str_int z))) 100).
  vm_compute. reflexivity.
Qed.

Lemma digit_is_digit (d : Z) : 0 <= d < 10 -> is_digit (chr (48 + d)) = true.
Proof.
  apply (below_forallb (fun d => is_digit (chr (48 + d))) 10).
  vm_compute. reflexivity.
Qed.

Lemma four_digits (y : Z) :
  1000 <= y < 10000 -> matches [Digit; Digit; Digit; Digit] (str_int y) = true.
Proof.
  intros Hy. unfold str_int.
  destruct (y <? 0) eqn:Hneg; [apply Z.ltb_lt in Hneg; lia|].
  assert (Hlog : 9 <= Z.log2 y).
  { change 9 with (Z.log2 512). apply Z.log2_le_mono. lia. }
  destruct (Z.to_nat (Z.log2 y)) as [|[|[|fuel]]] eqn:Hfuel; try lia.
  cbn [decimal].
  assert (H1 : (y <? 10) = false) by (apply Z.ltb_ge; lia).
  assert (H2 : (y / 10 <? 10) = false)
    by (apply Z.ltb_ge; Z.div_mod_to_equations; lia).
  assert (H3 : (y / 10 / 10 <? 10) = false)
    by (apply Z.ltb_ge; Z.div_mod_to_equations; lia).
  assert (H4 : (y / 10 / 10 / 10 <? 10) = true)
    by (apply Z.ltb_lt; Z.div_mod_to_equations; lia).
  rewrite H1, H2, H3, H4. cbn [matches].
  rewrite !digit_is_digit by (apply Z.mod_pos_bound; lia).
  reflexivity.
Qed.

Lemma matches_app (p1 p2 : list char_class) (s1 s2 : string) :
  matches p1 s1 = true -> matches p2 s2 = true ->
  matches (p1 ++ p2) (s1 +++ s2) = true.
Proof.
  revert s1. induction p1 as [|cl p1 IH]; intros s1 H1 H2.
  - destruct s1; [exact H2 | discriminate].
  - destruct s1 as [|c s1]; [destruct cl; discriminate|].
    destruct cl; simpl in *; apply andb_prop in H1; destruct H1 as [Hc H1];
      rewrite Hc; simpl; now apply IH.
Qed.

Lemma matches_length (p : list char_class) (s : string) :
  matches p s = true -> String.length s = List.length p.
Proof.
  revert s. induction p as [|cl p IH]; intros [|c s]; simpl; try discriminate.
  - reflexivity.
  - destruct cl; discriminate.
  - destruct cl; intros [_ Hm]%andb_prop; f_equal; now apply IH.
Qed.

(** The years 1970 to 9999 have four digits; day 2932897 is 10000-01-01. *)
Lemma civil_from_days_range (days : Z) :
  0 <= days < 2932897 ->
  let '(y, m, d) := civil_from_days days in
  1970 <= y <= 9999 /\ 1 <= m <= 12 /\ 1 <= d <= 31.
Proof.
  intros Hd. unfold civil_from_days.
  set (z := days + 719468).
  set (era := z / 146097).
  set (doe := z - era * 146097).
  set (yoe := (doe - doe / 1460 + doe / 36524 - doe / 146096) / 365).
  set (doy := doe - (365 * yoe + yoe / 4 - yoe / 100)).
  set (mp := (5 * doy + 2) / 153).
  set (d := doy - (153 * mp + 2) / 5 + 1).
  cbv zeta.
  assert (Hz : 719468 <= z < 3652365) by (subst z; lia).
  assert (Hera : 4 <= era <= 24) by (subst era; Z.div_mod_to_equations; lia).
  assert (Hdoe : 0 <= doe < 146097)
    by (subst doe era; Z.div_mod_to_equations; lia).
  assert (Hyoe : 0 <= yoe <= 399)
    by (subst yoe; clearbody doe; Z.div_mod_to_equations; lia).
  assert (Hdoy : 0 <= doy <= 365)
    by (subst doy yoe; clearbody doe; Z.div_mod_to_equations; lia).
  assert (Hmp : 0 <= mp <= 11)
    by (subst mp; clearbody doy; Z.div_mod_to_equations; lia).
  assert (Hday : 1 <= d <= 31)
    by (subst d mp; clearbody doy; Z.div_mod_to_equations; lia).
  assert (Hy : 1970 <= yoe + era * 400
                       + (if (if mp <? 10 then mp + 3 else mp - 9) <=? 2
                          then 1 else 0) <= 9999).
  { destruct (mp <? 10) eqn:E1; [apply Z.ltb_lt in E1 | apply Z.ltb_ge in E1].
    - destruct (mp + 3 <=? 2) eqn:E2; [apply Z.leb_le in E2; lia|].
      subst mp doy yoe doe era. clearbody z. clear Hd.
      Z.div_mod_to_equations; lia.
    - destruct (mp - 9 <=? 2) eqn:E2; [|apply Z.leb_gt in E2; lia].
      subst mp doy yoe doe era. clearbody z. clear Hd.
      Z.div_mod_to_equations; lia. }
  split; [exact Hy|]. split; [|exact Hday].
  destruct (mp <? 10) eqn:E1; [apply Z.ltb_lt in E1 | apply Z.ltb_ge in E1]; lia.
Qed.

Lemma gmtime_range (clock : Z) :
  0 <= clock < 253402300800 ->
  1970 <= tm_year (gmtime clock) <= 9999 /\
  1 <= tm_mon (gmtime clock) <= 12 /\
  1 <= tm_mday (gmtime clock) <= 31 /\
  0 <= tm_hour (gmtime clock) <= 23 /\
  0 <= tm_min (gmtime clock) <= 59 /\
  0 <= tm_sec (gmtime clock) <= 59.
Proof.
  intros Hc. unfold gmtime.
  assert (Hd : 0 <= clock / 86400 < 2932897) by (Z.div_mod_to_equations; lia).
  pose proof (civil_from_days_range _ Hd) as Hcivil.
  destruct (civil_from_days (clock / 86400)) as [[y m] d].
  cbn [tm_year tm_mon tm_mday tm_hour tm_min tm_sec].
  destruct Hcivil as (Hy & Hm & Hday).
  repeat split; try lia; Z.div_mod_to_equations; lia.
Qed.

(** The date and time of a clock reading, as [strftime] prints them. *)
Lemma strftime_date_time (clock : Z) :
  0 <= clock < 253402300800 ->
  matches DATE_TIME (strftime "%Y-%m-%dT%H:%M:%S" (gmtime clock)) = true.
Proof.
  intros Hc. destruct (gmtime_range clock Hc) as (Hy & Hm & Hd & Hh & Hmin & Hs).
  change (strftime "%Y-%m-%dT%H:%M:%S" (gmtime clock))
    with (str_int (tm_year (gmtime clock))
          +++ "-" +++ zfill 2 (str_int (tm_mon (gmtime clock)))
          +++ "-" +++ zfill 2 (str_int (tm_mday (gmtime clock)))
          +++ "T" +++ zfill 2 (str_int (tm_hour (gmtime clock)))
          +++ ":" +++ zfill 2 (str_int (tm_min (gmtime clock)))
          +++ ":" +++ zfill 2 (str_int (tm_sec (gmtime clock)))
          +++ EmptyString).
  change DATE_TIME
    with ([Digit; Digit; Digit; Digit]
          ++ [Lit "-"] ++ [Digit; Digit] ++ [Lit "-"] ++ [Digit; Digit]
          ++ [Lit "T"] ++ [Digit; Digit] ++ [Lit ":"] ++ [Digit; Digit]
          ++ [Lit ":"] ++ [Digit; Digit] ++ []).
  repeat first [ apply matches_app
               | apply four_digits; lia
               | apply two_digits; lia
               | reflexivity ].
Qed.

Lemma append_assoc (a b c : string) : (a +++ b) +++ c = a +++ b +++ c.
Proof. induction a as [|x a IH]; simpl; [reflexivity | now rewrite IH]. Qed.

Lemma strftime_Z (t : struct_time) :
  strftime "%Y-%m-%dT%H:%M:%SZ" t = strftime "%Y-%m-%dT%H:%M:%S" t +++ "Z".
Proof.
  change (strftime "%Y-%m-%dT%H:%M:%SZ" t)
    with (directive "Y" t +++ "-" +++ directive "m" t +++ "-" +++ directive "d" t
          +++ "T" +++ directive "H" t +++ ":" +++ directive "M" t
          +++ ":" +++ directive "S" t +++ "Z").
  change (strftime "%Y-%m-%dT%H:%M:%S" t)
    with (directive "Y" t +++ "-" +++ directive "m" t +++ "-" +++ directive "d" t
          +++ "T" +++ directive "H" t +++ ":" +++ directive "M" t
          +++ ":" +++ directive "S" t +++ EmptyString).
  now rewrite !append_assoc.
Qed.

Section TimestampFacts.

Context {N : Type} `{Number N}.

(** C9, at the precision of the code.  Every trigger event carries a timestamp in
    ISO-8601 UTC format with second precision, of the form
    YYYY-MM-DDThh:mm:ssZ (for clock readings from 1970 to the end of the
    year 9999); it has no fraction of a second. *)
Theorem trigger_timestamp_seconds (clock : Z) (c : config N) (k : path) (v : N)
        (b : body N) (p : payload N) :
  0 <= clock < 253402300800 ->
  leaf_event clock c k v = Ok b ->
  body_payload b = Some p ->
  matches ISO_SECONDS (payload_timestamp p) = true /\
  matches ISO_MILLIS (payload_timestamp p) = false.
Proof.
  intros Hclock Hb Hp.
  apply leaf_event_inv in Hb.
  destruct Hb as (metric_spec & metric_config & severity & diag & dk
                  & _ & _ & _ & _ & _ & Hsev).
  destruct severity as [s|]; [|destruct Hsev as [_ Hnone]; congruence].
  destruct Hsev as (_ & p' & Hp' & _ & Hts & _).
  assert (p' = p) by congruence. subst p'.
  assert (Hsec : matches ISO_SECONDS (payload_timestamp p) = true).
  { rewrite Hts, strftime_Z. unfold ISO_SECONDS.
    apply matches_app; [now apply strftime_date_time | reflexivity]. }
  split; [exact Hsec|].
  destruct (matches ISO_MILLIS (payload_timestamp p)) eqn:Hms; [|reflexivity].
  apply matches_length in Hsec, Hms. rewrite Hsec in Hms. discriminate.
Qed.

End TimestampFacts.

(** C9 with millisecond precision does not hold: the trigger event of the leaf
    (us-east-1, i-001, .used.pct:avg) with value 96, made at
    2019-03-02 02:00:03 UTC, has the timestamp 2019-03-02T02:00:03Z,
    which is not of the form YYYY-MM-DDThh:mm:ss.mmmZ. *)
Lemma trigger_timestamp_not_millis :
  leaf_event 1551492003 memory_config memory_leaf 96 = Ok memory_trigger_event /\
  body_event_action memory_trigger_event = "trigger" /\
  body_payload memory_trigger_event = Some memory_trigger_payload /\
  payload_timestamp memory_trigger_payload = "2019-03-02T02:00:03Z" /\
  matches ISO_MILLIS (payload_timestamp memory_trigger_payload) = false.
Proof.
  split; [exact memory_leaf_event|]. repeat split.
Qed.

Lemma trigger_timestamp_seconds_witness :
  matches ISO_SECONDS (payload_timestamp memory_trigger_payload) = true /\
  matches ISO_MILLIS (payload_timestamp memory_trigger_payload) = false.
Proof.
  apply (trigger_timestamp_seconds 1551492003 memory_config memory_leaf 96
                                   memory_trigger_event memory_trigger_payload).
  - lia.
  - exact memory_leaf_event.
  - reflexivity.
Defined.

(* ################################################################# *)
(** * Properties of the dedup key *)

Lemma b64_digit_alphabet (i : Z) : base64_char (chr (b64_digit i)) = true.
Proof.
  unfold b64_digit.
  assert (Hrange : 0 <= Z.land i 0x3f < 64).
  { change 0x3f with (Z.ones 6). rewrite Z.land_ones by lia.
    apply Z.mod_pos_bound. reflexivity. }
  revert Hrange. generalize (Z.land i 0x3f) as j. intros j Hj.
  apply (below_forallb
           (fun j => base64_char
                       (chr match String.get (Z.to_nat j) b64_alphabet with
                            | Some c => ord c
                            | None => ord "="
                            end)) 64); [vm_compute; reflexivity | exact Hj].
Qed.

Lemma b64encode_alphabet (b : bytes) :
  Forall (fun x => base64_char (chr x) = true) (b64encode b).
Proof.
  revert b. fix IH 1. intros [|x [|y [|z b]]]; simpl.
  - constructor.
  - repeat constructor; apply b64_digit_alphabet.
  - repeat constructor; apply b64_digit_alphabet.
  - repeat (constructor; [apply b64_digit_alphabet|]). apply IH.
Qed.

Lemma sha256_length (message : bytes) : List.length (sha256 message) = 32%nat.
Proof.
  unfold sha256, SHA256.digest. cbv zeta.
  rewrite !length_app. unfold SHA256.big_endian. rewrite !length_map.
  reflexivity.
Qed.

(** The Base64 form of 32 bytes: 43 digits and one padding character. *)
Lemma b64encode_32 (b : bytes) :
  List.length b = 32%nat ->
  List.length (b64encode b) = 44%nat /\ nth_error (b64encode b) 43 = Some (ord "=").
Proof.
  intros Hlen.
  do 33 (destruct b as [|? b]; try discriminate Hlen).
  split; reflexivity.
Qed.

Lemma list_ascii_of_decode (b : bytes) :
  list_ascii_of_string (decode b) = map chr b.
Proof. unfold decode. apply list_ascii_of_string_of_list_ascii. Qed.

Lemma length_decode (b : bytes) : String.length (decode b) = List.length b.
Proof.
  unfold decode. rewrite <- length_map with (f := chr).
  generalize (map chr b) as l. induction l as [|c l IH]; simpl; congruence.
Qed.

Lemma get_decode (b : bytes) (n : nat) :
  String.get n (decode b) = option_map chr (nth_error b n).
Proof.
  unfold decode. revert n. induction b as [|x b IH]; intros [|n]; simpl;
    try reflexivity. apply IH.
Qed.

(** The key made from any items is the Base64 text of a 32-byte digest. *)
Lemma dedup_key_of_base64 (chained : list (string * option key)) (k : string) :
  dedup_key_of chained = Ok k ->
  exists all_items,
    sorted chained = Ok all_items /\
    k = decode (b64encode (sha256 (encode (json_dumps all_items)))) /\
    String.length k = 44%nat /\
    Forall (fun c => base64_char c = true) (list_ascii_of_string k) /\
    String.get 43 k = Some "="%char.
Proof.
  unfold dedup_key_of.
  destruct (sorted chained) as [all_items|e]; cbn [bind]; [|discriminate].
  intros Hk. apply Ok_inj in Hk. subst k. exists all_items.
  pose proof (sha256_length (encode (json_dumps all_items))) as Hdigest.
  revert Hdigest. generalize (sha256 (encode (json_dumps all_items))) as digest.
  intros digest Hdigest.
  destruct (b64encode_32 digest Hdigest) as [Hlen Hpad].
  split; [reflexivity|]. split; [reflexivity|]. split; [|split].
  - rewrite length_decode. exact Hlen.
  - rewrite list_ascii_of_decode. apply Forall_map. apply b64encode_alphabet.
  - rewrite get_decode, Hpad. reflexivity.
Qed.

Section KeyAlphabet.

Context {N : Type} `{Number N}.

(** C8, with the alphabet of the code.  The dedup key of every event is the
    standard Base64 text ([b64encode]: the alphabet A-Z a-z 0-9 + / and
    the padding =) of the SHA-256 digest of the JSON text of the sorted
    pair list: 44 characters of that alphabet, the last one the
    padding. *)
Theorem dedup_key_standard_base64 (clock : Z) (c : config N) (k : path) (v : N)
        (b : body N) :
  leaf_event clock c k v = Ok b ->
  exists metric_spec all_items,
    last k (KInt 0) = KStr metric_spec /\
    sorted (map (fun nv => (fst nv, Some (snd nv))) (axis_pairs c k)
            ++ [(full (config_module c) (config_metricset c) metric_spec, None)])
    = Ok all_items /\
    body_dedup_key b
    = decode (b64encode (sha256 (encode (json_dumps all_items)))) /\
    String.length (body_dedup_key b) = 44%nat /\
    Forall (fun c => base64_char c = true)
           (list_ascii_of_string (body_dedup_key b)) /\
    String.get 43 (body_dedup_key b) = Some "="%char.
Proof.
  intros Hb. apply leaf_event_inv in Hb.
  destruct Hb as (metric_spec & metric_config & severity & diag & dk
                  & Hlast & _ & _ & Hkey & Hdk & _).
  apply dedup_key_of_base64 in Hkey.
  destruct Hkey as (all_items & Hsorted & Heq & Hlen & Hchars & Hpad).
  exists metric_spec, all_items. rewrite Hdk.
  repeat (split; [assumption|]). assumption.
Qed.

End KeyAlphabet.

(** C8 with a URL-safe alphabet does not hold: the key of the leaf (us-east-1, i-001,
    .used.pct:avg) has a "+" in it, which the URL-safe alphabet
    (A-Z a-z 0-9 - _ and the padding =) does not have. *)
Lemma dedup_key_not_url_safe :
  leaf_event 1551492003 memory_config memory_leaf 96 = Ok memory_trigger_event /\
  body_dedup_key memory_trigger_event
  = "Tu7cUvCkvtHm3xxN2rO7pum39B2Kd0hNPc0C+Fo9xJ8=" /\
  In "+"%char (list_ascii_of_string (body_dedup_key memory_trigger_event)) /\
  url_safe "+" = false /\
  forallb url_safe (list_ascii_of_string (body_dedup_key memory_trigger_event))
  = false.
Proof.
  split; [exact memory_leaf_event|]. split; [reflexivity|].
  split; [|split; reflexivity].
  simpl. do 36 right. now left.
Qed.

Lemma dedup_key_standard_base64_witness :
  exists metric_spec all_items,
    last memory_leaf (KInt 0) = KStr metric_spec /\
    sorted (map (fun nv => (fst nv, Some (snd nv)))
                (axis_pairs memory_config memory_leaf)
            ++ [(full "system" "memory" metric_spec, None)])
    = Ok all_items /\
    body_dedup_key memory_trigger_event
    = decode (b64encode (sha256 (encode (json_dumps all_items)))) /\
    String.length (body_dedup_key memory_trigger_event) = 44%nat /\
    Forall (fun c => base64_char c = true)
           (list_ascii_of_string (body_dedup_key memory_trigger_event)) /\
    String.get 43 (body_dedup_key memory_trigger_event) = Some "="%char.
Proof.
  apply (dedup_key_standard_base64 1551492003 memory_config memory_leaf 96
                                   memory_trigger_event).
  exact memory_leaf_event.
Defined.

(* ################################################################# *)
(** * The order of tuples and the sort *)

Lemma string_compare_refl (s : string) : String.compare s s = Eq.
Proof.
  pose proof (String.compare_antisym s s) as Ha.
  destruct (String.compare s s); simpl in Ha; congruence.
Qed.

Lemma string_compare_trans (a b c : string) :
  String.compare a b = Lt -> String.compare b c = Lt -> String.compare a c = Lt.
Proof.
  intros Hab Hbc. apply String_as_OT.cmp_lt.
  apply String_as_OT.lt_trans with b; apply String_as_OT.cmp_lt; assumption.
Qed.

Lemma string_compare_Gt (a b : string) :
  String.compare a b = Gt <-> String.compare b a = Lt.
Proof.
  rewrite (String.compare_antisym a b).
  destruct (String.compare b a); simpl; split; congruence.
Qed.

Lemma string_eqb_compare (a b : string) :
  String.eqb a b = match String.compare a b with Eq => true | _ => false end.
Proof.
  destruct (String.eqb_spec a b) as [-> | Hne].
  - now rewrite string_compare_refl.
  - destruct (String.compare a b) eqn:E; try reflexivity.
    apply String.compare_eq_iff in E. contradiction.
Qed.

Lemma value_cmp_refl (v : option key) : value_cmp v v = Eq.
Proof.
  destruct v as [[s | x]|]; simpl.
  - apply string_compare_refl.
  - apply Z.compare_refl.
  - reflexivity.
Qed.

Lemma value_cmp_eq (v w : option key) : value_cmp v w = Eq -> v = w.
Proof.
  destruct v as [[s | x]|], w as [[t | y]|]; simpl; try discriminate.
  - intros E. apply String.compare_eq_iff in E. now subst.
  - intros E. apply Z.compare_eq_iff in E. now subst.
  - reflexivity.
Qed.

Lemma value_cmp_Gt (v w : option key) : value_cmp v w = Gt <-> value_cmp w v = Lt.
Proof.
  destruct v as [[s | x]|], w as [[t | y]|]; simpl;
    try apply string_compare_Gt; try apply Z.gt_lt_iff;
    split; discriminate || reflexivity.
Qed.

Lemma value_cmp_trans (u v w : option key) :
  value_cmp u v = Lt -> value_cmp v w = Lt -> value_cmp u w = Lt.
Proof.
  destruct u as [[s | x]|], v as [[t | y]|], w as [[r | z]|]; simpl;
    try discriminate; try reflexivity.
  - apply string_compare_trans.
  - rewrite !Z.compare_lt_iff. lia.
Qed.

Lemma item_cmp_refl (a : string * option key) : item_cmp a a = Eq.
Proof.
  unfold item_cmp. rewrite string_compare_refl. apply value_cmp_refl.
Qed.

Lemma item_cmp_eq (a b : string * option key) : item_cmp a b = Eq -> a = b.
Proof.
  unfold item_cmp. destruct a as [n v], b as [m w]. simpl.
  destruct (String.compare n m) eqn:E; try discriminate.
  apply String.compare_eq_iff in E. intros Hv%value_cmp_eq. now subst.
Qed.

Lemma item_cmp_Gt (a b : string * option key) :
  item_cmp a b = Gt <-> item_cmp b a = Lt.
Proof.
  unfold item_cmp. rewrite (String.compare_antisym (fst b) (fst a)).
  destruct (String.compare (fst a) (fst b)); simpl.
  - apply value_cmp_Gt.
  - split; discriminate.
  - split; reflexivity.
Qed.

Lemma item_cmp_trans (a b c : string * option key) :
  item_cmp a b = Lt -> item_cmp b c = Lt -> item_cmp a c = Lt.
Proof.
  unfold item_cmp.
  destruct (String.compare (fst a) (fst b)) eqn:Eab; try discriminate;
    destruct (String.compare (fst b) (fst c)) eqn:Ebc; try discriminate;
    intros Hab Hbc.
  - apply String.compare_eq_iff in Eab, Ebc. rewrite Eab, Ebc.
    rewrite string_compare_refl. eapply value_cmp_trans; eassumption.
  - apply String.compare_eq_iff in Eab. now rewrite Eab, Ebc.
  - apply String.compare_eq_iff in Ebc. now rewrite <- Ebc, Eab.
  - now rewrite (string_compare_trans _ _ _ Eab Ebc).
Qed.

Lemma item_le_refl (a : string * option key) : item_le a a.
Proof. unfold item_le. now rewrite item_cmp_refl. Qed.

Lemma item_le_antisym (a b : string * option key) :
  item_le a b -> item_le b a -> a = b.
Proof.
  unfold item_le. intros Hab Hba. apply item_cmp_eq.
  destruct (item_cmp a b) eqn:E; [reflexivity | | contradiction].
  exfalso. apply Hba. now apply item_cmp_Gt.
Qed.

Lemma item_le_trans (a b c : string * option key) :
  item_le a b -> item_le b c -> item_le a c.
Proof.
  unfold item_le. intros Hab Hbc.
  destruct (item_cmp a b) eqn:Eab; [| |contradiction].
  - apply item_cmp_eq in Eab. now subst.
  - destruct (item_cmp b c) eqn:Ebc; [| |contradiction].
    + apply item_cmp_eq in Ebc. subst. now rewrite Eab.
    + now rewrite (item_cmp_trans _ _ _ Eab Ebc).
Qed.

Lemma not_before_le (x y : string * option key) :
  item_before x y = false -> item_le y x.
Proof.
  unfold item_before, item_le. intros Hb Hgt.
  apply item_cmp_Gt in Hgt. now rewrite Hgt in Hb.
Qed.

Lemma before_le (x y : string * option key) :
  item_before x y = true -> item_le x y.
Proof.
  unfold item_before, item_le. destruct (item_cmp x y); congruence.
Qed.

(** Names are in order along the order of tuples. *)
Lemma item_le_names (a b : string * option key) :
  item_le a b -> String.compare (fst a) (fst b) <> Gt.
Proof.
  unfold item_le, item_cmp. destruct (String.compare (fst a) (fst b)); congruence.
Qed.

Lemma names_squeezed (a b c : string) :
  String.compare a b <> Gt -> String.compare b c <> Gt -> a = c -> a = b.
Proof.
  intros Hab Hbc <-. apply String.compare_eq_iff.
  destruct (String.compare a b) eqn:E; [reflexivity | | contradiction].
  exfalso. apply Hbc. now apply string_compare_Gt.
Qed.

(** ** Python's [<] against the order *)

Lemma comparable_refl (a : string * option key) : comparable a a.
Proof. now right. Qed.

Lemma comparable_sym (a b : string * option key) : comparable a b -> comparable b a.
Proof. intros [Hn | Hk]; [left | right]; congruence. Qed.

Lemma value_eqb_eq (v w : option key) : value_eqb v w = true <-> v = w.
Proof.
  destruct v as [a|], w as [b|]; simpl; try (split; congruence).
  rewrite key_eqb_eq. split; congruence.
Qed.

Lemma item_lt_comparable (a b : string * option key) :
  comparable a b -> item_lt a b = Ok (item_before a b).
Proof.
  unfold comparable, item_lt, item_before, item_cmp.
  destruct a as [n v], b as [m w]. cbn [fst snd]. intros Hcmp.
  rewrite string_eqb_compare. unfold String.ltb.
  destruct (String.compare n m) eqn:En; cbn [negb]; try reflexivity.
  apply String.compare_eq_iff in En.
  destruct Hcmp as [Hne | Hkind]; [contradiction|].
  destruct (value_eqb v w) eqn:Ev; cbn [negb].
  - apply value_eqb_eq in Ev. subst w. now rewrite value_cmp_refl.
  - destruct v as [[s | x]|], w as [[t | y]|]; simpl in *; try discriminate.
    + reflexivity.
    + unfold Z.ltb. reflexivity.
Qed.

Lemma item_lt_returns (a b : string * option key) (r : bool) :
  item_lt a b = Ok r -> comparable a b.
Proof.
  unfold comparable, item_lt. destruct a as [n v], b as [m w]. cbn [fst snd].
  destruct (String.eqb_spec n m) as [-> | Hne]; cbn [negb]; [|now left].
  intros Hlt. right.
  destruct (value_eqb v w) eqn:Ev; cbn [negb] in Hlt.
  - apply value_eqb_eq in Ev. now subst.
  - destruct v as [[s | x]|], w as [[t | y]|]; simpl in *; congruence.
Qed.

Lemma item_lt_raises (a b : string * option key) (e : exn) :
  item_lt a b = Raise e -> e = TypeError.
Proof.
  unfold item_lt. destruct (negb _); [discriminate|].
  destruct (negb _); [|discriminate].
  destruct (snd a) as [[s | x]|], (snd b) as [[t | y]|]; simpl; congruence.
Qed.

(** ** The sort *)

Lemma insert_total_perm (x : string * option key) (s : list (string * option key)) :
  Permutation (insert_total x s) (x :: s).
Proof.
  induction s as [|y s IH]; simpl; [reflexivity|].
  destruct (item_before x y); [reflexivity|].
  rewrite IH. apply perm_swap.
Qed.

Lemma insert_total_sorted (x : string * option key)
      (s : list (string * option key)) :
  StronglySorted item_le s -> StronglySorted item_le (insert_total x s).
Proof.
  induction 1 as [|y s Hs IH Hall]; simpl.
  - repeat constructor.
  - destruct (item_before x y) eqn:E.
    + constructor; [now constructor|].
      apply before_le in E. constructor; [exact E|].
      eapply Forall_impl; [|exact Hall]. intros z Hz.
      now apply item_le_trans with y.
    + constructor; [exact IH|].
      apply not_before_le in E.
      rewrite (insert_total_perm x s). now constructor.
Qed.

Lemma fold_insert_total (items acc : list (string * option key)) :
  StronglySorted item_le acc ->
  StronglySorted item_le (fold_left (fun acc x => insert_total x acc) items acc)
  /\ Permutation (fold_left (fun acc x => insert_total x acc) items acc)
                 (acc ++ items).
Proof.
  revert acc. induction items as [|x items IH]; intros acc Hacc; simpl.
  - split; [exact Hacc | now rewrite app_nil_r].
  - destruct (IH (insert_total x acc) (insert_total_sorted x acc Hacc))
      as [Hs Hp].
    split; [exact Hs|]. rewrite Hp, insert_total_perm.
    apply Permutation_middle.
Qed.

(** Two sorted lists with the same items are the same list. *)
Lemma sorted_unique (s1 s2 : list (string * option key)) :
  StronglySorted item_le s1 -> StronglySorted item_le s2 ->
  Permutation s1 s2 -> s1 = s2.
Proof.
  intros H1. revert s2. induction H1 as [|a s1 Hs1 IH Ha]; intros s2 H2 Hperm.
  - apply Permutation_nil in Hperm. now subst.
  - destruct H2 as [|b s2 Hs2 Hb].
    + apply Permutation_sym, Permutation_nil in Hperm. discriminate.
    + assert (Hab : a = b).
      { apply item_le_antisym.
        - assert (Hin : In b (a :: s1))
            by (apply (Permutation_in _ (Permutation_sym Hperm)); now left).
          destruct Hin as [-> | Hin]; [apply item_le_refl|].
          rewrite Forall_forall in Ha. now apply Ha.
        - assert (Hin : In a (b :: s2))
            by (apply (Permutation_in _ Hperm); now left).
          destruct Hin as [-> | Hin]; [apply item_le_refl|].
          rewrite Forall_forall in Hb. now apply Hb. }
      subst b. f_equal. apply IH; [exact Hs2|].
      now apply Permutation_cons_inv with a.
Qed.

Lemma sort_total_perm_invariant (items1 items2 : list (string * option key)) :
  Permutation items1 items2 -> sort_total items1 = sort_total items2.
Proof.
  intros Hperm. unfold sort_total.
  destruct (fold_insert_total items1 [] (SSorted_nil _)) as [Hs1 Hp1].
  destruct (fold_insert_total items2 [] (SSorted_nil _)) as [Hs2 Hp2].
  apply sorted_unique; [exact Hs1 | exact Hs2|].
  rewrite Hp1, Hp2. simpl. exact Hperm.
Qed.

(** Where every comparison is defined, [insert] and [sorted] are the
    total ones. *)
Lemma insert_comparable (x : string * option key)
      (s : list (string * option key)) :
  Forall (comparable x) s -> insert x s = Ok (insert_total x s).
Proof.
  induction 1 as [|y s Hy _ IH]; simpl; [reflexivity|].
  rewrite (item_lt_comparable x y Hy). cbn [bind].
  destruct (item_before x y); [reflexivity|].
  now rewrite IH.
Qed.

Lemma pairwise_comparable_perm (l1 l2 : list (string * option key)) :
  Permutation l1 l2 -> pairwise_comparable l1 -> pairwise_comparable l2.
Proof.
  intros Hperm Hl1 a b Ha Hb.
  apply Hl1; apply (Permutation_in _ (Permutation_sym Hperm)); assumption.
Qed.

Lemma fold_insert_comparable (items acc : list (string * option key)) :
  pairwise_comparable (acc ++ items) ->
  fold_left (fun acc x => acc <- acc ;; insert x acc) items (Ok acc)
  = Ok (fold_left (fun acc x => insert_total x acc) items acc).
Proof.
  revert acc. induction items as [|x items IH]; intros acc Hcmp; simpl;
    [reflexivity|].
  rewrite insert_comparable.
  - apply IH. eapply pairwise_comparable_perm; [|exact Hcmp].
    rewrite insert_total_perm. symmetry. apply Permutation_middle.
  - apply Forall_forall. intros y Hy.
    apply Hcmp; apply in_or_app; [right; now left | now left].
Qed.

Lemma sorted_comparable (items : list (string * option key)) :
  pairwise_comparable items -> sorted items = Ok (sort_total items).
Proof. intros Hcmp. now apply fold_insert_comparable. Qed.

(** ** When [sorted] returns, every comparison was defined *)

Lemma fold_insert_raise (items : list (string * option key)) (e : exn) :
  fold_left (fun acc x => acc <- acc ;; insert x acc) items (Raise e) = Raise e.
Proof. induction items as [|x items IH]; simpl; [reflexivity | exact IH]. Qed.

Lemma insert_raises (x : string * option key) (s : list (string * option key))
      (e : exn) :
  insert x s = Raise e -> e = TypeError.
Proof.
  induction s as [|y s IH]; simpl; [discriminate|].
  destruct (item_lt x y) as [[|]|e'] eqn:E; cbn [bind].
  - discriminate.
  - destruct (insert x s) as [rest|e'']; cbn [bind]; [discriminate|].
    intros [= <-]. now apply IH.
  - intros [= <-]. now apply item_lt_raises in E.
Qed.

(** An item that [insert] could place in a sorted list of comparable
    items is comparable with all of them, also with those it was not
    compared with. *)
Lemma insert_returns (x : string * option key) (s r : list (string * option key)) :
  StronglySorted item_le s -> pairwise_comparable s ->
  insert x s = Ok r -> Forall (comparable x) s.
Proof.
  intros Hs. revert r. induction Hs as [|y s Hs IH Hy]; intros r Hcmp; simpl.
  - constructor.
  - destruct (item_lt x y) as [lt|e] eqn:Elt; cbn [bind]; [|discriminate].
    pose proof (item_lt_returns _ _ _ Elt) as Hxy.
    rewrite (item_lt_comparable _ _ Hxy) in Elt. apply Ok_inj in Elt. subst lt.
    destruct (item_before x y) eqn:Ebefore.
    + intros _. constructor; [exact Hxy|].
      apply Forall_forall. intros z Hz.
      destruct (String.eqb_spec (fst x) (fst z)) as [Hname | Hname];
        [right | now left].
      assert (Hxyn : fst x = fst y).
      { apply (names_squeezed _ _ (fst z)).
        - apply item_le_names. now apply before_le.
        - apply item_le_names. rewrite Forall_forall in Hy. now apply Hy.
        - exact Hname. }
      destruct Hxy as [Hne | Hkxy]; [contradiction|].
      destruct (Hcmp y z (or_introl eq_refl) (or_intror Hz)) as [Hne | Hkyz];
        [congruence | congruence].
    + destruct (insert x s) as [rest|e] eqn:Eins; cbn [bind]; [|discriminate].
      intros _. constructor; [exact Hxy|].
      apply (IH rest); [|reflexivity].
      intros a b Ha Hb. apply Hcmp; now right.
Qed.

Lemma fold_insert_returns (items acc r : list (string * option key)) :
  StronglySorted item_le acc -> pairwise_comparable acc ->
  fold_left (fun acc x => acc <- acc ;; insert x acc) items (Ok acc) = Ok r ->
  pairwise_comparable (acc ++ items).
Proof.
  revert acc. induction items as [|x items IH]; intros acc Hs Hcmp; simpl.
  - intros _. now rewrite app_nil_r.
  - destruct (insert x acc) as [acc'|e] eqn:Eins;
      [|now rewrite fold_insert_raise].
    pose proof (insert_returns x acc acc' Hs Hcmp Eins) as Hx.
    rewrite (insert_comparable x acc Hx) in Eins. apply Ok_inj in Eins. subst acc'.
    assert (Hcmp' : pairwise_comparable (insert_total x acc)).
    { apply (pairwise_comparable_perm (x :: acc));
        [now rewrite insert_total_perm|].
      rewrite Forall_forall in Hx.
      intros a b [<- | Ha] [<- | Hb].
      - apply comparable_refl.
      - now apply Hx.
      - apply comparable_sym. now apply Hx.
      - now apply Hcmp. }
    intros Hfold.
    specialize (IH _ (insert_total_sorted x acc Hs) Hcmp' Hfold).
    eapply pairwise_comparable_perm; [|exact IH].
    rewrite insert_total_perm. apply Permutation_middle.
Qed.

Lemma sorted_returns (items r : list (string * option key)) :
  sorted items = Ok r -> pairwise_comparable items.
Proof.
  intros Hsorted.
  apply (fold_insert_returns items [] r); [constructor | intros a b [] | exact Hsorted].
Qed.

Lemma sorted_raises (items : list (string * option key)) (e : exn) :
  sorted items = Raise e -> e = TypeError.
Proof.
  unfold sorted. generalize (@nil (string * option key)) as acc.
  induction items as [|x items IH]; intros acc; simpl; [discriminate|].
  destruct (insert x acc) as [acc'|e'] eqn:Eins.
  - apply IH.
  - rewrite fold_insert_raise. intros [= <-]. now apply insert_raises in Eins.
Qed.

(** [sorted] does not depend on the order of its input. *)
Lemma sorted_perm_invariant (items1 items2 : list (string * option key)) :
  Permutation items1 items2 -> sorted items1 = sorted items2.
Proof.
  intros Hperm.
  assert (Hgood : forall l1 l2 r,
             Permutation l1 l2 -> sorted l1 = Ok r -> sorted l2 = Ok r).
  { intros l1 l2 r Hp Hr. pose proof (sorted_returns _ _ Hr) as Hc1.
    rewrite (sorted_comparable _ Hc1) in Hr.
    rewrite (sorted_comparable l2 (pairwise_comparable_perm _ _ Hp Hc1)).
    now rewrite <- (sort_total_perm_invariant _ _ Hp). }
  destruct (sorted items1) as [r1|e1] eqn:E1.
  - symmetry. now apply (Hgood items1).
  - destruct (sorted items2) as [r2|e2] eqn:E2.
    + rewrite (Hgood items2 items1 r2 (Permutation_sym Hperm) E2) in E1.
      discriminate.
    + apply sorted_raises in E1, E2. congruence.
Qed.

Lemma dedup_key_of_perm_invariant (chained1 chained2 : list (string * option key)) :
  Permutation chained1 chained2 -> dedup_key_of chained1 = dedup_key_of chained2.
Proof.
  intros Hperm. unfold dedup_key_of.
  now rewrite (sorted_perm_invariant _ _ Hperm).
Qed.

Section KeyIdentity.

Context {N : Type} `{Number N}.

(** Every event that the loop posts is the event of the leaf at the same
    position. *)
Lemma post_events_nth (clock : nat -> Z) (c : config N) (leaves : list (path * N))
      (i : nat) (posted : list (body N)) (e : option exn) (n : nat) (b : body N) :
  post_events clock c i leaves = (posted, e) ->
  nth_error posted n = Some b ->
  exists k v, nth_error leaves n = Some (k, v) /\
              leaf_event (clock (i + n)%nat) c k v = Ok b.
Proof.
  revert i posted n. induction leaves as [|[k v] leaves IH]; intros i posted n; simpl.
  - intros [= <- <-]. destruct n; discriminate.
  - destruct (leaf_event (clock i) c k v) as [b0|e0] eqn:Eleaf.
    + destruct (post_events clock c (S i) leaves) as [posted' e'] eqn:Erest.
      intros [= <- <-]. destruct n as [|n]; simpl.
      * intros [= <-]. exists k, v. rewrite Nat.add_0_r. now split.
      * intros Hn. destruct (IH (S i) posted' n Erest Hn) as (k' & v' & Hk & Hev).
        exists k', v'. split; [exact Hk|].
        now replace (i + S n)%nat with (S i + n)%nat by lia.
    + intros [= <- <-]. destruct n; discriminate.
Qed.

(** C4.  The dedup key is a function of the axis name/value pairs and
    the fully qualified metric name alone.  Supplying the axis pairs in
    another order gives the same key; the key of an event is the key of
    the axis pairs and metric name of its leaf, whatever the value, the
    clock, the thresholds and the other metrics of the group, and
    whatever the position of the leaf among the leaves of the cycle. *)
Theorem dedup_key_deterministic :
  (forall (pairs1 pairs2 : list (string * key)) (metric_name : string),
      Permutation pairs1 pairs2 ->
      dedup_key_of (map (fun nv => (fst nv, Some (snd nv))) pairs1
                    ++ [(metric_name, None)])
      = dedup_key_of (map (fun nv => (fst nv, Some (snd nv))) pairs2
                      ++ [(metric_name, None)])) /\
  (forall (clock : Z) (c : config N) (k : path) (v : N) (b : body N),
      leaf_event clock c k v = Ok b ->
      exists metric_spec,
        last k (KInt 0) = KStr metric_spec /\
        dedup_key_of (map (fun nv => (fst nv, Some (snd nv))) (axis_pairs c k)
                      ++ [(full (config_module c) (config_metricset c) metric_spec,
                           None)])
        = Ok (body_dedup_key b)) /\
  (forall (clock clock' : Z) (c c' : config N) (k : path) (v v' : N)
          (b b' : body N),
      config_module c = config_module c' ->
      config_metricset c = config_metricset c' ->
      config_axes c = config_axes c' ->
      leaf_event clock c k v = Ok b ->
      leaf_event clock' c' k v' = Ok b' ->
      body_dedup_key b = body_dedup_key b') /\
  (forall (clock : nat -> Z) (c : config N) (leaves : list (path * N))
          (posted : list (body N)) (e : option exn) (n : nat) (b : body N),
      post_events clock c O leaves = (posted, e) ->
      nth_error posted n = Some b ->
      exists k v metric_spec,
        nth_error leaves n = Some (k, v) /\
        last k (KInt 0) = KStr metric_spec /\
        dedup_key_of (map (fun nv => (fst nv, Some (snd nv))) (axis_pairs c k)
                      ++ [(full (config_module c) (config_metricset c) metric_spec,
                           None)])
        = Ok (body_dedup_key b)).
Proof.
  assert (Hleaf : forall (clock : Z) (c : config N) (k : path) (v : N) (b : body N),
             leaf_event clock c k v = Ok b ->
             exists metric_spec,
               last k (KInt 0) = KStr metric_spec /\
               dedup_key_of
                 (map (fun nv => (fst nv, Some (snd nv))) (axis_pairs c k)
                  ++ [(full (config_module c) (config_metricset c) metric_spec,
                       None)])
               = Ok (body_dedup_key b)).
  { intros clock c k v b Hb. apply leaf_event_inv in Hb.
    destruct Hb as (metric_spec & metric_config & severity & diag & dk
                    & Hlast & _ & _ & Hkey & Hdk & _).
    exists metric_spec. split; [exact Hlast|]. now rewrite Hdk. }
  split; [|split; [exact Hleaf|split]].
  - intros pairs1 pairs2 metric_name Hperm.
    apply dedup_key_of_perm_invariant.
    apply Permutation_app_tail. now apply Permutation_map.
  - intros clock clock' c c' k v v' b b' Hmod Hset Haxes Hb Hb'.
    destruct (Hleaf _ _ _ _ _ Hb) as (ms & Hlast & Hkey).
    destruct (Hleaf _ _ _ _ _ Hb') as (ms' & Hlast' & Hkey').
    assert (ms' = ms) by congruence. subst ms'.
    unfold axis_pairs in Hkey, Hkey'.
    rewrite <- Hmod, <- Hset, <- Haxes in Hkey'. congruence.
  - intros clock c leaves posted e n b Hpost Hn.
    destruct (post_events_nth _ _ _ _ _ _ _ _ Hpost Hn) as (k & v & Hk & Hev).
    destruct (Hleaf _ _ _ _ _ Hev) as (ms & Hlast & Hkey).
    now exists k, v, ms.
Qed.

End KeyIdentity.

Lemma dedup_key_deterministic_witness :
  dedup_key_of [("cloud.region", Some (KStr "us-east-1"));
                ("cloud.instance.id", Some (KStr "i-001"));
                ("system.memory.used.pct:avg", None)]
  = dedup_key_of [("cloud.instance.id", Some (KStr "i-001"));
                  ("cloud.region", Some (KStr "us-east-1"));
                  ("system.memory.used.pct:avg", None)].
Proof.
  apply (proj1 (@dedup_key_deterministic Z _)
               [("cloud.region", KStr "us-east-1");
                ("cloud.instance.id", KStr "i-001")]
               [("cloud.instance.id", KStr "i-001");
                ("cloud.region", KStr "us-east-1")]
               "system.memory.used.pct:avg").
  apply perm_swap.
Defined.

Example dedup_key_memory_leaf :
  dedup_key_of [("cloud.region", Some (KStr "us-east-1"));
                ("cloud.instance.id", Some (KStr "i-001"));
                ("system.memory.used.pct:avg", None)]
  = Ok "Tu7cUvCkvtHm3xxN2rO7pum39B2Kd0hNPc0C+Fo9xJ8=".
Proof. vm_compute. reflexivity. Qed.

Example sorted_incomparable :
  sorted [("a", Some (KInt 1)); ("b", Some (KStr "x")); ("a", Some (KStr "y"))]
  = Raise TypeError.
Proof. reflexivity. Qed.

(* ################################################################# *)
(** * More on the threshold ladder *)

Section LadderFacts.

Context {N : Type} `{Number N}.

Implicit Types (c : thresh_config N) (v : N) (rungs : list (level * N)).

Lemma strictly_increasing_sorted (L : list N) :
  strictly_increasing L = true <->
  StronglySorted (fun x y => num_lt x y = true) L.
Proof.
  induction L as [|x L IH]; [split; [constructor | reflexivity]|].
  destruct L as [|y L].
  - split; [repeat constructor | reflexivity].
  - rewrite strictly_increasing_cons, andb_true_iff, IH. split.
    + intros [Hxy Hs]. constructor; [exact Hs|].
      constructor; [exact Hxy|].
      apply StronglySorted_inv in Hs. destruct Hs as [_ Hy].
      eapply Forall_impl; [|exact Hy]. intros z Hz.
      now apply num_lt_trans with y.
    + intros Hs. apply StronglySorted_inv in Hs. destruct Hs as [Hs Hx].
      split; [now apply Forall_inv in Hx | exact Hs].
Qed.

Lemma strictly_decreasing_sorted (L : list N) :
  strictly_decreasing L = true <->
  StronglySorted (fun x y => num_lt y x = true) L.
Proof.
  induction L as [|x L IH]; [split; [constructor | reflexivity]|].
  destruct L as [|y L].
  - split; [repeat constructor | reflexivity].
  - rewrite strictly_decreasing_cons, andb_true_iff, IH. split.
    + intros [Hxy Hs]. constructor; [exact Hs|].
      constructor; [exact Hxy|].
      apply StronglySorted_inv in Hs. destruct Hs as [_ Hy].
      eapply Forall_impl; [|exact Hy]. intros z Hz.
      now apply num_lt_trans with y.
    + intros Hs. apply StronglySorted_inv in Hs. destruct Hs as [Hs Hx].
      split; [now apply Forall_inv in Hx | exact Hs].
Qed.

(** The tests compare adjacent items only, and thereby order every pair
    of items of the list, since [<] is transitive. *)
Theorem adjacent_test_orders_all_pairs (L : list N) :
  (strictly_increasing L = true <->
   StronglySorted (fun x y => num_lt x y = true) L) /\
  (strictly_decreasing L = true <->
   StronglySorted (fun x y => num_gt x y = true) L).
Proof.
  split; [apply strictly_increasing_sorted | apply strictly_decreasing_sorted].
Qed.

Lemma strictly_increasing_snoc (L : list N) (x y : N) :
  strictly_increasing ((L ++ [x]) ++ [y])
  = strictly_increasing (L ++ [x]) && num_lt x y.
Proof.
  induction L as [|a L IH].
  - simpl. unfold strictly_increasing. simpl. now rewrite andb_true_r.
  - destruct L as [|b L].
    + simpl. unfold strictly_increasing. simpl.
      now rewrite !andb_true_r.
    + change (((a :: b :: L) ++ [x]) ++ [y])
        with (a :: b :: ((L ++ [x]) ++ [y])).
      change ((a :: b :: L) ++ [x]) with (a :: b :: (L ++ [x])).
      rewrite !strictly_increasing_cons.
      change (b :: (L ++ [x]) ++ [y]) with (((b :: L) ++ [x]) ++ [y]).
      rewrite IH. now rewrite andb_assoc.
Qed.

(** Decreasing is increasing read backwards. *)
Theorem strictly_decreasing_rev (L : list N) :
  strictly_decreasing L = strictly_increasing (rev L).
Proof.
  induction L as [|x L IH]; [reflexivity|].
  destruct L as [|y L]; [reflexivity|].
  rewrite strictly_decreasing_cons, IH.
  change (rev (x :: y :: L)) with ((rev L ++ [y]) ++ [x]).
  rewrite strictly_increasing_snoc. simpl. apply andb_comm.
Qed.

(** The two directions hold together of the lists of at most one item
    and of no other list. *)
Theorem increasing_and_decreasing (L : list N) :
  strictly_increasing L = true /\ strictly_decreasing L = true <->
  (List.length L <= 1)%nat.
Proof.
  split.
  - intros [Hsi Hsd].
    destruct (Nat.le_gt_cases (List.length L) 1) as [Hle | Hgt]; [exact Hle|].
    rewrite (decreasing_not_increasing L Hgt Hsd) in Hsi. discriminate.
  - intros Hlen. split;
      [now apply short_strictly_increasing | now apply short_strictly_decreasing].
Qed.

(** A rung of the ladder is a threshold of the configuration. *)
Lemma ladder_get c (l : level) (t : N) :
  In (l, t) (ladder c) <-> get c l = Some t.
Proof.
  unfold ladder, get. simpl.
  destruct (cfg_info c), (cfg_warning c), (cfg_error c), (cfg_critical c);
    destruct l; simpl; split;
    intros Hin; repeat (destruct Hin as [Hin | Hin]; try discriminate Hin);
    try contradiction; try (injection Hin as <-); try reflexivity;
    try congruence; auto 6.
Qed.

(** When the walk stops at a rung it would stop at every later one: the
    levels up to the result are the ones it passes. *)
Lemma walk_passes si v rungs :
  StronglySorted (fun a b => (level_rank (fst a) < level_rank (fst b))%nat) rungs ->
  StronglySorted (fun a b => stops si v (snd a) = true -> stops si v (snd b) = true)
                 rungs ->
  forall l t, In (l, t) rungs ->
              (stops si v t = false <->
               (level_rank l
                <= severity_rank (option_map fst (walk si v rungs None)))%nat).
Proof.
  intros Hrank Hmono l t Hin.
  destruct (walk_split si v rungs None) as (pre & post & -> & Hpre & Hpost & ->).
  fold (stops si v) in *.
  assert (Hlast : forall a, In a pre ->
            (level_rank (fst a)
             <= severity_rank (option_map fst
                                 match rev pre with [] => None | r :: _ => Some r end))%nat).
  { clear - Hrank. intros a Ha.
    induction pre as [|b pre IH] using rev_ind; [contradiction|].
    rewrite rev_app_distr. simpl.
    apply in_app_or in Ha. destruct Ha as [Ha | [-> | []]]; [|lia].
    rewrite <- app_assoc in Hrank. simpl in Hrank.
    clear IH. induction pre as [|d pre IHp]; [contradiction|].
    simpl in Hrank. apply StronglySorted_inv in Hrank. destruct Hrank as [Hs Hall].
    destruct Ha as [-> | Ha]; [|now apply IHp].
    rewrite Forall_forall in Hall.
    assert (Hmem : In b (pre ++ b :: post)) by (apply in_or_app; right; now left).
    specialize (Hall b Hmem). lia. }
  assert (Hafter : forall a, In a post ->
            (severity_rank (option_map fst
                              match rev pre with [] => None | r :: _ => Some r end)
             < level_rank (fst a))%nat).
  { clear - Hrank. intros a Ha.
    destruct (rev pre) as [|b rp] eqn:Erev.
    - simpl. destruct (fst a); simpl; lia.
    - assert (Hb : In b pre) by (apply in_rev; rewrite Erev; now left).
      simpl. clear Erev.
      induction pre as [|d pre IHp]; [contradiction|].
      simpl in Hrank. apply StronglySorted_inv in Hrank. destruct Hrank as [Hs Hall].
      destruct Hb as [-> | Hb]; [|now apply IHp].
      rewrite Forall_forall in Hall. apply Hall. apply in_or_app. now right. }
  assert (Hstops : forall a, In a post -> stops si v (snd a) = true).
  { clear - Hmono Hpost. intros a Ha.
    induction pre as [|d pre IHp].
    - simpl in Hmono. destruct post as [|r post]; [contradiction|].
      apply StronglySorted_inv in Hmono. destruct Hmono as [_ Hall].
      destruct Ha as [-> | Ha]; [exact Hpost|].
      rewrite Forall_forall in Hall. now apply Hall.
    - simpl in Hmono. apply StronglySorted_inv in Hmono. now apply IHp. }
  apply in_app_or in Hin. destruct Hin as [Hin | Hin].
  - split; [intros _; exact (Hlast _ Hin)|].
    intros _. rewrite Forall_forall in Hpre. exact (Hpre _ Hin).
  - specialize (Hafter _ Hin). specialize (Hstops _ Hin). simpl in Hafter, Hstops.
    split; [congruence | lia].
Qed.


Lemma descending_stops_later v rungs :
  strictly_decreasing (map snd rungs) = true ->
  StronglySorted (fun a b => stops false v (snd a) = true
                             -> stops false v (snd b) = true) rungs.
Proof.
  intros Hsd. apply strictly_decreasing_sorted in Hsd.
  induction rungs as [|a rungs IH]; [constructor|].
  simpl in Hsd. apply StronglySorted_inv in Hsd. destruct Hsd as [Hs Hall].
  constructor; [now apply IH|].
  rewrite Forall_map in Hall. eapply Forall_impl; [|exact Hall].
  intros b Hab. unfold stops, num_gt. simpl.
  intros Hva. now apply num_lt_trans with (snd a).
Qed.


(** On a ladder of two or more strictly decreasing thresholds the
    severity is the most severe level whose threshold the value has
    fallen to: a level of the ladder is at or below the severity exactly
    when [value <= threshold]. *)
Theorem descending_severity_is_lowest_reached c v :
  (2 <= List.length (ladder c))%nat ->
  strictly_decreasing (map snd (ladder c)) = true ->
  exists severity diag,
    _check_val_against_thresh v c = Ok (severity, diag) /\
    forall l t, get c l = Some t ->
                (num_le v t = true <->
                 (level_rank l <= severity_rank severity)%nat).
Proof.
  intros Hlen Hsd. rewrite check_unfold.
  assert (Hsi : strictly_increasing (map snd (ladder c)) = false)
    by (apply decreasing_not_increasing; [now rewrite length_map | exact Hsd]).
  pose proof (walk_passes false v (ladder c) (ladder_ranked c)
                          (descending_stops_later v _ Hsd)) as Hpass.
  assert (Hle : forall t, num_le v t = true <-> stops false v t = false).
  { intros t. unfold num_le, stops, num_gt. simpl. apply negb_true_iff. }
  destruct (ladder c) as [|p rest] eqn:El; [simpl in Hlen; lia|].
  cbv zeta. rewrite Hsi, Hsd. simpl orb. cbv iota.
  destruct (walk false v (p :: rest) None) as [[sev ref]|] eqn:Ew;
    eexists; eexists; (split; [reflexivity|]);
    intros l t Hget; apply ladder_get in Hget; rewrite El in Hget;
    rewrite Hle; exact (Hpass l t Hget).
Qed.

(** On the descending branch a smaller value walks at least as far. *)
Lemma walk_descending_antitone v1 v2 rungs acc :
  num_le v1 v2 = true ->
  StronglySorted (fun a b => (level_rank (fst a) < level_rank (fst b))%nat) rungs ->
  Forall (fun r => (severity_rank (option_map fst acc) < level_rank (fst r))%nat)
         rungs ->
  (severity_rank (option_map fst (walk false v2 rungs acc))
   <= severity_rank (option_map fst (walk false v1 rungs acc)))%nat.
Proof.
  intros Hle. apply negb_true_iff in Hle. revert acc.
  induction rungs as [|[l t] rungs IH]; intros acc Hsorted Hacc; simpl; [lia|].
  unfold num_gt.
  apply StronglySorted_inv in Hsorted. destruct Hsorted as [Hs Hall].
  destruct (num_lt t v2) eqn:E2.
  - (* v2 stops here; v1 stops here or goes on to a higher rung *)
    destruct (num_lt t v1) eqn:E1; [lia|].
    destruct (walk_result false v1 rungs (Some (l, t))) as [-> | (r & -> & Hin)].
    + simpl. apply Forall_inv in Hacc. simpl in Hacc. lia.
    + simpl. apply Forall_inv_tail in Hacc. rewrite Forall_forall in Hacc.
      specialize (Hacc r Hin). lia.
  - (* v2 passes, and so does every v1 <= v2 *)
    assert (E1 : num_lt t v1 = false) by (apply num_le_trans with v2; assumption).
    rewrite E1. apply IH; [exact Hs | exact Hall].
Qed.

(** On a ladder of two or more strictly decreasing thresholds the
    severity does not grow with the value: [v1 <= v2] makes the severity
    of [v2] no more severe than that of [v1]. *)
Theorem descending_severity_antitone c v1 v2 :
  (2 <= List.length (ladder c))%nat ->
  strictly_decreasing (map snd (ladder c)) = true ->
  num_le v1 v2 = true ->
  exists s1 d1 s2 d2,
    _check_val_against_thresh v1 c = Ok (s1, d1) /\
    _check_val_against_thresh v2 c = Ok (s2, d2) /\
    (severity_rank s2 <= severity_rank s1)%nat.
Proof.
  intros Hlen Hsd Hle. rewrite !check_unfold.
  assert (Hsi : strictly_increasing (map snd (ladder c)) = false)
    by (apply decreasing_not_increasing; [now rewrite length_map | exact Hsd]).
  pose proof (ladder_ranked c) as Hrank.
  destruct (ladder c) as [|p rest] eqn:El; [simpl in Hlen; lia|].
  cbv zeta. rewrite Hsi, Hsd. simpl orb. cbv iota.
  assert (Hmon := walk_descending_antitone v1 v2 (p :: rest) None Hle Hrank).
  assert (Hpos : Forall (fun r : level * N =>
                           (severity_rank (option_map fst (@None (level * N)))
                            < level_rank (fst r))%nat) (p :: rest)).
  { apply Forall_forall. intros [[] ?] _; simpl; lia. }
  specialize (Hmon Hpos).
  destruct (walk false v1 (p :: rest) None) as [[l1 r1]|];
    destruct (walk false v2 (p :: rest) None) as [[l2 r2]|];
    do 4 eexists; (split; [reflexivity|split; [reflexivity|exact Hmon]]).
Qed.

(** A ladder with one threshold goes both ways and is taken as
    ascending: the level is given from the threshold upwards, with a
    [>=] diagnostic. *)
Theorem single_threshold_is_ascending c (l : level) (t : N) v :
  ladder c = [(l, t)] ->
  _check_val_against_thresh v c
  = Ok (if num_lt v t then (None, None)
        else (Some l, Some (num_str v +++ " >= " +++ num_str t))).
Proof.
  intros El. rewrite check_unfold, El. simpl.
  unfold strictly_increasing. simpl. rewrite orb_false_r.
  destruct (num_lt v t); reflexivity.
Qed.

(** Severity and diagnostic come together, and the diagnostic is true:
    it names the threshold that the configuration has for the level
    returned, and the value is on the far side of it. *)
Theorem diagnostic_is_true c v (severity : option level) (diag : option string) :
  _check_val_against_thresh v c = Ok (severity, diag) ->
  match severity with
  | None => diag = None
  | Some l =>
      exists ref,
        get c l = Some ref /\
        if strictly_increasing (map snd (ladder c))
        then diag = Some (num_str v +++ " >= " +++ num_str ref)
             /\ num_le ref v = true
        else diag = Some (num_str v +++ " <= " +++ num_str ref)
             /\ num_le v ref = true
  end.
Proof.
  rewrite check_unfold.
  destruct (ladder c) as [|p rest] eqn:El; [now intros [= <- <-]|].
  cbv zeta. set (si := strictly_increasing (map snd (p :: rest))).
  destruct (si || strictly_decreasing (map snd (p :: rest))); [|discriminate].
  destruct (walk_split si v (p :: rest) None) as (pre & post & Hsplit & Hpre & _ & Hw).
  rewrite Hw. destruct (rev pre) as [|[l ref] rp] eqn:Erev.
  - now intros [= <- <-].
  - intros [= <- <-]. exists ref.
    assert (Hin : In (l, ref) pre) by (apply in_rev; rewrite Erev; now left).
    split.
    + apply ladder_get. rewrite El, Hsplit. apply in_or_app. now left.
    + rewrite Forall_forall in Hpre. specialize (Hpre _ Hin). simpl in Hpre.
      unfold num_le, num_gt in *.
      destruct si; simpl in Hpre; rewrite ?orb_false_r in Hpre;
        (split; [reflexivity | now rewrite Hpre]).
Qed.

End LadderFacts.


Lemma descending_severity_is_lowest_reached_witness :
  exists severity diag,
    _check_val_against_thresh 25 low_is_bad = Ok (severity, diag) /\
    forall l t, get low_is_bad l = Some t ->
                (num_le 25 t = true <->
                 (level_rank l <= severity_rank severity)%nat).
Proof.
  apply (descending_severity_is_lowest_reached low_is_bad 25);
    [simpl; lia | reflexivity].
Defined.

Lemma descending_severity_antitone_witness :
  exists s1 d1 s2 d2,
    _check_val_against_thresh 15 low_is_bad = Ok (s1, d1) /\
    _check_val_against_thresh 25 low_is_bad = Ok (s2, d2) /\
    (severity_rank s2 <= severity_rank s1)%nat.
Proof.
  apply (descending_severity_antitone low_is_bad 15 25);
    [simpl; lia | reflexivity | reflexivity].
Defined.

(** A ladder with the critical threshold alone. *)
Lemma single_threshold_is_ascending_witness :
  _check_val_against_thresh
    100 {| cfg_info := None; cfg_warning := None; cfg_error := None;
           cfg_critical := Some 99; cfg_message := None |}
  = Ok (if num_lt 100 99 then (None, None)
        else (Some Critical, Some (num_str 100 +++ " >= " +++ num_str 99))).
Proof.
  apply (single_threshold_is_ascending
           {| cfg_info := None; cfg_warning := None; cfg_error := None;
              cfg_critical := Some 99; cfg_message := None |} Critical 99 100).
  reflexivity.
Defined.

Lemma diagnostic_is_true_witness :
  exists ref,
    get memory_used_pct Error = Some ref /\
    if strictly_increasing (map snd (ladder memory_used_pct))
    then Some "96 >= 95" = Some (num_str 96 +++ " >= " +++ num_str ref)
         /\ num_le ref 96 = true
    else Some "96 >= 95" = Some (num_str 96 +++ " <= " +++ num_str ref)
         /\ num_le 96 ref = true.
Proof.
  apply (diagnostic_is_true memory_used_pct 96 (Some Error) (Some "96 >= 95")).
  reflexivity.
Defined.

Lemma adjacent_test_orders_all_pairs_witness :
  StronglySorted (fun x y => num_lt x y = true) [80; 90; 95; 98].
Proof.
  apply (proj1 (proj1 (adjacent_test_orders_all_pairs [80; 90; 95; 98]))).
  reflexivity.
Defined.

Lemma increasing_and_decreasing_witness :
  strictly_increasing [7] = true /\ strictly_decreasing [7] = true.
Proof.
  apply (proj2 (increasing_and_decreasing [7])). simpl. lia.
Defined.

(* ################################################################# *)
(** * More on dictionaries *)

Section DictMore.

Context {K V : Type} (eqb : K -> K -> bool).
Hypothesis eqb_eq : forall a b, eqb a b = true <-> a = b.

Lemma dict_set_keys (d : list (K * V)) (k : K) (v : V) :
  map fst (dict_set eqb d k v)
  = if existsb (fun k' => eqb k' k) (map fst d) then map fst d
    else map fst d ++ [k].
Proof.
  induction d as [|[k' v'] d IH]; [reflexivity|].
  simpl. destruct (eqb k' k); [reflexivity|].
  simpl. rewrite IH. now destruct (existsb _ (map fst d)).
Qed.

Lemma dict_set_NoDup (d : list (K * V)) (k : K) (v : V) :
  NoDup (map fst d) -> NoDup (map fst (dict_set eqb d k v)).
Proof.
  intros Hnd. rewrite dict_set_keys.
  destruct (existsb _ (map fst d)) eqn:E; [exact Hnd|].
  apply NoDup_app; [exact Hnd | repeat constructor; intros [] |].
  intros k' Hk' [<- | []].
  assert (Hex : existsb (fun k' => eqb k' k) (map fst d) = true)
    by (apply existsb_exists; exists k; split; [exact Hk' | now apply eqb_eq]).
  congruence.
Qed.

Lemma dict_set_In (d : list (K * V)) (k : K) (v : V) (kv : K * V) :
  In kv (dict_set eqb d k v) -> kv = (k, v) \/ In kv d.
Proof.
  induction d as [|[k' v'] d IH]; simpl.
  - intros [<- | []]. now left.
  - destruct (eqb k' k) eqn:E.
    + apply eqb_eq in E. subst k'. intros [<- | Hin]; [now left | right; now right].
    + intros [<- | Hin]; [right; now left|].
      destruct (IH Hin) as [-> | Hd]; [now left | right; now right].
Qed.

Lemma dict_update_NoDup (items d : list (K * V)) :
  NoDup (map fst d) -> NoDup (map fst (dict_update eqb d items)).
Proof.
  unfold dict_update. revert d. induction items as [|[k v] items IH]; intros d Hnd;
    [exact Hnd|].
  simpl. apply IH. now apply dict_set_NoDup.
Qed.

Lemma dict_update_In (items d : list (K * V)) (kv : K * V) :
  In kv (dict_update eqb d items) -> In kv d \/ In kv items.
Proof.
  unfold dict_update. revert d. induction items as [|[k v] items IH]; intros d;
    [now left|].
  simpl. intros Hin. destruct (IH _ Hin) as [Hd | Hi]; [|right; now right].
  destruct (dict_set_In _ _ _ _ Hd) as [-> | Hd']; [right; now left | now left].
Qed.

End DictMore.

(* ################################################################# *)
(** * More on flatten *)

Section PathFacts.

Context {L : Type}.

Lemma well_keyed_Mapping (items : list (key * obj L)) :
  well_keyed (Mapping items) <->
  NoDup (map fst items) /\ Forall (fun kv => well_keyed (snd kv)) items.
Proof.
  simpl. apply and_iff_compat_l.
  induction items as [|[k v] items IH]; [split; [constructor | trivial]|].
  rewrite Forall_cons_iff, IH. reflexivity.
Qed.

Lemma well_keyed_Sequence (elems : list (obj L)) :
  well_keyed (Sequence elems) <-> Forall well_keyed elems.
Proof.
  simpl. induction elems as [|v elems IH]; [split; [constructor | trivial]|].
  rewrite Forall_cons_iff, IH. reflexivity.
Qed.

Lemma enumerate_from_In {A : Type} (elems : list A) (start i : Z) (v : A) :
  In (i, v) (enumerate_from start elems) <->
  start <= i /\ nth_error elems (Z.to_nat (i - start)) = Some v.
Proof.
  revert start. induction elems as [|a elems IH]; intros start; simpl.
  - split; [contradiction|]. intros [_ Hn]. now destruct (Z.to_nat (i - start)).
  - rewrite IH. split.
    + intros [[= <- <-] | [Hle Hn]].
      * split; [lia|]. now rewrite Z.sub_diag.
      * split; [lia|].
        replace (Z.to_nat (i - start)) with (S (Z.to_nat (i - (start + 1)))) by lia.
        exact Hn.
    + intros [Hle Hn]. destruct (Z.eq_dec i start) as [-> | Hne].
      * left. rewrite Z.sub_diag in Hn. simpl in Hn. congruence.
      * right. split; [lia|].
        replace (Z.to_nat (i - start)) with (S (Z.to_nat (i - (start + 1)))) in Hn
          by lia.
        exact Hn.
Qed.

End PathFacts.

Section PathsDistinct.

Context {L : Type}.

Lemma NoDup_map_cons (k : key) (ps : list path) :
  NoDup ps -> NoDup (map (cons k) ps).
Proof.
  induction 1 as [|p ps Hp _ IH]; simpl; constructor; [|exact IH].
  intros Hin. apply in_map_iff in Hin. destruct Hin as (q & [= ->] & Hq).
  contradiction.
Qed.

Lemma NoDup_flat_map_heads {A : Type} (f : A -> key) (g : A -> list path)
      (xs : list A) :
  NoDup (map f xs) -> (forall a, In a xs -> NoDup (g a)) ->
  NoDup (flat_map (fun a => map (cons (f a)) (g a)) xs).
Proof.
  induction xs as [|a xs IH]; intros Hnd Hg; [constructor|].
  simpl in *. apply NoDup_cons_iff in Hnd. destruct Hnd as [Hnotin Hnd].
  apply NoDup_app.
  - apply NoDup_map_cons. apply Hg. now left.
  - apply IH; [exact Hnd | intros b Hb; apply Hg; now right].
  - intros p Hp Hq. apply in_map_iff in Hp. destruct Hp as (p' & <- & _).
    apply in_flat_map in Hq. destruct Hq as (b & Hb & Hq).
    apply in_map_iff in Hq. destruct Hq as (q' & [= Hfb _] & _).
    apply Hnotin. rewrite <- Hfb. now apply in_map.
Qed.

Lemma map_fst_flat_map {A : Type} (h : A -> list (path * L)) (xs : list A) :
  map fst (flat_map h xs) = flat_map (fun a => map fst (h a)) xs.
Proof.
  induction xs as [|a xs IH]; [reflexivity|].
  simpl. now rewrite map_app, IH.
Qed.

Lemma enumerate_from_indices {A : Type} (elems : list A) (start : Z) :
  NoDup (map (fun iv : Z * A => KInt (fst iv)) (enumerate_from start elems)).
Proof.
  revert start. induction elems as [|a elems IH]; intros start; [constructor|].
  simpl. constructor; [|apply IH].
  intros Hin. apply in_map_iff in Hin. destruct Hin as ([i v] & [= ->] & Hin).
  apply enumerate_from_In in Hin. lia.
Qed.

(** No path is yielded twice. *)
Theorem flatten_paths_distinct (o : obj L) :
  well_keyed o -> NoDup (map fst (flatten o)).
Proof.
  induction o as [items IH | elems IH | y] using obj_nested_ind; intros Hwk.
  - apply well_keyed_Mapping in Hwk. destruct Hwk as [Hnd Hall].
    rewrite flatten_Mapping, map_fst_flat_map.
    rewrite (flat_map_ext _ (fun kv => map (cons (fst kv))
                                           (map fst (flatten (snd kv))))).
    + apply NoDup_flat_map_heads; [exact Hnd|].
      rewrite Forall_forall in IH, Hall. intros kv Hkv.
      apply (IH kv Hkv). now apply Hall.
    + intros kv. rewrite !map_map. reflexivity.
  - apply well_keyed_Sequence in Hwk.
    rewrite flatten_Sequence, map_fst_flat_map.
    rewrite (flat_map_ext _ (fun iv => map (cons (KInt (fst iv)))
                                           (map fst (flatten (snd iv))))).
    + apply (NoDup_flat_map_heads (fun iv : Z * obj L => KInt (fst iv))
                                  (fun iv => map fst (flatten (snd iv)))).
      * apply enumerate_from_indices.
      * rewrite Forall_forall in IH, Hwk. intros [i v] Hiv.
        apply enumerate_from_In in Hiv. destruct Hiv as [_ Hn].
        apply nth_error_In in Hn. simpl. apply (IH v Hn). now apply Hwk.
    + intros iv. rewrite !map_map. reflexivity.
  - repeat constructor. intros [].
Qed.

End PathsDistinct.

Lemma flatten_paths_distinct_witness : NoDup (map fst (flatten mixed_nesting)).
Proof.
  apply (flatten_paths_distinct mixed_nesting).
  simpl. repeat split; repeat constructor; simpl; intuition discriminate.
Defined.

(* ################################################################# *)
(** * More on the tabulator *)

Section TabulateMore.

Context {N : Type}.

(** A loop that returns has run its body on every item. *)
Lemma for_each_inv {A B : Type} (body : A -> result B) (xs : list A)
      (ys : list B) :
  for_each body xs = Ok ys -> Forall2 (fun x y => body x = Ok y) xs ys.
Proof.
  revert ys. induction xs as [|x xs IH]; intros ys; simpl.
  - intros [= <-]. constructor.
  - destruct (body x) as [y|e] eqn:Ey; cbn [bind]; [|discriminate].
    destruct (for_each body xs) as [ys'|e]; cbn [bind]; [|discriminate].
    intros [= <-]. constructor; [exact Ey | now apply IH].
Qed.

Lemma bucket_at_length (aggs sub : Aggs N) (axes : list string) (ks : list key) :
  bucket_at aggs axes ks sub -> List.length ks = List.length axes.
Proof.
  revert aggs ks. induction axes as [|axis axes IH]; intros aggs [|k ks]; simpl;
    try contradiction; [reflexivity|].
  intros (buckets & bucket & _ & _ & Hat). f_equal. exact (IH _ _ Hat).
Qed.

Lemma brb_cells (metrics axes : list string) (r : Aggs N) (t : obj N) :
  build_result_buckets r metrics axes = Ok t ->
  well_keyed t /\
  forall p x,
    In (p, x) (flatten t) ->
    exists ks metric sub,
      p = ks ++ [KStr metric] /\
      List.length ks = List.length axes /\
      In metric metrics /\
      bucket_at r axes ks sub /\
      dict_get String.eqb sub metric = Some (Value x).
Proof.
  unfold build_result_buckets. revert r t.
  induction axes as [|axis axes IH]; intros r t; simpl.
  - destruct (for_each _ metrics) as [items|e] eqn:Efor; cbn [bind]; [|discriminate].
    intros Ht. apply Ok_inj in Ht. subst t.
    apply for_each_inv in Efor. split.
    + apply well_keyed_Mapping. split.
      * apply dict_update_NoDup; [apply key_eqb_eq | constructor].
      * apply Forall_forall. intros [k v] Hin.
        apply (dict_update_In key_eqb key_eqb_eq) in Hin.
        destruct Hin as [[] | Hin].
        destruct (Forall2_In_r _ _ _ _ Efor Hin) as (m & _ & Hm).
        unfold getitem in Hm. destruct (dict_get String.eqb r m) as [[?|?]|];
          cbn [bind] in Hm; try discriminate. injection Hm as <- <-. exact I.
    + intros p x. rewrite flatten_Mapping, in_flat_map.
      intros ([k v] & Hin & Hpx).
      apply (dict_update_In key_eqb key_eqb_eq) in Hin.
      destruct Hin as [[] | Hin].
      destruct (Forall2_In_r _ _ _ _ Efor Hin) as (m & Hmin & Hm).
      unfold getitem in Hm.
      destruct (dict_get String.eqb r m) as [[?|value]|] eqn:Hget;
        cbn [bind] in Hm; try discriminate. injection Hm as <- <-.
      simpl in Hpx. destruct Hpx as [[= <- <-] | []].
      exists [], m, r. repeat split; assumption.
  - unfold getitem. destruct (dict_get String.eqb r axis) as [[buckets|?]|] eqn:Hget;
      cbn [bind]; try discriminate.
    match goal with |- context [for_each ?f buckets] =>
      destruct (for_each f buckets) as [items|e] eqn:Efor end; cbn [bind]; [|discriminate].
    intros Ht. apply Ok_inj in Ht. subst t.
    apply for_each_inv in Efor.
    assert (Hitem : forall k v, In (k, v) items ->
              exists bucket, In (k, bucket) buckets /\ _brb metrics bucket axes = Ok v).
    { intros k v Hin. destruct (Forall2_In_r _ _ _ _ Efor Hin) as ([k' b] & Hb & Hbody).
      simpl in Hbody. destruct (_brb metrics b axes) as [t'|e] eqn:Eb;
        cbn [bind] in Hbody; [|discriminate].
      injection Hbody as <- <-. exists b. split; [exact Hb | exact Eb]. }
    split.
    + apply well_keyed_Mapping. split.
      * apply dict_update_NoDup; [apply key_eqb_eq | constructor].
      * apply Forall_forall. intros [k v] Hin.
        apply (dict_update_In key_eqb key_eqb_eq) in Hin.
        destruct Hin as [[] | Hin].
        destruct (Hitem k v Hin) as (b & _ & Hv). exact (proj1 (IH _ _ Hv)).
    + intros p x. rewrite flatten_Mapping, in_flat_map.
      intros ([k v] & Hin & Hpx).
      apply (dict_update_In key_eqb key_eqb_eq) in Hin.
      destruct Hin as [[] | Hin].
      destruct (Hitem k v Hin) as (b & Hb & Hv).
      simpl in Hpx. apply in_map_iff in Hpx.
      destruct Hpx as ([p' x'] & [= <- <-] & Hleaf).
      destruct (proj2 (IH _ _ Hv) _ _ Hleaf)
        as (ks & m & sub & -> & Hlen & Hm & Hat & Hval).
      exists (k :: ks), m, sub. simpl. repeat split; try assumption.
      * now rewrite Hlen.
      * now exists buckets, b.
Qed.

(** Every cell of the table is a scalar of the response: its path is the
    keys of one bucket per axis followed by a metric spec, and its value
    is the value that bucket has for the metric.  The mappings of the
    table have distinct keys. *)
Theorem tabulated_cells (metrics axes : list string) (r : Aggs N) (t : obj N) :
  build_result_buckets r metrics axes = Ok t ->
  well_keyed t /\
  forall p x,
    In (p, x) (flatten t) ->
    exists ks metric sub,
      p = ks ++ [KStr metric] /\
      List.length ks = List.length axes /\
      In metric metrics /\
      bucket_at r axes ks sub /\
      dict_get String.eqb sub metric = Some (Value x).
Proof. apply brb_cells. Qed.

(** The tabulator returns only if every bucket of the response, reached
    by one bucket per axis, has the result of a metric aggregation under
    every metric spec. *)
Theorem tabulation_needs_every_metric (metrics axes : list string) (r : Aggs N)
        (t : obj N) :
  build_result_buckets r metrics axes = Ok t ->
  forall ks sub metric,
    bucket_at r axes ks sub -> In metric metrics ->
    exists value, dict_get String.eqb sub metric = Some (Value value).
Proof.
  unfold build_result_buckets.
  revert r t. induction axes as [|axis axes IH]; intros r t; simpl.
  - destruct (for_each _ metrics) as [items|e] eqn:Efor; cbn [bind]; [|discriminate].
    intros _ [|k ks] sub m Hat Hm; simpl in Hat; [subst sub | contradiction].
    apply for_each_inv in Efor.
    destruct (Forall2_In_l _ _ _ _ Efor Hm) as (kv & _ & Hbody).
    unfold getitem in Hbody.
    destruct (dict_get String.eqb r m) as [[?|value]|]; cbn [bind] in Hbody;
      try discriminate. now exists value.
  - unfold getitem.
    destruct (dict_get String.eqb r axis) as [[buckets|?]|] eqn:Hget;
      cbn [bind]; try discriminate.
    match goal with |- context [for_each ?f buckets] =>
    destruct (for_each f buckets) as [items|e] eqn:Efor end; cbn [bind]; [|discriminate].
    intros _ [|k ks] sub m Hat Hm; simpl in Hat; [contradiction|].
    destruct Hat as (buckets' & b & Hget' & Hb & Hat).
    assert (buckets' = buckets) by congruence. subst buckets'.
    apply for_each_inv in Efor.
    destruct (Forall2_In_l _ _ _ _ Efor Hb) as (kv & _ & Hbody).
    simpl in Hbody. destruct (_brb metrics b axes) as [t'|e] eqn:Eb;
      cbn [bind] in Hbody; [|discriminate].
    exact (IH b t' Eb ks sub m Hat Hm).
Qed.

End TabulateMore.

Lemma tabulated_cells_witness :
  well_keyed (Mapping [(KStr "i-001", Mapping [(KStr ".used.pct:avg", Leaf 96)]);
                       (KStr "i-002", Mapping [(KStr ".used.pct:avg", Leaf 50)])]) /\
  forall p x,
    In (p, x) (flatten (Mapping [(KStr "i-001",
                                  Mapping [(KStr ".used.pct:avg", Leaf 96)]);
                                 (KStr "i-002",
                                  Mapping [(KStr ".used.pct:avg", Leaf 50)])])) ->
    exists ks metric sub,
      p = ks ++ [KStr metric] /\
      List.length ks = List.length ["cloud.instance.id"] /\
      In metric [".used.pct:avg"] /\
      bucket_at memory_response ["cloud.instance.id"] ks sub /\
      dict_get String.eqb sub metric = Some (Value x).
Proof.
  apply (tabulated_cells [".used.pct:avg"] ["cloud.instance.id"] memory_response).
  reflexivity.
Defined.

Lemma tabulation_needs_every_metric_witness :
  exists value,
    dict_get String.eqb [(".used.pct:avg", Value 96)] ".used.pct:avg"
    = Some (Value value).
Proof.
  apply (tabulation_needs_every_metric
           [".used.pct:avg"] ["cloud.instance.id"] memory_response
           _ tabulate_memory_response [KStr "i-001"]).
  - simpl. eexists. eexists. split; [reflexivity|]. split; [now left | reflexivity].
  - now left.
Defined.

(* ################################################################# *)
(** * One cycle of a metric group *)

Lemma dict_get_of_key {V : Type} (d : list (string * V)) (k : string) :
  In k (map fst d) -> exists v, dict_get String.eqb d k = Some v /\ In (k, v) d.
Proof.
  induction d as [|[k' v'] d IH]; simpl; [contradiction|].
  destruct (String.eqb_spec k' k) as [-> | Hne].
  - intros _. exists v'. split; [reflexivity | now left].
  - intros [Heq | Hin]; [contradiction|].
    destruct (IH Hin) as (v & Hget & Hv). exists v. split; [exact Hget | now right].
Qed.

Lemma map_fst_combine {A B : Type} (l : list A) (l' : list B) :
  List.length l = List.length l' -> map fst (combine l l') = l.
Proof.
  revert l'. induction l as [|a l IH]; intros [|b l']; simpl; try discriminate;
    [reflexivity|].
  intros [= Hlen]. now rewrite IH.
Qed.

(** Tuples with distinct names are comparable. *)
Lemma distinct_names_comparable (items : list (string * option key)) :
  NoDup (map fst items) -> pairwise_comparable items.
Proof.
  intros Hnd a b Ha Hb.
  destruct (String.eqb_spec (fst a) (fst b)) as [Heq | Hne]; [|now left].
  right. enough (a = b) by now subst.
  clear - Hnd Ha Hb Heq. induction items as [|c items IH]; [contradiction|].
  simpl in Hnd. apply NoDup_cons_iff in Hnd. destruct Hnd as [Hnotin Hnd].
  destruct Ha as [-> | Ha], Hb as [-> | Hb].
  - reflexivity.
  - exfalso. apply Hnotin. rewrite Heq. now apply in_map.
  - exfalso. apply Hnotin. rewrite <- Heq. now apply in_map.
  - now apply IH.
Qed.

Section CycleFacts.

Context {N : Type} `{Number N}.

Lemma check_monotonic_returns (v : N) (c : thresh_config N) :
  strictly_increasing (map snd (ladder c)) = true
  \/ strictly_decreasing (map snd (ladder c)) = true ->
  exists r, _check_val_against_thresh v c = Ok r.
Proof.
  intros Hm. rewrite check_unfold.
  destruct (ladder c) as [|p rest]; [eexists; reflexivity|].
  cbv zeta. apply orb_true_iff in Hm. rewrite Hm.
  destruct (walk _ v (p :: rest) None) as [[? ?]|]; eexists; reflexivity.
Qed.

(** The event of a leaf whose path has one key per axis and a metric of
    the group at the end, where the ladder of the metric is monotonic
    and the names of the axes and of the metric are distinct. *)
Lemma leaf_event_returns (clock : Z) (c : config N) (ks : list key) (m : string)
      (v : N) :
  let axes := match config_axes c with Some axes => axes | None => [] end in
  let names := map (full (config_module c) (config_metricset c)) (HOST_AXES ++ axes) in
  List.length ks = List.length (HOST_AXES ++ axes) ->
  In m (map fst (config_metrics c)) ->
  (forall tc, In (m, tc) (config_metrics c) ->
              strictly_increasing (map snd (ladder tc)) = true
              \/ strictly_decreasing (map snd (ladder tc)) = true) ->
  NoDup (names ++ [full (config_module c) (config_metricset c) m]) ->
  exists b, leaf_event clock c (ks ++ [KStr m]) v = Ok b.
Proof.
  intros axes names Hlen Hm Hmono Hnames.
  rewrite length_app in Hlen. change (List.length HOST_AXES) with 2%nat in Hlen.
  destruct (dict_get_of_key _ _ Hm) as (tc & Hget & Htc).
  destruct (check_monotonic_returns v tc (Hmono tc Htc)) as [[severity diag] Hcheck].
  assert (Hskip : removelast (skipn 2 (ks ++ [KStr m])) = skipn 2 ks).
  { rewrite skipn_app. replace (2 - List.length ks)%nat with 0%nat by lia.
    simpl. apply removelast_last. }
  assert (Hfirst : firstn 2 (ks ++ [KStr m]) = firstn 2 ks).
  { rewrite firstn_app. replace (2 - List.length ks)%nat with 0%nat by lia.
    simpl. apply app_nil_r. }
  assert (Hkey : exists dk,
             dedup_key_of
               (map (fun nv => (fst nv, Some (snd nv)))
                    (combine (map (full (config_module c) (config_metricset c))
                                  HOST_AXES) (firstn 2 ks))
                ++ map (fun nv => (fst nv, Some (snd nv)))
                       (combine (map (full (config_module c) (config_metricset c))
                                     axes) (skipn 2 ks))
                ++ [(full (config_module c) (config_metricset c) m, None)])
             = Ok dk).
  { unfold dedup_key_of. rewrite sorted_comparable; [eexists; reflexivity|].
    apply distinct_names_comparable.
    rewrite !map_app, !map_map.
    change (fun x : string * key => fst (fst x, Some (snd x))) with (@fst string key).
    change (map fst [(full (config_module c) (config_metricset c) m, @None key)])
      with [full (config_module c) (config_metricset c) m].
    rewrite !map_fst_combine.
    - unfold names in Hnames. rewrite map_app, <- app_assoc in Hnames. exact Hnames.
    - rewrite length_map, length_skipn. lia.
    - rewrite length_map, length_firstn. change (List.length HOST_AXES) with 2%nat. lia. }
  destruct Hkey as [dk Hkey].
  unfold leaf_event. cbv zeta. fold axes.
  change (List.length HOST_AXES) with 2%nat.
  replace (2 + 1 <=? List.length (ks ++ [KStr m]))%nat with true
    by (symmetry; apply Nat.leb_le; rewrite length_app; simpl; lia).
  cbn [assert bind]. rewrite last_last. cbn [bind].
  rewrite Hskip, Hfirst.
  replace (List.length axes =? List.length (skipn 2 ks))%nat with true
    by (symmetry; apply Nat.eqb_eq; rewrite length_skipn; lia).
  cbn [assert bind]. unfold getitem. rewrite Hget. cbn [bind].
  rewrite Hcheck. cbn [bind]. unfold iterate. rewrite Hkey. cbn [bind].
  destruct severity; eexists; reflexivity.
Qed.

(** A null value under a metric whose ladder is monotonic and not empty
    ends the evaluation, and the turn of the loop, in a [TypeError]. *)
Lemma null_leaf_event_raises (c : config N) (ks : list key) (m : string) :
  let axes := match config_axes c with Some axes => axes | None => [] end in
  List.length ks = List.length (HOST_AXES ++ axes) ->
  In m (map fst (config_metrics c)) ->
  (forall tc, In (m, tc) (config_metrics c) ->
              (strictly_increasing (map snd (ladder tc)) = true
               \/ strictly_decreasing (map snd (ladder tc)) = true)
              /\ ladder tc <> []) ->
  null_leaf_event c (ks ++ [KStr m]) = Raise TypeError.
Proof.
  intros axes Hlen Hm Hmono.
  rewrite length_app in Hlen. change (List.length HOST_AXES) with 2%nat in Hlen.
  destruct (dict_get_of_key _ _ Hm) as (tc & Hget & Htc).
  destruct (Hmono tc Htc) as [Hdir Hne].
  unfold null_leaf_event. cbv zeta. fold axes.
  change (List.length HOST_AXES) with 2%nat.
  replace (2 + 1 <=? List.length (ks ++ [KStr m]))%nat with true
    by (symmetry; apply Nat.leb_le; rewrite length_app; simpl; lia).
  cbn [assert bind]. rewrite last_last. cbn [bind].
  replace (removelast (skipn 2 (ks ++ [KStr m]))) with (skipn 2 ks).
  2:{ rewrite skipn_app. replace (2 - List.length ks)%nat with 0%nat by lia.
      simpl. symmetry. apply removelast_last. }
  replace (List.length axes =? List.length (skipn 2 ks))%nat with true
    by (symmetry; apply Nat.eqb_eq; rewrite length_skipn; lia).
  cbn [assert bind]. unfold getitem. rewrite Hget. cbn [bind].
  unfold check_null. destruct (ladder tc) as [|p rest]; [contradiction|].
  cbv zeta. apply orb_true_iff in Hdir. rewrite Hdir. reflexivity.
Qed.

Lemma post_nullable_events_all (clock : nat -> Z) (c : config N)
      (leaves : list (path * option N)) (i : nat) :
  (forall t kv, In kv leaves ->
                exists b, nullable_leaf_event t c (fst kv) (snd kv) = Ok b) ->
  exists posted,
    post_nullable_events clock c i leaves = (posted, None) /\
    List.length posted = List.length leaves.
Proof.
  revert i. induction leaves as [|[k v] leaves IH]; intros i Hall; simpl.
  - exists []. now split.
  - destruct (Hall (clock i) (k, v) (or_introl eq_refl)) as [b Hb]. simpl in Hb.
    rewrite Hb.
    destruct (IH (S i) (fun t kv Hin => Hall t kv (or_intror Hin)))
      as (posted & Hpost & Hlen).
    rewrite Hpost. exists (b :: posted). split; [reflexivity | simpl; now rewrite Hlen].
Qed.

Lemma post_nullable_events_stop (clock : nat -> Z) (c : config N)
      (pre post : list (path * option N)) (k : path) (v : option N) (e : exn)
      (i : nat) :
  (forall t kv, In kv pre ->
                exists b, nullable_leaf_event t c (fst kv) (snd kv) = Ok b) ->
  (forall t, nullable_leaf_event t c k v = Raise e) ->
  exists posted,
    post_nullable_events clock c i (pre ++ (k, v) :: post) = (posted, Some e) /\
    List.length posted = List.length pre.
Proof.
  revert i. induction pre as [|[k' v'] pre IH]; intros i Hall Hraise; simpl.
  - rewrite Hraise. exists []. now split.
  - destruct (Hall (clock i) (k', v') (or_introl eq_refl)) as [b Hb]. simpl in Hb.
    rewrite Hb.
    destruct (IH (S i) (fun t kv Hin => Hall t kv (or_intror Hin)) Hraise)
      as (posted & Hpost & Hlen).
    rewrite Hpost. exists (b :: posted). split; [reflexivity | simpl; now rewrite Hlen].
Qed.

(** One cycle of a group, where the store answers with a response that
    the tabulator accepts, every ladder of the group is monotonic, the
    qualified names of the axes and metrics are distinct and every post
    returns.  If no value of the table is null, no assertion of the loop
    fails, no key is missing, and one event is posted for every cell of
    the table.  If a value is null and no ladder is empty, the cycle
    ends in a [TypeError] at the first null value, having posted the
    events of the cells before it. *)
Theorem run_config_posts_every_cell (time : Q) (clock : nat -> Z)
        (execute : Search -> Aggs (option N)) (c : config N) :
  let axes := match config_axes c with Some axes => axes | None => [] end in
  let qualified := full (config_module c) (config_metricset c) in
  config_metrics c <> [] ->
  (forall q, exists t,
      build_result_buckets (execute q) (map fst (config_metrics c))
                           (HOST_AXES ++ axes) = Ok t) ->
  (forall m tc, In (m, tc) (config_metrics c) ->
                strictly_increasing (map snd (ladder tc)) = true
                \/ strictly_decreasing (map snd (ladder tc)) = true) ->
  (forall m, In m (map fst (config_metrics c)) ->
             NoDup (map qualified (HOST_AXES ++ axes) ++ [qualified m])) ->
  exists q t,
    build_bucket_search time (map fst (config_metrics c))
                        (Some (config_metricset c)) (Some (config_module c))
                        (HOST_AXES ++ axes) false (Some (config_window c)) None
    = Ok q /\
    build_result_buckets (execute q) (map fst (config_metrics c))
                         (HOST_AXES ++ axes) = Ok t /\
    ((forall p, ~ In (p, None) (flatten t)) ->
     exists posted,
       run_nullable_config time clock execute c = (posted, None) /\
       List.length posted = List.length (flatten t)) /\
    (forall pre p post,
        flatten t = pre ++ (p, None) :: post ->
        (forall p', ~ In (p', None) pre) ->
        (forall m tc, In (m, tc) (config_metrics c) -> ladder tc <> []) ->
        exists posted,
          run_nullable_config time clock execute c = (posted, Some TypeError) /\
          List.length posted = List.length pre).
Proof.
  intros axes qualified Hne Hexec Hmono Hnames.
  unfold run_nullable_config. cbv zeta. fold axes.
  destruct (config_metrics c) as [|[m0 tc0] rest] eqn:Ec; [contradiction|].
  rewrite <- Ec in *.
  assert (Hq : exists q,
             build_bucket_search time (map fst (config_metrics c))
                                 (Some (config_metricset c)) (Some (config_module c))
                                 (HOST_AXES ++ axes) false
                                 (Some (config_window c)) None = Ok q).
  { rewrite Ec. eexists. reflexivity. }
  destruct Hq as [q Hq]. destruct (Hexec q) as [t Ht].
  exists q, t. split; [exact Hq|]. split; [exact Ht|].
  rewrite Hq, Ht.
  assert (Hcell : forall tm p x,
             In (p, Some x) (flatten t) ->
             exists b, nullable_leaf_event tm c p (Some x) = Ok b).
  { intros tm p x Hin. simpl.
    destruct (proj2 (brb_cells _ _ _ _ Ht) p (Some x) Hin)
      as (ks & m & sub & -> & Hks & Hm & _).
    apply leaf_event_returns; fold axes.
    - exact Hks.
    - exact Hm.
    - intros tc Htc. exact (Hmono m tc Htc).
    - exact (Hnames m Hm). }
  split.
  - intros Hnonull. apply post_nullable_events_all.
    intros tm [p [x|]] Hin; [now apply Hcell | now apply Hnonull in Hin].
  - intros pre p post Hsplit Hpre Hladders. rewrite Hsplit.
    apply post_nullable_events_stop.
    + intros tm [p' [x|]] Hin; [|now apply Hpre in Hin].
      apply Hcell. rewrite Hsplit. apply in_or_app. now left.
    + intros tm. simpl.
      destruct (proj2 (brb_cells _ _ _ _ Ht) p None)
        as (ks & m & sub & -> & Hks & Hm & _).
      { rewrite Hsplit. apply in_or_app. right. now left. }
      apply null_leaf_event_raises; fold axes.
      * exact Hks.
      * exact Hm.
      * intros tc Htc. split; [exact (Hmono m tc Htc) | exact (Hladders m tc Htc)].
Qed.

End CycleFacts.

(** The cycle of the memory group over a response whose second instance
    has no value: the event of the first instance is posted, and the
    cycle ends in a [TypeError] before the third is looked at. *)
Example null_value_stops_cycle :
  run_nullable_config (inject_Z 1551492003) (fun _ => 1551492003)
                      (fun _ => memory_null_response) memory_config
  = ([memory_trigger_event], Some TypeError).
Proof. vm_compute. reflexivity. Qed.

Lemma run_config_posts_every_cell_witness :
  exists q t,
    build_bucket_search (inject_Z 1551492003) (map fst (config_metrics memory_config))
                        (Some (config_metricset memory_config))
                        (Some (config_module memory_config))
                        (HOST_AXES ++ []) false
                        (Some (config_window memory_config)) None
    = Ok q /\
    build_result_buckets memory_null_response
                         (map fst (config_metrics memory_config))
                         (HOST_AXES ++ []) = Ok t /\
    ((forall p, ~ In (p, None) (flatten t)) ->
     exists posted,
       run_nullable_config (inject_Z 1551492003) (fun _ => 1551492003)
                           (fun _ => memory_null_response) memory_config
       = (posted, None) /\
       List.length posted = List.length (flatten t)) /\
    (forall pre p post,
        flatten t = pre ++ (p, None) :: post ->
        (forall p', ~ In (p', None) pre) ->
        (forall m tc, In (m, tc) (config_metrics memory_config) -> ladder tc <> []) ->
        exists posted,
          run_nullable_config (inject_Z 1551492003) (fun _ => 1551492003)
                              (fun _ => memory_null_response) memory_config
          = (posted, Some TypeError) /\
          List.length posted = List.length pre).
Proof.
  apply (run_config_posts_every_cell
           (inject_Z 1551492003) (fun _ => 1551492003)
           (fun _ => memory_null_response) memory_config).
  - discriminate.
  - intros _. eexists. reflexivity.
  - intros m tc [[= <- <-] | []]. left. reflexivity.
  - intros m [<- | []]. simpl. repeat constructor; simpl; intuition discriminate.
Defined.

(** A key is built exactly when no two of the chained pairs have the
    same name and values of different kinds ([None], [str], [int]);
    otherwise building it ends in a [TypeError]. *)
Theorem dedup_key_exists_iff_comparable (chained : list (string * option key)) :
  ((exists k, dedup_key_of chained = Ok k) <-> pairwise_comparable chained) /\
  (forall e, dedup_key_of chained = Raise e -> e = TypeError).
Proof.
  unfold dedup_key_of. split; [split|].
  - intros [k Hk]. destruct (sorted chained) as [all_items|e] eqn:Es;
      cbn [bind] in Hk; [|discriminate].
    exact (sorted_returns _ _ Es).
  - intros Hcmp. rewrite (sorted_comparable _ Hcmp). cbn [bind]. eexists. reflexivity.
  - intros e. destruct (sorted chained) as [all_items|e'] eqn:Es; cbn [bind];
      [discriminate|].
    intros He. assert (e' = e) by congruence. subst e'.
    exact (sorted_raises _ _ Es).
Qed.

(** An axis whose qualified name is the qualified metric spec leaves the
    event without a key: its value meets the [None] that goes with the
    metric. *)
Theorem dedup_key_name_clash (pairs : list (string * key)) (metric_name : string)
        (value : key) :
  In (metric_name, value) pairs ->
  dedup_key_of (map (fun nv => (fst nv, Some (snd nv))) pairs
                ++ [(metric_name, None)])
  = Raise TypeError.
Proof.
  intros Hin. unfold dedup_key_of.
  destruct (sorted _) as [all_items|e] eqn:Es; cbn [bind].
  - exfalso. apply sorted_returns in Es.
    destruct (Es (metric_name, Some value) (metric_name, None)) as [Hne | Hkind].
    + apply in_or_app. left. apply in_map_iff. now exists (metric_name, value).
    + apply in_or_app. right. now left.
    + now apply Hne.
    + destruct value; discriminate.
  - now rewrite (sorted_raises _ _ Es).
Qed.

Lemma dedup_key_exists_iff_comparable_witness :
  exists k, dedup_key_of [("cloud.region", Some (KStr "us-east-1"));
                          ("system.memory.used.pct:avg", None)] = Ok k.
Proof.
  apply (proj2 (proj1 (dedup_key_exists_iff_comparable
                         [("cloud.region", Some (KStr "us-east-1"));
                          ("system.memory.used.pct:avg", None)]))).
  apply distinct_names_comparable. repeat constructor; simpl; intuition discriminate.
Defined.

Lemma dedup_key_name_clash_witness :
  dedup_key_of [("cloud.region", Some (KStr "us-east-1")); ("cloud.region", None)]
  = Raise TypeError.
Proof.
  apply (dedup_key_name_clash [("cloud.region", KStr "us-east-1")] "cloud.region"
                              (KStr "us-east-1")).
  now left.
Defined.

(* ################################################################# *)
(** * More on the query builder *)

Lemma free_of_String (sep c : ascii) (s : string) :
  free_of sep (String c s) <-> c <> sep /\ free_of sep s.
Proof. unfold free_of. simpl. intuition congruence. Qed.

Lemma split_nonempty (sep : ascii) (s : string) : split sep s <> [].
Proof.
  induction s as [|c s IH]; simpl; [discriminate|].
  destruct (Ascii.eqb c sep); [discriminate|].
  destruct (split sep s); [contradiction | discriminate].
Qed.

(** Text before the first separator ends up in the first part. *)
Lemma split_app (sep : ascii) (a b : string) :
  free_of sep a ->
  split sep (a +++ b)
  = (a +++ hd EmptyString (split sep b)) :: tl (split sep b).
Proof.
  induction a as [|c a IH]; intros Hfree; simpl.
  - pose proof (split_nonempty sep b). now destruct (split sep b).
  - apply free_of_String in Hfree. destruct Hfree as [Hc Hfree].
    destruct (Ascii.eqb_spec c sep) as [-> | _]; [contradiction|].
    now rewrite (IH Hfree).
Qed.

Lemma split_free (sep : ascii) (s : string) : free_of sep s -> split sep s = [s].
Proof.
  induction s as [|c s IH]; intros Hfree; simpl; [reflexivity|].
  apply free_of_String in Hfree. destruct Hfree as [Hc Hfree].
  destruct (Ascii.eqb_spec c sep) as [-> | _]; [contradiction|].
  now rewrite (IH Hfree).
Qed.

Lemma split_sep (sep : ascii) (a b : string) :
  free_of sep a -> split sep (a +++ String sep b) = a :: split sep b.
Proof.
  intros Hfree. rewrite (split_app sep a _ Hfree). simpl.
  rewrite Ascii.eqb_refl. simpl.
  f_equal. induction a as [|c a IH]; simpl; [reflexivity|].
  apply free_of_String in Hfree. now rewrite IH.
Qed.

Lemma rsplit1_free (sep : ascii) (s : string) : free_of sep s -> rsplit1 sep s = None.
Proof.
  induction s as [|c s IH]; intros Hfree; simpl; [reflexivity|].
  apply free_of_String in Hfree. destruct Hfree as [Hc Hfree].
  rewrite (IH Hfree). destruct (Ascii.eqb_spec c sep); [contradiction | reflexivity].
Qed.

Lemma rsplit1_sep (sep : ascii) (a b : string) :
  free_of sep b -> rsplit1 sep (a +++ String sep b) = Some (a, b).
Proof.
  intros Hfree. induction a as [|c a IH]; simpl.
  - rewrite (rsplit1_free sep b Hfree). now rewrite Ascii.eqb_refl.
  - now rewrite IH.
Qed.

(** What [rsplit1] returns puts the string back together, and the last
    part has no separator. *)
Lemma rsplit1_inv (sep : ascii) (s a b : string) :
  rsplit1 sep s = Some (a, b) -> s = a +++ String sep b /\ free_of sep b.
Proof.
  revert a. induction s as [|c s IH]; intros a; simpl; [discriminate|].
  destruct (rsplit1 sep s) as [[a' b']|] eqn:Er.
  - intros [= <- <-]. destruct (IH a' eq_refl) as [-> Hfree]. now split.
  - destruct (Ascii.eqb_spec c sep) as [-> | _]; [|discriminate].
    intros [= <- <-]. split; [reflexivity|].
    clear IH. revert Er. unfold free_of.
    induction s as [|d s IHs]; simpl; [tauto|].
    destruct (rsplit1 sep s) as [[? ?]|]; [discriminate|].
    destruct (Ascii.eqb_spec d sep) as [-> | Hne]; [discriminate|].
    intros _ [Hd | Hin]; [congruence | now apply IHs].
Qed.






(** A spec without a colon is aggregated by [avg] on the whole spec; a
    spec [name:agg] by [agg] on [name], where [name] may have colons of
    its own. *)
Theorem spec_is_cut_at_last_colon (module metricset name agg : string) :
  free_of ":" agg ->
  metric_bucket module metricset [] (name +++ String ":" agg)
  = [(name +++ String ":" agg, MkAgg agg (full module metricset name) [])] /\
  metric_bucket module metricset [] agg
  = [(agg, MkAgg "avg" (full module metricset agg) [])].
Proof.
  intros Hfree. unfold metric_bucket.
  now rewrite (rsplit1_sep ":" name agg Hfree), (rsplit1_free ":" agg Hfree).
Qed.

Lemma free_of_app (sep : ascii) (a b : string) :
  free_of sep (a +++ b) <-> free_of sep a /\ free_of sep b.
Proof.
  induction a as [|c a IH]; simpl.
  - unfold free_of at 2. simpl. tauto.
  - rewrite !free_of_String, IH. tauto.
Qed.

(** Building a query raises [IndexError] when there is no metric, and
    when no metricset is given and the name of the first metric, which
    is its spec up to the first colon, has no dot: there is no second
    component to take the metricset from. *)
Theorem build_bucket_search_raises (now : Q) (metrics : list string)
        (metricset module : option string) (axes : list string) (with_docs : bool)
        (window end_time : option Q) :
  metrics = [] \/
  (metricset = None /\
   free_of "." (hd EmptyString (split ":" (hd EmptyString metrics)))) ->
  build_bucket_search now metrics metricset module axes with_docs window end_time
  = Raise IndexError.
Proof.
  unfold build_bucket_search.
  intros [-> | [-> Hfree]]; [reflexivity|].
  destruct metrics as [|m0 rest]; [reflexivity|].
  cbn [bind hd] in *. rewrite (split_free "." _ Hfree).
  now destruct module.
Qed.

(** Without [module] and [metricset] the query filters on the first two
    dotted components of the name of the first metric. *)
Theorem module_and_metricset_inferred (now : Q) (p0 p1 rest : string)
        (more axes : list string) (with_docs : bool) (window end_time : option Q) :
  free_of "." p0 -> free_of ":" p0 -> free_of "." p1 -> free_of ":" p1 ->
  exists q gte lt,
    build_bucket_search now ((p0 +++ String "." (p1 +++ String "." rest)) :: more)
                        None None axes with_docs window end_time = Ok q /\
    search_filter q = [Term "metricset.module" p0;
                       Term "metricset.name" p1;
                       Range "@timestamp" gte lt].
Proof.
  intros Hd0 Hc0 Hd1 Hc1. unfold build_bucket_search. cbn [bind].
  assert (Hpath : exists tail,
             split "." (hd EmptyString
                          (split ":" (p0 +++ String "." (p1 +++ String "." rest))))
             = p0 :: p1 :: tail).
  { replace (p0 +++ String "." (p1 +++ String "." rest))
      with ((p0 +++ String "." (p1 +++ ".")) +++ rest)
      by (rewrite append_assoc; simpl; now rewrite append_assoc).
    rewrite split_app.
    - cbn [hd]. rewrite append_assoc. simpl. rewrite append_assoc. simpl.
      rewrite (split_sep "." p0 _ Hd0), (split_sep "." p1 _ Hd1).
      eexists. reflexivity.
    - apply free_of_app. split; [exact Hc0|].
      apply free_of_String. split; [discriminate|].
      apply free_of_app. split; [exact Hc1|].
      apply free_of_String. split; [discriminate | intros []]. }
  destruct Hpath as [tail ->]. cbn [bind].
  eexists. eexists. eexists. split; reflexivity.
Qed.


Lemma spec_is_cut_at_last_colon_witness :
  metric_bucket "system" "memory" [] ".used.pct:avg"
  = [(".used.pct:avg", MkAgg "avg" "system.memory.used.pct" [])] /\
  metric_bucket "system" "memory" [] "avg"
  = [("avg", MkAgg "avg" "avg" [])].
Proof.
  apply (spec_is_cut_at_last_colon "system" "memory" ".used.pct" "avg").
  unfold free_of. simpl. intuition discriminate.
Defined.

Lemma build_bucket_search_raises_witness :
  build_bucket_search 0 ["cpu:avg"] None (Some "system") [] false None None
  = Raise IndexError.
Proof.
  apply (build_bucket_search_raises 0 ["cpu:avg"] None (Some "system") [] false
                                    None None).
  right. split; [reflexivity|]. unfold free_of. simpl. intuition discriminate.
Defined.

Lemma module_and_metricset_inferred_witness :
  exists q gte lt,
    build_bucket_search 0 ["system.memory.used.pct:avg"] None None [] false
                        None None = Ok q /\
    search_filter q = [Term "metricset.module" "system";
                       Term "metricset.name" "memory";
                       Range "@timestamp" gte lt].
Proof.
  apply (module_and_metricset_inferred 0 "system" "memory" "used.pct:avg" [] []
                                       false None None);
    unfold free_of; simpl; intuition discriminate.
Defined.

(* ################################################################# *)
(** * The ticker *)

(** The time at which the next tick of a ticker that is not canceled is
    due. *)
Lemma next_tick_due (self : Ticker) :
  canceled self = false ->
  next_tick self
  = Some (start_time self + inject_Z (ticks self) * period self)%Q.
Proof. unfold next_tick. now intros ->. Qed.

Lemma wait_for_tick_canceled (self : Ticker) (now : Q) (wakeups : list (bool * Q)) :
  canceled self = true -> wait_for_tick self now wakeups = RaisedTypeError.
Proof. intros Hc. destruct wakeups; simpl; unfold next_tick; now rewrite Hc. Qed.

Lemma last_tick_after (self : Ticker) :
  0 <= ticks self ->
  last_tick {| start_time := start_time self; period := period self;
               ticks := ticks self + 1; canceled := canceled self |}
  = Some (start_time self + inject_Z (ticks self) * period self)%Q.
Proof.
  intros Hpos. unfold last_tick. cbn [ticks start_time period].
  destruct (Z.eqb_spec (ticks self + 1) 0) as [E|_]; [lia|].
  now rewrite Z.add_simpl_r.
Qed.

Lemma wait_for_tick_served (self : Ticker) (now : Q) (wakeups : list (bool * Q))
      (tick : option Q) (self' : Ticker) :
  0 <= ticks self ->
  canceled self = false ->
  wait_for_tick self now wakeups = Served tick self' ->
  let due := (start_time self + inject_Z (ticks self) * period self)%Q in
  exists pre t post,
    now :: map snd wakeups = pre ++ t :: post /\
    Forall (fun r => time_lt r due = true) pre /\
    time_lt t due = false /\
    Forall (fun w => fst w = false) (firstn (List.length pre) wakeups) /\
    tick = Some due /\
    self' = {| start_time := start_time self; period := period self;
               ticks := ticks self + 1; canceled := false |}.
Proof.
  intros Hpos Hc. revert now.
  induction wakeups as [|[c now'] wakeups IH]; intros now Hw due.
  - simpl in Hw. rewrite (next_tick_due self Hc) in Hw. fold due in Hw.
    destruct (time_lt now due) eqn:Hlt; [discriminate|].
    injection Hw as <- <-.
    exists [], now, []. rewrite (last_tick_after self Hpos), Hc.
    repeat split; try constructor. exact Hlt.
  - simpl in Hw. rewrite (next_tick_due self Hc) in Hw. fold due in Hw.
    destruct (time_lt now due) eqn:Hlt.
    + destruct c.
      * now rewrite wait_for_tick_canceled in Hw.
      * destruct (IH now' Hw) as (pre & t & post & Hsplit & Hpre & Ht & Hnc & -> & ->).
        exists (now :: pre), t, post. simpl. rewrite Hsplit.
        split; [reflexivity|].
        split; [constructor; assumption|].
        split; [assumption|].
        split; [constructor; [reflexivity | assumption]|].
        split; reflexivity.
    + injection Hw as <- <-.
      exists [], now, (now' :: map snd wakeups).
      rewrite (last_tick_after self Hpos), Hc.
      repeat split; try constructor. exact Hlt.
Qed.

Lemma wait_for_tick_not_stop (self : Ticker) (now : Q) (wakeups : list (bool * Q)) :
  wait_for_tick self now wakeups <> StopAsyncIteration.
Proof.
  revert self now. induction wakeups as [|[c now'] wakeups IH]; intros self now;
    simpl; destruct (next_tick self); try discriminate;
    destruct (time_lt now q); try discriminate.
  apply IH.
Qed.

(** A call of [__anext__] that returns serves the tick that was due when
    it was called, at the first reading of the clock that is not before
    that time, and without a [cancel()] meanwhile; it counts the tick and
    leaves start time and period as they were, so that the time of the
    next tick is computed from the start time and the number of ticks
    served, not from the time at which this one was served. *)
Theorem anext_serves_due_tick (self : Ticker) (now : Q) (wakeups : list (bool * Q))
        (tick : option Q) (self' : Ticker) :
  0 <= ticks self ->
  __anext__ self now wakeups = Served tick self' ->
  exists due pre t post,
    next_tick self = Some due /\
    tick = Some due /\
    last_tick self' = Some due /\
    now :: map snd wakeups = pre ++ t :: post /\
    Forall (fun r => time_lt r due = true) pre /\
    time_lt t due = false /\
    Forall (fun w => fst w = false) (firstn (List.length pre) wakeups) /\
    self' = {| start_time := start_time self; period := period self;
               ticks := ticks self + 1; canceled := false |} /\
    next_tick self'
    = Some (start_time self + inject_Z (ticks self + 1) * period self)%Q.
Proof.
  intros Hpos. unfold __anext__. destruct (canceled self) eqn:Hc; [discriminate|].
  intros Hw.
  destruct (wait_for_tick_served self now wakeups tick self' Hpos Hc Hw)
    as (pre & t & post & Hsplit & Hpre & Ht & Hnc & -> & ->).
  eexists. exists pre, t, post.
  split; [apply (next_tick_due self Hc)|].
  split; [reflexivity|].
  split.
  { pose proof (last_tick_after self Hpos) as Hl. now rewrite Hc in Hl. }
  do 4 (split; [assumption || reflexivity|]).
  split; reflexivity.
Qed.

(** A call of [__anext__] on a ticker that is not canceled returns as
    soon as the clock reads the due time or later, provided that no
    [cancel()] runs before; it returns at once when the tick is already
    due. *)
Theorem anext_serves_when_due (self : Ticker) (now : Q) (wakeups : list (bool * Q))
        (pre : list Q) (t : Q) (post : list Q) :
  0 <= ticks self ->
  canceled self = false ->
  now :: map snd wakeups = pre ++ t :: post ->
  Forall (fun r => time_lt r (start_time self
                              + inject_Z (ticks self) * period self)%Q = true) pre ->
  time_lt t (start_time self + inject_Z (ticks self) * period self)%Q = false ->
  Forall (fun w => fst w = false) (firstn (List.length pre) wakeups) ->
  __anext__ self now wakeups
  = Served (Some (start_time self + inject_Z (ticks self) * period self)%Q)
           {| start_time := start_time self; period := period self;
              ticks := ticks self + 1; canceled := false |}.
Proof.
  intros Hpos Hc. unfold __anext__. rewrite Hc.
  set (due := (start_time self + inject_Z (ticks self) * period self)%Q).
  revert now wakeups.
  induction pre as [|r pre IH]; intros now wakeups Hsplit Hpre Ht Hnc.
  - simpl in Hsplit. injection Hsplit as -> _.
    destruct wakeups as [|[c now'] wakeups]; simpl;
      rewrite (next_tick_due self Hc); fold due; rewrite Ht;
      rewrite (last_tick_after self Hpos), Hc; reflexivity.
  - simpl in Hsplit. injection Hsplit as -> Hsplit.
    apply Forall_cons_iff in Hpre. destruct Hpre as [Hr Hpre].
    destruct wakeups as [|[c now'] wakeups]; [now destruct pre|].
    simpl in Hnc. apply Forall_cons_iff in Hnc. destruct Hnc as [Hcf Hnc].
    simpl in Hcf. subst c. simpl.
    rewrite (next_tick_due self Hc). fold due. rewrite Hr.
    now apply IH.
Qed.

(** A [cancel()] that runs while a call of [__anext__] sleeps makes the
    call raise [TypeError]; [StopAsyncIteration] is raised exactly by the
    calls made after the [cancel()]. *)
Theorem cancel_during_sleep_raises_TypeError (self : Ticker) (now : Q)
        (pre : list (bool * Q)) (t : Q) (post : list (bool * Q)) (due : Q) :
  next_tick self = Some due ->
  time_lt now due = true ->
  Forall (fun w => fst w = false /\ time_lt (snd w) due = true) pre ->
  __anext__ self now (pre ++ (true, t) :: post) = RaisedTypeError /\
  (forall now wakeups,
      __anext__ self now wakeups <> StopAsyncIteration) /\
  (forall now wakeups,
      __anext__ (cancel self) now wakeups = StopAsyncIteration).
Proof.
  intros Hdue Hnow Hpre.
  assert (Hc : canceled self = false).
  { unfold next_tick in Hdue. now destruct (canceled self). }
  split; [|split].
  - unfold __anext__. rewrite Hc. clear Hc. revert now Hnow.
    induction pre as [|[c now'] pre IH]; intros now Hnow; simpl; rewrite Hdue, Hnow.
    + now apply wait_for_tick_canceled.
    + apply Forall_cons_iff in Hpre. destruct Hpre as [[Hcf Hlt] Hpre].
      simpl in Hcf, Hlt. subst c. now apply IH.
  - intros now0 wakeups. unfold __anext__. rewrite Hc.
    apply wait_for_tick_not_stop.
  - reflexivity.
Qed.

Lemma anext_serves_due_tick_witness :
  exists due pre t post,
    next_tick ten_second_ticker = Some due /\
    Some (100 + inject_Z 0 * 10)%Q = Some due /\
    last_tick {| start_time := 100; period := 10; ticks := 0 + 1;
                 canceled := false |} = Some due /\
    inject_Z 99 :: map snd [(false, 99 # 1); (false, 101 # 1)] = pre ++ t :: post /\
    Forall (fun r => time_lt r due = true) pre /\
    time_lt t due = false /\
    Forall (fun w => fst w = false)
           (firstn (List.length pre) [(false, 99 # 1); (false, 101 # 1)]) /\
    {| start_time := 100; period := 10; ticks := 0 + 1; canceled := false |}
    = {| start_time := start_time ten_second_ticker;
         period := period ten_second_ticker;
         ticks := ticks ten_second_ticker + 1; canceled := false |} /\
    next_tick {| start_time := 100; period := 10; ticks := 0 + 1;
                 canceled := false |}
    = Some (start_time ten_second_ticker
            + inject_Z (ticks ten_second_ticker + 1) * period ten_second_ticker)%Q.
Proof.
  apply (anext_serves_due_tick ten_second_ticker (inject_Z 99)
                               [(false, 99 # 1); (false, 101 # 1)]).
  - simpl. lia.
  - reflexivity.
Defined.

Lemma anext_serves_when_due_witness :
  __anext__ ten_second_ticker (inject_Z 99) [(false, 99 # 1); (false, 101 # 1)]
  = Served (Some (100 + inject_Z 0 * 10)%Q)
           {| start_time := 100; period := 10; ticks := 0 + 1; canceled := false |}.
Proof.
  apply (anext_serves_when_due ten_second_ticker (inject_Z 99)
                               [(false, 99 # 1); (false, 101 # 1)]
                               [inject_Z 99; 99 # 1] (101 # 1) []).
  - simpl. lia.
  - reflexivity.
  - reflexivity.
  - repeat constructor.
  - reflexivity.
  - repeat constructor.
Defined.

Lemma cancel_during_sleep_raises_TypeError_witness :
  __anext__ ten_second_ticker (inject_Z 95) ([(false, 97 # 1)] ++ (true, 101 # 1) :: [])
  = RaisedTypeError /\
  (forall now wakeups,
      __anext__ ten_second_ticker now wakeups <> StopAsyncIteration) /\
  (forall now wakeups,
      __anext__ (cancel ten_second_ticker) now wakeups = StopAsyncIteration).
Proof.
  apply (cancel_during_sleep_raises_TypeError
           ten_second_ticker (inject_Z 95) [(false, 97 # 1)] (101 # 1) []
           (100 + inject_Z 0 * 10)%Q).
  - reflexivity.
  - reflexivity.
  - repeat constructor.
Defined.

(* ################################################################# *)
(** * The timestamps of the query *)

(** The milliseconds that [unix2es] prints: the thousandths of [ts],
    rounded down. *)
Lemma unix2es_ms (ts : Q) :
  int_of_Q (Qmult (Qminus ts (inject_Z (Qfloor ts))) (inject_Z 1000))
  = Qfloor (ts * inject_Z 1000) mod 1000.
Proof.
  destruct ts as [n d]. unfold int_of_Q, Qfloor, Qminus, Qplus, Qopp, Qmult, inject_Z.
  cbn [Qnum Qden]. rewrite !Pos.mul_1_r, !Z.mul_1_r.
  pose proof (Z.div_mod n (Zpos d) ltac:(lia)) as Hdm.
  pose proof (Z.mod_pos_bound n (Zpos d) ltac:(lia)) as Hr.
  set (q := n / Zpos d) in *. set (r := n mod Zpos d) in *.
  replace ((n + - q * Zpos d) * 1000) with (r * 1000) by lia.
  rewrite Z.quot_div_nonneg by lia.
  replace (n * 1000) with (r * 1000 + (1000 * q) * Zpos d) by lia.
  rewrite Z.div_add by lia.
  rewrite (Z.mul_comm 1000 q), Z.mod_add by lia.
  symmetry. apply Z.mod_small. split.
  - apply Z.div_pos; lia.
  - apply Z.div_lt_upper_bound; lia.
Qed.

(** [unix2es] prints a whole number of seconds of the years 1970 to
    9999 as the date and time followed by [.000Z]: the form
    [YYYY-MM-DDThh:mm:ss.mmmZ] with the fractional part zeroed out. *)
Theorem unix2es_whole_seconds (ts : Z) :
  0 <= ts < 253402300800 ->
  unix2es (inject_Z ts)
  = strftime "%Y-%m-%dT%H:%M:%S" (gmtime ts) +++ ".000Z" /\
  matches ISO_MILLIS (unix2es (inject_Z ts)) = true.
Proof.
  intros Hts.
  assert (Heq : unix2es (inject_Z ts)
                = strftime "%Y-%m-%dT%H:%M:%S" (gmtime ts) +++ ".000Z").
  { unfold unix2es. cbv zeta. rewrite unix2es_ms, Qfloor_Z.
    replace (Qfloor (inject_Z ts * inject_Z 1000)) with (ts * 1000)
      by (unfold Qfloor, Qmult, inject_Z; simpl; now rewrite Z.div_1_r).
    now rewrite Z.mod_mul by lia. }
  split; [exact Heq|]. rewrite Heq. unfold ISO_MILLIS.
  apply matches_app; [now apply strftime_date_time | reflexivity].
Qed.

Lemma unix2es_whole_seconds_witness :
  unix2es (inject_Z 3) = "1970-01-01T00:00:03.000Z" /\
  matches ISO_MILLIS (unix2es (inject_Z 3)) = true.
Proof.
  apply (unix2es_whole_seconds 3). lia.
Defined.

(* ################################################################# *)
(** * What flatten yields, and subscripting *)

Section SubscriptFacts.

Context {L : Type}.

Lemma yield_from_each_Exhausted {A Y : Type} (body : A -> list Y * ending)
      (xs : list A) (ys : list Y) :
  yield_from_each body xs = (ys, Exhausted) ->
  Forall (fun x => snd (body x) = Exhausted) xs /\
  ys = flat_map (fun x => fst (body x)) xs.
Proof.
  revert ys. induction xs as [|x xs IH]; intros ys; simpl.
  - intros [= <-]. split; [constructor | reflexivity].
  - destruct (body x) as [ys1 [|]] eqn:Eb; [|discriminate].
    destruct (yield_from_each body xs) as [ys2 e].
    intros [= <- ->]. destruct (IH ys2 eq_refl) as [Hall Hys]. split.
    + constructor; [now rewrite Eb | exact Hall].
    + simpl. now f_equal.
Qed.

(** An index from the front is the position in the list. *)
Lemma seq_index_front {A : Type} (xs : list A) (i : Z) :
  0 <= i -> seq_index xs i = nth_error xs (Z.to_nat i).
Proof.
  intros Hi. unfold seq_index.
  destruct (Z.ltb_spec i 0) as [Hneg|_]; [lia|].
  destruct (Z.ltb_spec i 0) as [Hneg|_]; [lia|]. simpl.
  destruct (Z.leb_spec (Z.of_nat (List.length xs)) i) as [Hout|_]; [|reflexivity].
  symmetry. apply nth_error_None. lia.
Qed.

(** Every item that an index reaches is reached by an index from the
    front. *)
Lemma seq_index_from_front {A : Type} (xs : list A) (i : Z) (a : A) :
  seq_index xs i = Some a -> exists j, 0 <= j /\ seq_index xs j = Some a.
Proof.
  intros Hi. destruct (Z.ltb_spec i 0) as [Hneg | Hpos]; [|now exists i].
  exists (i + Z.of_nat (List.length xs)).
  unfold seq_index in Hi. destruct (Z.ltb_spec i 0) as [_|]; [|lia].
  destruct (Z.ltb_spec (i + Z.of_nat (List.length xs)) 0) as [|Hge];
    [discriminate|].
  split; [exact Hge|]. rewrite seq_index_front by exact Hge.
  simpl in Hi. now destruct (_ <=? _).
Qed.

Lemma subscript1_from_front (o v : obj (scalar L)) (k : key) :
  subscript1 o k = Some v ->
  exists k', subscript1 o k' = Some v /\
             match o, k' with
             | Mapping _, _ => True
             | _, KInt i => 0 <= i
             | _, KStr _ => True
             end.
Proof.
  destruct o as [items | elems | [s | x]]; simpl.
  - intros Hk. now exists k.
  - destruct k as [|i]; [discriminate|]. intros Hi.
    destruct (seq_index_from_front _ _ _ Hi) as (j & Hj & Hget).
    now exists (KInt j).
  - destruct k as [|i]; [discriminate|].
    destruct (seq_index (list_ascii_of_string s) i) as [c|] eqn:Hi; [|discriminate].
    intros [= <-].
    destruct (seq_index_from_front _ _ _ Hi) as (j & Hj & Hget).
    exists (KInt j). simpl. now rewrite Hget.
  - discriminate.
Qed.

(** Whatever a path reaches is reached by a path from the front. *)
Lemma subscript_from_front (p : path) :
  forall (o v : obj (scalar L)),
    subscript o p = Some v ->
    exists p', subscript o p' = Some v /\ from_front o p'.
Proof.
  induction p as [|k p IH]; intros o v; simpl.
  - intros Ho. exists []. now split.
  - destruct (subscript1 o k) as [w|] eqn:Hk; [|discriminate]. intros Hp.
    destruct (IH w v Hp) as (p' & Hp' & Hfront).
    destruct (subscript1_from_front o w k Hk) as (k' & Hk' & Hfront1).
    exists (k' :: p'). simpl. rewrite Hk'. repeat split; assumption.
Qed.

Lemma _flatten_limited_subscript (limit : nat) :
  forall (pfx : path) (o : obj (scalar L)) (ys : list (path * L)),
    _flatten_limited limit pfx o = (ys, Exhausted) ->
    well_keyed o ->
    forall q x,
      In (q, x) ys <->
      exists p, q = pfx ++ p /\ subscript o p = Some (Leaf (Other x))
                /\ from_front o p.
Proof.
  induction limit as [|limit IH]; intros pfx o ys Hrun Hwk q x; [discriminate|].
  destruct o as [items | elems | [s | y]].
  - change (yield_from_each
              (fun kv => _flatten_limited limit (pfx ++ [fst kv]) (snd kv)) items
            = (ys, Exhausted)) in Hrun.
    apply yield_from_each_Exhausted in Hrun. destruct Hrun as [Hall ->].
    apply well_keyed_Mapping in Hwk. destruct Hwk as [Hnd Hwk].
    rewrite Forall_forall in Hall, Hwk. rewrite in_flat_map. split.
    + intros ([k w] & Hin & Hq). specialize (Hall _ Hin). simpl in Hall, Hq.
      destruct (_flatten_limited limit (pfx ++ [k]) w) as [ys' e] eqn:Ew.
      simpl in Hall, Hq. subst e.
      apply (IH _ _ _ Ew (Hwk _ Hin)) in Hq.
      destruct Hq as (p & -> & Hsub & Hfront).
      exists (k :: p). simpl.
      rewrite (In_dict_get key_eqb key_eqb_eq items k w Hnd Hin).
      rewrite <- app_assoc. repeat split; assumption.
    + intros (p & -> & Hsub & Hfront).
      destruct p as [|k p]; [discriminate|]. simpl in Hsub, Hfront.
      destruct (dict_get key_eqb items k) as [w|] eqn:Hget; [|discriminate].
      apply (dict_get_In key_eqb key_eqb_eq) in Hget.
      exists (k, w). split; [exact Hget|]. specialize (Hall _ Hget). simpl in *.
      destruct (_flatten_limited limit (pfx ++ [k]) w) as [ys' e] eqn:Ew.
      simpl in *. subst e.
      apply (IH _ _ _ Ew (Hwk _ Hget)).
      exists p. rewrite <- app_assoc. repeat split; tauto.
  - change (yield_from_each
              (fun iv => _flatten_limited limit (pfx ++ [KInt (fst iv)]) (snd iv))
              (enumerate_from 0 elems)
            = (ys, Exhausted)) in Hrun.
    apply yield_from_each_Exhausted in Hrun. destruct Hrun as [Hall ->].
    apply well_keyed_Sequence in Hwk.
    rewrite Forall_forall in Hall, Hwk. rewrite in_flat_map. split.
    + intros ([i w] & Hin & Hq). specialize (Hall _ Hin). simpl in Hall, Hq.
      destruct (_flatten_limited limit (pfx ++ [KInt i]) w) as [ys' e] eqn:Ew.
      simpl in Hall, Hq. subst e.
      apply enumerate_from_In in Hin. destruct Hin as [Hi Hn].
      rewrite Z.sub_0_r in Hn.
      apply (IH _ _ _ Ew (Hwk _ (nth_error_In _ _ Hn))) in Hq.
      destruct Hq as (p & -> & Hsub & Hfront).
      exists (KInt i :: p). simpl.
      rewrite (seq_index_front elems i Hi), Hn.
      rewrite <- app_assoc. repeat split; assumption.
    + intros (p & -> & Hsub & Hfront).
      destruct p as [|[s | i] p]; try discriminate. simpl in Hsub, Hfront.
      destruct Hfront as [Hi Hfront].
      rewrite (seq_index_front elems i Hi) in Hsub, Hfront.
      destruct (nth_error elems (Z.to_nat i)) as [w|] eqn:Hn; [|discriminate].
      assert (Hin : In (i, w) (enumerate_from 0 elems)).
      { apply enumerate_from_In. split; [exact Hi|]. now rewrite Z.sub_0_r. }
      exists (i, w). split; [exact Hin|]. specialize (Hall _ Hin). simpl in *.
      destruct (_flatten_limited limit (pfx ++ [KInt i]) w) as [ys' e] eqn:Ew.
      simpl in *. subst e.
      apply (IH _ _ _ Ew (Hwk _ (nth_error_In _ _ Hn))).
      exists p. rewrite <- app_assoc. repeat split; assumption.
  - destruct s as [|c s]; [|now rewrite str_overflows in Hrun].
    simpl in Hrun. injection Hrun as <-. split; [contradiction|].
    intros (p & _ & Hsub & _). destruct p as [|[s | i] p]; try discriminate.
    simpl in Hsub. unfold seq_index in Hsub. simpl in Hsub.
    rewrite Z.add_0_r in Hsub.
    destruct (i <? 0) eqn:Eneg; simpl in Hsub; [rewrite Eneg in Hsub; discriminate|].
    rewrite Eneg in Hsub. simpl in Hsub.
    destruct (Z.leb_spec 0 i) as [|Hlt]; [discriminate|].
    apply Z.ltb_ge in Eneg. lia.
  - simpl in Hrun. injection Hrun as <-. split.
    + intros [[= <- <-] | []]. exists []. rewrite app_nil_r. now repeat split.
    + intros (p & -> & Hsub & _). destruct p as [|k p]; [|discriminate].
      simpl in Hsub. injection Hsub as <-. rewrite app_nil_r. now left.
Qed.

(** Whenever [flatten] runs to its end on an object whose mappings have
    distinct keys, it yields (path, leaf) exactly when subscripting the
    object along the path ends at that leaf and the path counts the
    items of sequences from the front; and whatever leaf subscripting
    reaches, along whatever path, is yielded. *)
Theorem flatten_subscript (limit : nat) (o : obj (scalar L))
        (ys : list (path * L)) :
  flatten_limited limit o = (ys, Exhausted) ->
  well_keyed o ->
  (forall p x,
      In (p, x) ys <->
      subscript o p = Some (Leaf (Other x)) /\ from_front o p) /\
  (forall q x,
      subscript o q = Some (Leaf (Other x)) -> exists p, In (p, x) ys).
Proof.
  intros Hrun Hwk.
  assert (Hiff : forall p x,
             In (p, x) ys <->
             subscript o p = Some (Leaf (Other x)) /\ from_front o p).
  { intros p x. rewrite (_flatten_limited_subscript limit [] o ys Hrun Hwk p x).
    simpl. split.
    - intros (p' & -> & Hsub). exact Hsub.
    - intros Hsub. now exists p. }
  split; [exact Hiff|].
  intros q x Hq. destruct (subscript_from_front q o _ Hq) as (p & Hp & Hfront).
  exists p. apply Hiff. now split.
Qed.

End SubscriptFacts.

Lemma flatten_subscript_witness :
  (In ([KStr "a"; KInt 1; KStr "b"], 20)
      [([KStr "a"; KInt 0], 10); ([KStr "a"; KInt 1; KStr "b"], 20);
       ([KInt 7], 30)]
   <-> subscript (plain mixed_nesting) [KStr "a"; KInt 1; KStr "b"]
       = Some (Leaf (Other 20))
       /\ from_front (plain mixed_nesting) [KStr "a"; KInt 1; KStr "b"]) /\
  (subscript (plain mixed_nesting) [KStr "a"; KInt (-2); KStr "b"]
   = Some (Leaf (Other 20)) ->
   exists p, In (p, 20) [([KStr "a"; KInt 0], 10); ([KStr "a"; KInt 1; KStr "b"], 20);
                         ([KInt 7], 30)]).
Proof.
  assert (Hrun : flatten_limited 4 (plain mixed_nesting)
                 = ([([KStr "a"; KInt 0], 10); ([KStr "a"; KInt 1; KStr "b"], 20);
                     ([KInt 7], 30)], Exhausted)) by reflexivity.
  assert (Hwk : well_keyed (plain mixed_nesting)).
  { simpl. repeat split; repeat constructor; simpl; intuition discriminate. }
  split.
  - apply (proj1 (flatten_subscript 4 (plain mixed_nesting) _ Hrun Hwk)).
  - apply (proj2 (flatten_subscript 4 (plain mixed_nesting) _ Hrun Hwk)).
Defined.
